(** * Schwarzwald point-cloud converter: terminal UI helpers and converter driver

    A shallow embedding of
    - [src/schwarzwald/util/terminal/TerminalUI.cpp]
      ([get_progress_glyph], [TerminalMultilineLabel::render]) and
    - the converter driver [PotreeConverter.cpp]
      ([get_transformation_helper], [verifyWorkDir], [createPointReader],
      [PotreeConverter::prepare], [PotreeConverter::convert]),
    followed by the properties of these functions. *)

From Stdlib Require Import List String Ascii ZArith NArith Lia Bool.
From Stdlib Require QArith.
Import ListNotations.

(* ================================================================== *)
(** * Part I: the embedding *)
(* ================================================================== *)

(** A [std::string] is a sequence of bytes. *)
Definition std_string := list ascii.

Definition str (s : string) : std_string := list_ascii_of_string s.

(** [size_t] is 64 bits wide; sums and products of [size_t] values wrap. *)
Definition size_t_modulus : N := 2 ^ 64.
Definition wrap_size_t (n : N) : N := n mod size_t_modulus.

(** Decimal digits, as [operator<<] and [boost::format] print unsigned
    integers: no leading zero, ["0"] for zero.  The fuel is the number of
    binary digits plus one, which is never used up. *)
Definition digit (d : N) : ascii := ascii_of_N (48 + d).

Fixpoint decimal_digits (fuel : nat) (n : N) : std_string :=
  match fuel with
  | O => []
  | S fuel' =>
      if (n <? 10)%N then [digit n]
      else decimal_digits fuel' (n / 10) ++ [digit (n mod 10)]
  end.

Definition decimal (n : N) : std_string :=
  decimal_digits (S (N.to_nat (N.size n))) n.

Module TerminalUI.

(** ** [get_progress_glyph] *)

(** Single-precision arithmetic is kept abstract: the function only
    subtracts, multiplies and converts to [int].  [float_to_int] is
    [static_cast<int>]: it has no defined result ([None]) for a NaN, for
    an infinity and for a value whose integral part no [int] holds;
    the [int] it produces otherwise is then clamped. *)
Class FloatArith (float : Type) : Type := {
  float_lit : Z -> float;
  fsub : float -> float -> float;
  fmul : float -> float -> float;
  float_to_int : float -> option Z
}.

(** The UTF-8 encoding of U+2588 + [k], the block elements, as the
    compiler stores the literals. *)
Definition block_glyph (k : nat) : std_string :=
  [ascii_of_nat 226; ascii_of_nat 150; ascii_of_nat (136 + k)].

Definition Glyphs : list std_string :=
  [ block_glyph 0; block_glyph 1; block_glyph 2;
    block_glyph 3; block_glyph 4; block_glyph 5;
    block_glyph 6; block_glyph 7; str " " ].

(** [std::array::operator[]] does not check its index: an index outside
    the array has no defined result, which is [None] here. *)
Definition array_at {A : Type} (a : list A) (i : Z) : option A :=
  if (i <? 0)%Z then None else nth_error a (Z.to_nat i).

(** [std::max(0, std::min(8, static_cast<int>((1.f - progress) * 8)))]:
    the clamp comes after the conversion. *)
Definition progress_step {float} `{FloatArith float} (progress : float) : option Z :=
  match float_to_int (fmul (fsub (float_lit 1) progress) (float_lit 8)) with
  | Some i => Some (Z.max 0 (Z.min 8 i))
  | None => None
  end.

Definition get_progress_glyph {float} `{FloatArith float} (progress : float)
  : option std_string :=
  match progress_step progress with
  | Some step => array_at Glyphs step
  | None => None
  end.

(** Whether the conversion to [int] in [get_progress_glyph] is defined
    for [progress]. *)
Definition cast_defined {float} `{FloatArith float} (progress : float) : bool :=
  match float_to_int (fmul (fsub (float_lit 1) progress) (float_lit 8)) with
  | Some _ => true
  | None => false
  end.

(** ** [TerminalMultilineLabel::render] and its [chunk_string] lambda *)

(** [static_cast<size_t>(std::ceil(size / static_cast<double>(chunk_length)))].
    For sizes below 2^53 both conversions to [double] and the rounded
    quotient have the exact ceiling, which is what is computed here; a zero
    [chunk_length] gives an infinity or a NaN whose conversion to [size_t]
    is undefined ([None]). *)
Definition ceil_div (size chunk_length : N) : option N :=
  if (chunk_length =? 0)%N then None
  else Some (if (size mod chunk_length =? 0)%N
             then size / chunk_length
             else size / chunk_length + 1)%N.

(** [std::string(first, last)] for the iterators [begin + first] and
    [begin + last]; defined only for a valid range. *)
Definition string_of_range (s : std_string) (first last : N) : option std_string :=
  if ((first <=? last) && (last <=? N.of_nat (List.length s)))%N
  then Some (firstn (N.to_nat last - N.to_nat first) (skipn (N.to_nat first) s))
  else None.

(** The [for] loop of [chunk_string]: [remaining] iterations are left,
    [chunk] is the loop counter and [chunks] the vector built so far. *)
Fixpoint chunk_loop (s : std_string) (chunk_length : N)
         (remaining : nat) (chunk : N) (chunks : list std_string)
  : option (list std_string) :=
  match remaining with
  | O => Some chunks
  | S remaining' =>
      let size := N.of_nat (List.length s) in
      let start_iter := wrap_size_t (chunk * chunk_length) in
      let next := wrap_size_t ((chunk + 1) * chunk_length) in
      let end_iter := if (size <=? next)%N then size else next in
      match string_of_range s start_iter end_iter with
      | None => None
      | Some piece =>
          chunk_loop s chunk_length remaining' (chunk + 1) (chunks ++ [piece])
      end
  end.

Definition chunk_string (s : std_string) (chunk_length : N)
  : option (list std_string) :=
  match ceil_div (N.of_nat (List.length s)) chunk_length with
  | None => None
  | Some num_chunks => chunk_loop s chunk_length (N.to_nat num_chunks) 0%N []
  end.

Definition newline : ascii := ascii_of_nat 10.

(** One iteration of the output loop of [render]: the colour escape is
    written only on a terminal. *)
Definition render_line (is_tty : bool) (color : std_string)
           (stream line : std_string) : std_string :=
  ((if is_tty then stream ++ color else stream) ++ line) ++ [newline].

Record TerminalMultilineLabel : Type := {
  _content : std_string;
  _color : std_string;
  _line_width : N   (* uint32_t *)
}.

(** [render] appends to [stream]; [is_tty] is the answer of
    [util::terminal_is_tty()]. *)
Definition render (is_tty : bool) (label : TerminalMultilineLabel)
           (stream : std_string) : option std_string :=
  match chunk_string (_content label) (_line_width label) with
  | None => None
  | Some lines => Some (fold_left (render_line is_tty (_color label)) lines stream)
  end.

(** The number of line feeds in a piece of output. *)
Definition line_feeds (s : std_string) : nat := count_occ ascii_dec s newline.

(** ** [format_progress_name] *)

Definition space : ascii := ascii_of_nat 32.
Definition colon : ascii := ascii_of_nat 58.

(** The loop bound [max_name_length - name.size()] is computed in
    [size_t].  A [std_string] has no capacity here: for a name longer
    than [max_name_length], where the bound wraps around, no stream could
    hold what this definition returns, and nothing is stated about that
    case; the caller passes the length of the longest name. *)
Definition format_progress_name (name : std_string) (max_name_length : N)
  : std_string :=
  let fills :=
    wrap_size_t (max_name_length + size_t_modulus - N.of_nat (List.length name)) in
  (name ++ repeat space (N.to_nat fills)) ++ [colon].

(** ** [format_time_as_hh_mm_ss] *)

Definition minus_sign : ascii := ascii_of_nat 45.
Definition zero_digit : ascii := ascii_of_nat 48.

(** [boost::format("%i")] on a signed integer. *)
Definition format_i (v : Z) : std_string :=
  if (v <? 0)%Z then minus_sign :: decimal (Z.to_N (- v)) else decimal (Z.to_N v).

(** [boost::format("%02i")]: padded with zeros to two characters. *)
Definition format_02i (v : Z) : std_string :=
  let plain := format_i v in
  if (List.length plain <? 2)%nat then zero_digit :: plain else plain.

(** [seconds] is [seconds.count()]; [/] and [%] truncate towards zero. *)
Definition format_time_as_hh_mm_ss (seconds : Z) : std_string :=
  let hours := Z.quot seconds 3600 in
  let remaining_minutes := Z.rem (Z.quot seconds 60) 60 in
  let remaining_seconds := Z.rem seconds 60 in
  if (hours <? 100)%Z then
    format_02i hours ++ [colon] ++ format_02i remaining_minutes
      ++ [colon] ++ format_02i remaining_seconds
  else
    format_i hours ++ [colon] ++ format_02i remaining_minutes
      ++ [colon] ++ format_02i remaining_seconds.

(** Reading a time of the form [HH:MM:SS] back. *)
Definition digit_value (c : ascii) : option Z :=
  let n := N_of_ascii c in
  if ((48 <=? n) && (n <=? 57))%N then Some (Z.of_N n - 48)%Z else None.

Definition two_digits (a b : ascii) : option Z :=
  match digit_value a, digit_value b with
  | Some x, Some y => Some (10 * x + y)%Z
  | _, _ => None
  end.

Definition parse_hh_mm_ss (s : std_string) : option Z :=
  match s with
  | [h1; h2; c1; m1; m2; c2; s1; s2] =>
      if (Ascii.eqb c1 colon && Ascii.eqb c2 colon)%bool then
        match two_digits h1 h2, two_digits m1 m2, two_digits s1 s2 with
        | Some h, Some m, Some sec => Some (3600 * h + 60 * m + sec)%Z
        | _, _, _ => None
        end
      else None
  | _ => None
  end.

(** ** Numbers of the progress counters *)

(** Double-precision arithmetic and the progress counters of
    [ProgressReporter.h], as far as the user interface uses them:
    [counter_current] and [counter_max] are the counter's current and
    maximal progress converted to [double]. *)
Class ProgressNumbers (double Counter : Type) : Type := {
  counter_current : Counter -> double;
  counter_max : Counter -> double;
  d_lit : Z -> double;
  d_lt : double -> double -> bool;
  d_div : double -> double -> double;
  d_mul : double -> double -> double;
  d_round : double -> double;                         (* [std::round] *)
  d_pow : double -> N -> double;                      (* [std::pow] *)
  show_fixed : nat -> double -> std_string;  (* [std::fixed], [std::setprecision] *)
  format_with_metric_prefix : double -> std_string    (* [types/Units.h] *)
}.

Section ProgressUI.

Context {float double Counter : Type}.
Context {FA : FloatArith float} {PN : ProgressNumbers double Counter}.

(** The cast [static_cast<float>] of a [double]. *)
Variable double_to_float : double -> float.

(** ** [pretty_print_large_number] *)

Definition suffixes : list std_string := [str EmptyString; str "K"; str "M"; str "B"; str "T"].

(** The loop of the lambda [order_of_magnitude]: [remaining] iterations
    are left and [order] is the loop counter. *)
Fixpoint order_of_magnitude_loop (remaining : nat) (order : N) (cur_val : double) : N :=
  match remaining with
  | O => 4%N
  | S remaining' =>
      if d_lt cur_val (d_lit 1000) then order
      else order_of_magnitude_loop remaining' (order + 1)
                                   (d_round (d_div cur_val (d_lit 1000)))
  end.

Definition order_of_magnitude (val : double) : N := order_of_magnitude_loop 4 0 val.

Definition pretty_print_large_number (large_number : double) : option std_string :=
  let order := order_of_magnitude large_number in
  match array_at suffixes (Z.of_N order) with
  | None => None
  | Some suffix =>
      let number_trimmed := d_div large_number (d_pow (d_lit 1000) order) in
      Some (show_fixed 1 number_trimmed ++ suffix)
  end.

(** ** [format_progress_counter] *)

Definition format_progress_counter (counter : Counter) : option std_string :=
  let cur_progress := counter_current counter in
  let max_progress := counter_max counter in
  let progress_percentage := d_mul (d_lit 100) (d_div cur_progress max_progress) in
  match pretty_print_large_number cur_progress,
        pretty_print_large_number max_progress with
  | Some cur, Some max =>
      Some (str " " ++ show_fixed 2 progress_percentage ++ str "% ["
              ++ cur ++ str "/" ++ max ++ str "]")
  | _, _ => None
  end.

(** ** The elements of the user interface and their [render] methods *)

Inductive TerminalUIElement : Type :=
| Label (content color : std_string)
| MultilineLabel (label : TerminalMultilineLabel)
| ProgressBar (progress : float) (allowed_width : N).

(** [TerminalLabel::render]. *)
Definition render_label (is_tty : bool) (content color stream : std_string)
  : std_string :=
  (if is_tty then stream ++ color else stream) ++ content.

(** The loop of [TerminalProgressBar::render]: [remaining] steps are
    left and [idx] is the loop counter. *)
Fixpoint progress_bar_loop (enabled_steps : float) (remaining : nat) (idx : N)
         (stream : std_string) : option std_string :=
  match remaining with
  | O => Some stream
  | S remaining' =>
      match get_progress_glyph (fsub enabled_steps (float_lit (Z.of_N idx))) with
      | None => None
      | Some glyph =>
          progress_bar_loop enabled_steps remaining' (idx + 1) (stream ++ glyph)
      end
  end.

(** [TerminalProgressBar::render]; [_allowed_width] is a [uint32_t]. *)
Definition render_progress_bar (progress : float) (allowed_width : N)
           (stream : std_string) : option std_string :=
  if (allowed_width <? 3)%N then Some stream
  else
    let steps := (allowed_width - 2)%N in
    let enabled_steps := fmul (float_lit (Z.of_N steps)) progress in
    match progress_bar_loop enabled_steps (N.to_nat steps) 0
                            (stream ++ str "[") with
    | None => None
    | Some stream' => Some (stream' ++ str "]")
    end.

(** Whether the conversion to [int] is defined in every round of the
    loop of [TerminalProgressBar::render], from round [idx] on. *)
Fixpoint bar_casts_defined (enabled_steps : float) (remaining : nat) (idx : N) : bool :=
  match remaining with
  | O => true
  | S remaining' =>
      cast_defined (fsub enabled_steps (float_lit (Z.of_N idx)))
      && bar_casts_defined enabled_steps remaining' (idx + 1)
  end.

(** Whether it is defined for every glyph of a bar of [allowed_width]
    columns that shows [progress]. *)
Definition bar_defined (progress : float) (allowed_width : N) : bool :=
  (allowed_width <? 3)%N
  || bar_casts_defined (fmul (float_lit (Z.of_N (allowed_width - 2))) progress)
                       (N.to_nat (allowed_width - 2)) 0.

Definition render_element (is_tty : bool) (element : TerminalUIElement)
           (stream : std_string) : option std_string :=
  match element with
  | Label content color => Some (render_label is_tty content color stream)
  | MultilineLabel label => render is_tty label stream
  | ProgressBar progress allowed_width => render_progress_bar progress allowed_width stream
  end.

Fixpoint render_elements (is_tty : bool) (elements : list TerminalUIElement)
         (stream : std_string) : option std_string :=
  match elements with
  | [] => Some stream
  | element :: rest =>
      match render_element is_tty element stream with
      | None => None
      | Some stream' => render_elements is_tty rest stream'
      end
  end.

(** ** [TerminalUI::rebuild_progress_ui_with_tty] *)

Definition ESC : ascii := ascii_of_nat 27.

(** ["\u001b[37m"]. *)
Definition ForegroundColorWhite : std_string := ESC :: str "[37m".

(** [std::max_element]: the first of the largest elements. *)
Fixpoint max_element_from {A : Type} (less : A -> A -> bool) (largest : A)
         (rest : list A) : A :=
  match rest with
  | [] => largest
  | x :: rest' => max_element_from less (if less largest x then x else largest) rest'
  end.

Definition max_element {A : Type} (less : A -> A -> bool) (l : list A) : option A :=
  match l with
  | [] => None
  | x :: rest => Some (max_element_from less x rest)
  end.

(** The body of the loop over the progress counters. *)
Definition progress_row (max_name_length : N) (kv : std_string * Counter)
  : option (list TerminalUIElement) :=
  let progress := d_div (counter_current (snd kv)) (counter_max (snd kv)) in
  match format_progress_counter (snd kv) with
  | None => None
  | Some detail =>
      Some [ Label (format_progress_name (fst kv) max_name_length) ForegroundColorWhite;
             ProgressBar (double_to_float progress) 40;
             Label detail ForegroundColorWhite ]
  end.

(** The progress that the bar of a counter is given: the quotient
    computed in the loop, cast to [float]. *)
Definition shown (kv : std_string * Counter) : float :=
  double_to_float (d_div (counter_current (snd kv)) (counter_max (snd kv))).

Fixpoint progress_rows (max_name_length : N) (counters : list (std_string * Counter))
  : option (list (list TerminalUIElement)) :=
  match counters with
  | [] => Some []
  | kv :: rest =>
      match progress_row max_name_length kv, progress_rows max_name_length rest with
      | Some row, Some rows => Some (row :: rows)
      | _, _ => None
      end
  end.

(** The result is the new value of [_ui_elements]; [progress_counters]
    are the entries of the reporter's table in the order of iteration. *)
Definition rebuild_progress_ui_with_tty (progress_counters : list (std_string * Counter))
  : option (list (list TerminalUIElement)) :=
  match max_element (fun l r => (List.length (fst l) <? List.length (fst r))%nat)
                    progress_counters with
  | None => Some []
  | Some longest_name =>
      progress_rows (N.of_nat (List.length (fst longest_name))) progress_counters
  end.

(** ** [TerminalUI::rebuild_progress_ui_without_tty] *)

(** [boost::format("%1%: %2% / %3% ")]. *)
Definition progress_text (kv : std_string * Counter) : std_string :=
  fst kv ++ str ": " ++ format_with_metric_prefix (counter_current (snd kv))
    ++ str " / " ++ format_with_metric_prefix (counter_max (snd kv)) ++ str " ".

(** [delta_time_seconds] is the whole number of seconds since [_t_start]. *)
Definition rebuild_progress_ui_without_tty
           (progress_counters : list (std_string * Counter)) (delta_time_seconds : Z)
  : list (list TerminalUIElement) :=
  match progress_counters with
  | [] => []
  | _ :: _ =>
      [ Label (str "[" ++ format_time_as_hh_mm_ss delta_time_seconds ++ str "] ")
              ForegroundColorWhite
        :: map (fun kv => Label (progress_text kv) ForegroundColorWhite)
               progress_counters ]
  end.

(** ** [TerminalUI::redraw] and its two drawing routines *)

(** ["\u001b[2K"], the elements of the line, and a line feed. *)
Fixpoint draw_lines (is_tty : bool) (ui_elements : list (list TerminalUIElement))
         (stream : std_string) : option std_string :=
  match ui_elements with
  | [] => Some stream
  | ui_line :: rest =>
      match render_elements is_tty ui_line
                            (if is_tty then stream ++ ESC :: str "[2K" else stream) with
      | None => None
      | Some stream' => draw_lines is_tty rest (stream' ++ [newline])
      end
  end.

(** The cursor is sent to the first column and [ui_height_lines] lines
    up. *)
Definition redraw_with_tty (ui_elements : list (list TerminalUIElement))
           (stream : std_string) : option std_string :=
  match draw_lines true ui_elements stream with
  | None => None
  | Some stream' =>
      let ui_height_lines := N.of_nat (List.length ui_elements) in
      Some (stream' ++ (ESC :: str "[1000D")
              ++ (ESC :: str "[") ++ decimal ui_height_lines ++ str "A")
  end.

Definition redraw_without_tty (ui_elements : list (list TerminalUIElement))
           (stream : std_string) : option std_string :=
  draw_lines false ui_elements stream.

(** [redraw] returns the new [_ui_elements] with what [std::cout] holds
    afterwards. *)
Definition redraw (is_tty : bool) (progress_counters : list (std_string * Counter))
           (delta_time_seconds : Z) (stream : std_string)
  : option (list (list TerminalUIElement) * std_string) :=
  match (if is_tty then rebuild_progress_ui_with_tty progress_counters
         else Some (rebuild_progress_ui_without_tty progress_counters
                                                    delta_time_seconds)) with
  | None => None
  | Some [] => Some ([], stream)
  | Some ui_elements =>
      match (if is_tty then redraw_with_tty ui_elements stream
             else redraw_without_tty ui_elements stream) with
      | None => None
      | Some stream' => Some (ui_elements, stream')
      end
  end.

End ProgressUI.

End TerminalUI.

(** ** The file system seen through [std::experimental::filesystem] *)

Module Filesystem.

#[local] Set Warnings "-register-all".

(** A file system is a tree.  A path is the list of its components, so
    [workDir + "/r.json"] is [workDir ++ ["r.json"]].  [Special] stands for
    whatever is neither a regular file nor a directory. *)
Inductive node : Type :=
| RegularFile
| Special
| Directory (entries : list (string * node)).

Definition path := list string.

Definition named (name : string) (entry : string * node) : bool :=
  String.eqb name (fst entry).

Definition find_entry (name : string) (entries : list (string * node))
  : option node :=
  option_map snd (find (named name) entries).

(** [fs::status]: the node a path leads to, if any. *)
Fixpoint status (root : node) (p : path) : option node :=
  match p with
  | [] => Some root
  | name :: rest =>
      match root with
      | Directory entries =>
          match find_entry name entries with
          | Some child => status child rest
          | None => None
          end
      | _ => None
      end
  end.

Definition exists_ (root : node) (p : path) : bool :=
  match status root p with Some _ => true | None => false end.

Definition is_directory (root : node) (p : path) : bool :=
  match status root p with Some (Directory _) => true | _ => false end.

Definition is_regular_file (root : node) (p : path) : bool :=
  match status root p with Some RegularFile => true | _ => false end.

(** [fs::directory_iterator{p}]: the paths of the entries of directory
    [p]; constructing it fails when [p] is not a directory. *)
Definition directory_iterator (root : node) (p : path) : option (list path) :=
  match status root p with
  | Some (Directory entries) => Some (map (fun e => p ++ [fst e]) entries)
  | _ => None
  end.

(** [fs::remove_all(p)]: removes the entry [p] with everything below it. *)
Fixpoint remove_all (p : path) (root : node) {struct p} : node :=
  match p with
  | [] => root
  | name :: rest =>
      match root with
      | Directory entries =>
          match rest with
          | [] => Directory (filter (fun e => negb (named name e)) entries)
          | _ :: _ =>
              Directory (map (fun e => if named name e
                                       then (fst e, remove_all rest (snd e))
                                       else e) entries)
          end
      | _ => root
      end
  end.

Fixpoint new_directories (p : path) : node :=
  match p with
  | [] => Directory []
  | name :: rest => Directory [(name, new_directories rest)]
  end.

(** [fs::create_directories(p)]: creates [p] and its missing parents;
    fails when a component exists and is not a directory. *)
Fixpoint create_directories (p : path) (root : node) {struct p} : option node :=
  match root with
  | Directory entries =>
      match p with
      | [] => Some root
      | name :: rest =>
          match find_entry name entries with
          | None => Some (Directory (entries ++ [(name, new_directories rest)]))
          | Some child =>
              match create_directories rest child with
              | None => None
              | Some child' =>
                  Some (Directory (map (fun e => if named name e
                                                 then (fst e, child') else e)
                                       entries))
              end
          end
      end
  | _ => None
  end.

(** [fs::status(p).type()]: what kind of file a path names. *)
Inductive file_type : Type := regular | directory | other.

Definition type_of (n : node) : file_type :=
  match n with
  | RegularFile => regular
  | Special => other
  | Directory _ => directory
  end.

Definition kind (root : node) (p : path) : option file_type :=
  option_map type_of (status root p).

(** [fs::remove(p)]: removes a file or an empty directory and answers
    whether there was something to remove; fails on a directory that is
    not empty. *)
Definition remove (p : path) (root : node) : option (bool * node) :=
  match status root p with
  | None => Some (false, root)
  | Some (Directory (_ :: _)) => None
  | Some _ => Some (true, remove_all p root)
  end.

(** [q] lies strictly below [p]. *)
Definition strictly_below (p q : path) : Prop :=
  exists name rest, q = p ++ name :: rest.

(** Some proper prefix of [p] names something that is not a directory. *)
Definition blocked (root : node) (p : path) : Prop :=
  exists parent name rest,
    p = parent ++ name :: rest /\
    exists_ root parent = true /\ is_directory root parent = false.

End Filesystem.

(** ** The converter driver, [PotreeConverter.cpp] *)

Module Potree.

Import Filesystem.

(** *** Effects: the world, exceptions, and the monad that threads them *)

Record world : Type := {
  fs : node;
  cout : list string;   (* the lines written to [std::cout], oldest first *)
  cerr : list string
}.

Inductive exception : Type :=
| runtime_error (what : string)
| filesystem_error.

(** A call returns, throws, or has no defined behaviour (a null pointer
    is dereferenced). *)
Inductive outcome (A : Type) : Type :=
| Returned (a : A)
| Thrown (e : exception)
| Undefined.
Arguments Returned {A} a.
Arguments Thrown {A} e.
Arguments Undefined {A}.

Definition M (A : Type) : Type := world -> outcome A * world.

(** The value a run returned, if it returned. *)
Definition value_of {A : Type} (run : outcome A * world) : option A :=
  match fst run with
  | Returned a => Some a
  | _ => None
  end.

Definition ret {A} (a : A) : M A := fun w => (Returned a, w).

Definition bind {A B} (m : M A) (k : A -> M B) : M B :=
  fun w =>
    match m w with
    | (Returned a, w') => k a w'
    | (Thrown e, w') => (Thrown e, w')
    | (Undefined, w') => (Undefined, w')
    end.

Definition throw {A} (e : exception) : M A := fun w => (Thrown e, w).
Definition undefined {A} : M A := fun w => (Undefined, w).

Notation "x <- m ;; k" := (bind m (fun x => k))
  (at level 61, m at next level, right associativity).
Notation "m ;;; k" := (bind m (fun _ => k))
  (at level 61, right associativity).

Definition get_fs : M node := fun w => (Returned (fs w), w).

Definition put_fs (root : node) : M unit :=
  fun w => (Returned tt, {| fs := root; cout := cout w; cerr := cerr w |}).

(** [std::cout << line << std::endl]. *)
Definition print (line : string) : M unit :=
  fun w => (Returned tt, {| fs := fs w; cout := cout w ++ [line]; cerr := cerr w |}).

Definition print_err (line : string) : M unit :=
  fun w => (Returned tt, {| fs := fs w; cout := cout w; cerr := cerr w ++ [line] |}).

(** The world after [lines] have been written to [std::cout]. *)
Definition printed (w : world) (lines : list string) : world :=
  {| fs := fs w; cout := cout w ++ lines; cerr := cerr w |}.

Fixpoint for_each {A} (xs : list A) (body : A -> M unit) : M unit :=
  match xs with
  | [] => ret tt
  | x :: rest => body x ;;; for_each rest body
  end.

Definition fs_exists (p : path) : M bool :=
  root <- get_fs ;; ret (exists_ root p).

Definition fs_remove_all (p : path) : M unit :=
  root <- get_fs ;; put_fs (remove_all p root).

Definition fs_directory_iterator (p : path) : M (list path) :=
  root <- get_fs ;;
  match directory_iterator root p with
  | Some entries => ret entries
  | None => throw filesystem_error
  end.

Definition fs_create_directories (p : path) : M unit :=
  root <- get_fs ;;
  match create_directories p root with
  | Some root' => put_fs root'
  | None => throw filesystem_error
  end.

(** *** [verifyWorkDir] *)

(** Modelled from the spec: the enumeration [StoreOption] is declared in a
    header outside the sources; the spec lists its values as
    [ABORT_IF_EXISTS], [OVERWRITE] and [INCREMENTAL]. *)
Inductive StoreOption : Type := ABORT_IF_EXISTS | OVERWRITE | INCREMENTAL.

Definition StoreOption_eqb (a b : StoreOption) : bool :=
  match a, b with
  | ABORT_IF_EXISTS, ABORT_IF_EXISTS => true
  | OVERWRITE, OVERWRITE => true
  | INCREMENTAL, INCREMENTAL => true
  | _, _ => false
  end.

Definition output_not_empty : string :=
  "Output directory is not empty. Specify --overwrite if you want to overwrite the contents of the output folder!".

Definition verifyWorkDir (workDir : path) (storeOption : StoreOption) : M unit :=
  work_dir_exists <- fs_exists workDir ;;
  if work_dir_exists then
    let rootFile := workDir ++ ["r.json"%string] in
    root_file_exists <- fs_exists rootFile ;;
    if root_file_exists && StoreOption_eqb storeOption ABORT_IF_EXISTS then
      throw (runtime_error output_not_empty)
    else if StoreOption_eqb storeOption INCREMENTAL then
      print "Appending to existing output directory..."
    else
      print "Output directory not empty, removing existing files..." ;;;
      entries <- fs_directory_iterator workDir ;;
      for_each entries fs_remove_all
  else
    print "Output directory does not exist, creating it..." ;;;
    fs_create_directories workDir.

(** The lines [verifyWorkDir] prints. *)
Definition removing_line : string :=
  "Output directory not empty, removing existing files...".

Definition creating_line : string :=
  "Output directory does not exist, creating it...".

Definition appending_line : string :=
  "Appending to existing output directory...".

(** *** [PotreeConverter::cleanUp], as far as it needs the work directory
    only *)

Definition fs_remove (p : path) : M bool :=
  root <- get_fs ;;
  match remove p root with
  | Some (removed, root') => put_fs root' ;;; ret removed
  | None => throw filesystem_error
  end.

Definition cleanUp_in (workDir : path) : M unit :=
  let tempPath := workDir ++ ["temp"%string] in
  temp_exists <- fs_exists tempPath ;;
  if temp_exists then fs_remove tempPath ;;; ret tt else ret tt.

(** *** Collaborators declared in headers outside this file *)

(** The enumerators of [attributes::] that [prepare] names. *)
Inductive PointAttribute : Type :=
| POSITION_CARTESIAN
| COLOR_PACKED
| COLOR_FROM_INTENSITY
| INTENSITY
| CLASSIFICATION
| NORMAL_OCT16.

(** Numbers, [stuff.h], [AABB.h], [PointAttributes.hpp] and
    [Transformation.h]: the operations the driver calls, nothing more. *)
Class Platform : Type := {
  double : Type;
  float : Type;
  double_of_int : Z -> double;
  double_div : double -> double -> double;
  float_of_double : double -> float;          (* the cast [(float)] *)
  show_float : float -> string;
  iEndsWith : string -> string -> bool;
  PointAttributes_toString : list PointAttribute -> string;
  AABB : Type;
  AABB_default : AABB;
  AABB_of_corners : double * double * double -> double * double * double -> AABB;
  AABB_min : AABB -> double * double * double;
  AABB_max : AABB -> double * double * double;
  AABB_update : AABB -> double * double * double -> AABB;
  AABB_makeCubic : AABB -> AABB;
  AABB_size_length : AABB -> double;          (* [aabb.size.length()] *)
  show_AABB : AABB -> string;
  OutputFormat : Type;
  ConversionQuality : Type;
  Proj4 : Type;
  (** The constructor [Proj4Transform(projection)]: the transform, or the
      message of the [std::runtime_error] it throws. *)
  Proj4Transform_new : string -> Proj4 + string
}.

Section Driver.

Context {P : Platform}.

Inductive SRSTransformHelper : Type :=
| IdentityTransform
| Proj4Transform (transform : Proj4).

Inductive PointReader : Type :=
| LASPointReader (file : path) (pointAttributes : list PointAttribute)
| PTXPointReader (file : path)
| PlyPointReader (file : path)
| XYZPointReader (file : path) (format : string)
                 (colorRange intensityRange : list double)
| BINPointReader (file : path) (aabb : AABB) (scale : double)
                 (pointAttributes : list PointAttribute).

(** The members of the class that this file reads or writes.  They are
    declared in [PotreeConverter.h], outside the sources; their types are
    read off their uses, and [diagonalFraction] and [maxDepth] are [int]s
    as the spec has them.  [PointAttributes::add] appends. *)
Record PotreeConverter : Type := {
  executablePath : string;
  workDir : path;
  sources : list path;
  storeOption : StoreOption;
  outputAttributes : list string;
  pointAttributes : list PointAttribute;
  format : string;
  colorRange : list double;
  intensityRange : list double;
  aabbValues : list double;
  aabb : AABB;
  scale : double;
  sourceProjection : option string;
  diagonalFraction : Z;
  spacing : float;
  pageName : string;
  maxDepth : Z;
  outputFormat : OutputFormat;
  quality : ConversionQuality;
  max_memory_usage_MiB : Z
}.

Definition set_sources (this : PotreeConverter) (v : list path) : PotreeConverter :=
  {| executablePath := executablePath this; workDir := workDir this;
     sources := v; storeOption := storeOption this;
     outputAttributes := outputAttributes this;
     pointAttributes := pointAttributes this; format := format this;
     colorRange := colorRange this; intensityRange := intensityRange this;
     aabbValues := aabbValues this; aabb := aabb this; scale := scale this;
     sourceProjection := sourceProjection this;
     diagonalFraction := diagonalFraction this; spacing := spacing this;
     pageName := pageName this; maxDepth := maxDepth this;
     outputFormat := outputFormat this; quality := quality this;
     max_memory_usage_MiB := max_memory_usage_MiB this |}.

Definition set_pointAttributes (this : PotreeConverter) (v : list PointAttribute)
  : PotreeConverter :=
  {| executablePath := executablePath this; workDir := workDir this;
     sources := sources this; storeOption := storeOption this;
     outputAttributes := outputAttributes this;
     pointAttributes := v; format := format this;
     colorRange := colorRange this; intensityRange := intensityRange this;
     aabbValues := aabbValues this; aabb := aabb this; scale := scale this;
     sourceProjection := sourceProjection this;
     diagonalFraction := diagonalFraction this; spacing := spacing this;
     pageName := pageName this; maxDepth := maxDepth this;
     outputFormat := outputFormat this; quality := quality this;
     max_memory_usage_MiB := max_memory_usage_MiB this |}.

Definition set_spacing (this : PotreeConverter) (v : float) : PotreeConverter :=
  {| executablePath := executablePath this; workDir := workDir this;
     sources := sources this; storeOption := storeOption this;
     outputAttributes := outputAttributes this;
     pointAttributes := pointAttributes this; format := format this;
     colorRange := colorRange this; intensityRange := intensityRange this;
     aabbValues := aabbValues this; aabb := aabb this; scale := scale this;
     sourceProjection := sourceProjection this;
     diagonalFraction := diagonalFraction this; spacing := v;
     pageName := pageName this; maxDepth := maxDepth this;
     outputFormat := outputFormat this; quality := quality this;
     max_memory_usage_MiB := max_memory_usage_MiB this |}.

Definition set_workDir (this : PotreeConverter) (v : path) : PotreeConverter :=
  {| executablePath := executablePath this; workDir := v;
     sources := sources this; storeOption := storeOption this;
     outputAttributes := outputAttributes this;
     pointAttributes := pointAttributes this; format := format this;
     colorRange := colorRange this; intensityRange := intensityRange this;
     aabbValues := aabbValues this; aabb := aabb this; scale := scale this;
     sourceProjection := sourceProjection this;
     diagonalFraction := diagonalFraction this; spacing := spacing this;
     pageName := pageName this; maxDepth := maxDepth this;
     outputFormat := outputFormat this; quality := quality this;
     max_memory_usage_MiB := max_memory_usage_MiB this |}.

(** *** [get_transformation_helper] *)

Definition NUL : ascii := ascii_of_nat 0.
Definition LF : string := String (ascii_of_nat 10) EmptyString.
Definition dquote : string := String (ascii_of_nat 34) EmptyString.

(** [s.c_str()] as a C string: the characters before the first NUL. *)
Fixpoint c_str (s : string) : string :=
  match s with
  | EmptyString => EmptyString
  | String c rest => if Ascii.eqb c NUL then EmptyString else String c (c_str rest)
  end.

Definition strcmp (a b : string) : comparison := String.compare (c_str a) (c_str b).

Definition WGS84 : string := "+proj=longlat +datum=WGS84 +no_defs".

Definition get_transformation_helper (sourceProjection : option string)
  : M SRSTransformHelper :=
  match sourceProjection with
  | None =>
      print "Source projection not specified, skipping point transformation..." ;;;
      ret IdentityTransform
  | Some projection =>
      match strcmp projection WGS84 with
      | Eq =>
          print "Source projection is already WGS84, skipping point transformation..." ;;;
          ret IdentityTransform
      | _ =>
          match Proj4Transform_new projection with
          | inl transform => ret (Proj4Transform transform)
          | inr what =>
              print_err ("Error while setting up coordinate transformation:"
                           ++ LF ++ what) ;;;
              print_err "Skipping point transformation..." ;;;
              ret IdentityTransform
          end
      end
  end.

(** *** [PotreeConverter::createPointReader] *)

Definition path_string (p : path) : string := String.concat "/" p.

(** [NULL] is [None]. *)
Definition createPointReader (this : PotreeConverter) (file : path)
           (attributes : list PointAttribute) : option PointReader :=
  let name := path_string file in
  if iEndsWith name ".las" || iEndsWith name ".laz" then
    Some (LASPointReader file attributes)
  else if iEndsWith name ".ptx" then
    Some (PTXPointReader file)
  else if iEndsWith name ".ply" then
    Some (PlyPointReader file)
  else if iEndsWith name ".xyz" || iEndsWith name ".txt" then
    Some (XYZPointReader file (format this) (colorRange this) (intensityRange this))
  else if iEndsWith name ".pts" then
    (* the local [intensityRange] hides the member of the same name *)
    let local_intensityRange : list double := [] in
    let local_intensityRange :=
      if (List.length (intensityRange this) =? 0)%nat
      then (local_intensityRange ++ [double_of_int (-2048)]) ++ [double_of_int 2047]
      else local_intensityRange in
    Some (XYZPointReader file (format this) (colorRange this) local_intensityRange)
  else if iEndsWith name ".bin" then
    Some (BINPointReader file (aabb this) (scale this) attributes)
  else None.

(** The intensity range a reader was constructed with, for the readers
    that take one. *)
Definition reader_intensityRange (reader : PointReader) : option (list double) :=
  match reader with
  | XYZPointReader _ _ _ range => Some range
  | _ => None
  end.

(** The tests of [createPointReader] that come before the [.pts] test
    all fail, and the [.pts] test succeeds. *)
Definition dispatches_to_pts (file : path) : Prop :=
  let name := path_string file in
  iEndsWith name ".las" = false /\ iEndsWith name ".laz" = false /\
  iEndsWith name ".ptx" = false /\ iEndsWith name ".ply" = false /\
  iEndsWith name ".xyz" = false /\ iEndsWith name ".txt" = false /\
  iEndsWith name ".pts" = true.

(** *** [PotreeConverter::prepare] *)

Definition cant_open (source : path) : string :=
  "Can't open input file " ++ dquote ++ path_string source ++ dquote.

Definition recognized_in_directory (filepath : string) : bool :=
  iEndsWith filepath ".las" || iEndsWith filepath ".laz" ||
  iEndsWith filepath ".xyz" || iEndsWith filepath ".pts" ||
  iEndsWith filepath ".ptx" || iEndsWith filepath ".ply".

(** The body of the loop over [sources]: [sourceFiles] is the vector
    built so far. *)
Definition add_source (sourceFiles : list path) (source : path) : M (list path) :=
  root <- get_fs ;;
  if is_directory root source then
    entries <- fs_directory_iterator source ;;
    ret (sourceFiles ++
         filter (fun entry => is_regular_file root entry &&
                              recognized_in_directory (path_string entry))
                entries)
  else if is_regular_file root source then
    ret (sourceFiles ++ [source])
  else
    print (cant_open source) ;;; ret sourceFiles.

Fixpoint add_sources (sourceFiles : list path) (srcs : list path) : M (list path) :=
  match srcs with
  | [] => ret sourceFiles
  | source :: rest =>
      sourceFiles' <- add_source sourceFiles source ;;
      add_sources sourceFiles' rest
  end.

(** [erase(remove_if(...))]: the predicate prints for each file it drops. *)
Fixpoint remove_missing (sourceFiles : list path) : M (list path) :=
  match sourceFiles with
  | [] => ret []
  | file :: rest =>
      present <- fs_exists file ;;
      (if present then ret tt else print (cant_open file)) ;;;
      kept <- remove_missing rest ;;
      ret (if present then file :: kept else kept)
  end.

Definition add_output_attribute (attrs : list PointAttribute) (attribute : string)
  : list PointAttribute :=
  if String.eqb attribute "RGB" then attrs ++ [COLOR_PACKED]
  else if String.eqb attribute "RGB_FROM_INTENSITY" then attrs ++ [COLOR_FROM_INTENSITY]
  else if String.eqb attribute "INTENSITY" then attrs ++ [INTENSITY]
  else if String.eqb attribute "CLASSIFICATION" then attrs ++ [CLASSIFICATION]
  else if String.eqb attribute "NORMAL" then attrs ++ [NORMAL_OCT16]
  else attrs.

(** [pointAttributes.add(attributes::POSITION_CARTESIAN)] and the loop
    over [outputAttributes]. *)
Definition output_point_attributes (this : PotreeConverter) : list PointAttribute :=
  fold_left add_output_attribute (outputAttributes this)
            (pointAttributes this ++ [POSITION_CARTESIAN]).

Definition attributes_line (this : PotreeConverter) : string :=
  "Writing the following point attributes: "
    ++ PointAttributes_toString (output_point_attributes this).

Definition prepare (this : PotreeConverter) : M PotreeConverter :=
  verifyWorkDir (workDir this) (storeOption this) ;;;
  sourceFiles <- add_sources [] (sources this) ;;
  sourceFiles <- remove_missing sourceFiles ;;
  let this := set_sources this sourceFiles in
  let this := set_pointAttributes this (output_point_attributes this) in
  print ("Writing the following point attributes: "
           ++ PointAttributes_toString (pointAttributes this)) ;;;
  ret this.

(** A source for which the loop of [prepare] takes its last branch: it
    is neither a directory nor a regular file. *)
Definition unopenable (root : node) (source : path) : bool :=
  negb (is_directory root source) && negb (is_regular_file root source).

(** The two lines [get_transformation_helper] writes to [std::cerr] when
    the projection cannot be set up. *)
Definition setup_warning (what : string) : list string :=
  [ ("Error while setting up coordinate transformation:" ++ LF ++ what)%string;
    "Skipping point transformation..."%string ].

(** *** Readers and the writer *)

(** The arguments [convert] passes to the constructor of [PotreeWriter]. *)
Record PotreeWriter_arguments : Type := {
  arg_workDir : path;
  arg_aabb : AABB;
  arg_spacing : float;
  arg_maxDepth : Z;
  arg_scale : double;
  arg_outputFormat : OutputFormat;
  arg_pointAttributes : list PointAttribute;
  arg_quality : ConversionQuality;
  arg_transformation : SRSTransformHelper;
  arg_max_memory_usage_MiB : Z
}.

(** [PointReader.h], [PointBuffer.h], [PotreeWriter.h] and the page
    generator.  A reader is the sequence of batches that successive calls
    of [readPointBatch] return, followed by empty batches for ever.  The
    writer is followed through the calls made on it and the value each
    call leaves: the files it stores and the errors it may raise are not
    part of this model, and no statement about [convert] speaks of
    them. *)
Class Collaborators : Type := {
  PointBatch : Type;
  batch_empty : PointBatch -> bool;
  batch_count : PointBatch -> N;
  reader_getAABB : PointReader -> AABB;
  reader_numPoints : PointReader -> N;
  reader_batches : PointReader -> list PointBatch;
  PotreeWriter : Type;
  PotreeWriter_new : PotreeWriter_arguments -> PotreeWriter;
  writer_add : PotreeWriter -> PointBatch -> PotreeWriter;
  writer_processStore : PotreeWriter -> PotreeWriter;
  writer_waitUntilProcessed : PotreeWriter -> PotreeWriter;
  writer_needs_flush : PotreeWriter -> bool;
  writer_flush : PotreeWriter -> PotreeWriter;
  writer_close : PotreeWriter -> PotreeWriter;
  generatePage : PotreeConverter -> string -> M unit
}.

Context {C : Collaborators}.

(** *** [PotreeConverter::calculateAABB] and [get_total_points_count] *)

Fixpoint update_from_sources (this : PotreeConverter) (srcs : list path)
         (box : AABB) : option AABB :=
  match srcs with
  | [] => Some box
  | source :: rest =>
      match createPointReader this source (pointAttributes this) with
      | None => None
      | Some reader =>
          let sourceAABB := reader_getAABB reader in
          update_from_sources this rest
            (AABB_update (AABB_update box (AABB_min sourceAABB)) (AABB_max sourceAABB))
      end
  end.

Definition calculateAABB (this : PotreeConverter) : M AABB :=
  match aabbValues this with
  | [x0; y0; z0; x1; y1; z1] => ret (AABB_of_corners (x0, y0, z0) (x1, y1, z1))
  | _ =>
      match update_from_sources this (sources this) AABB_default with
      | Some box => ret box
      | None => undefined
      end
  end.

Fixpoint total_points_from (this : PotreeConverter) (srcs : list path)
         (total_count : N) : option N :=
  match srcs with
  | [] => Some total_count
  | source :: rest =>
      match createPointReader this source (pointAttributes this) with
      | None => None
      | Some reader =>
          total_points_from this rest
            (wrap_size_t (total_count + reader_numPoints reader))
      end
  end.

Definition get_total_points_count (this : PotreeConverter) : M N :=
  match total_points_from this (sources this) 0%N with
  | Some total_count => ret total_count
  | None => undefined
  end.

(** *** [PotreeConverter::convert] *)

Definition PROCESS_COUNT : N := 1000000.

Inductive writer_call : Type :=
| call_add (pointBatch : PointBatch)
| call_processStore
| call_waitUntilProcessed
| call_flush
| call_close.

(** The local variables of [convert] that the reading loop changes,
    together with the calls made on the writer so far, oldest first. *)
Record ingest_state : Type := {
  pointsProcessed : N;
  pointsSinceLastProcessing : N;
  writer : PotreeWriter;
  calls : list writer_call
}.

(** [size_t pointsProcessed = 0; size_t pointsSinceLastProcessing = 0;]
    and a freshly constructed writer. *)
Definition start (w : PotreeWriter) : ingest_state :=
  {| pointsProcessed := 0; pointsSinceLastProcessing := 0;
     writer := w; calls := [] |}.

(** The loop body up to and including [writer.add(pointBatch)]. *)
Definition count_and_add (st : ingest_state) (pointBatch : PointBatch) : ingest_state :=
  {| pointsProcessed := wrap_size_t (pointsProcessed st + batch_count pointBatch);
     pointsSinceLastProcessing :=
       wrap_size_t (pointsSinceLastProcessing st + batch_count pointBatch);
     writer := writer_add (writer st) pointBatch;
     calls := calls st ++ [call_add pointBatch] |}.

(** [if (pointsSinceLastProcessing >= PROCESS_COUNT) { ... }] *)
Definition process_if_due (st : ingest_state) : ingest_state :=
  if (PROCESS_COUNT <=? pointsSinceLastProcessing st)%N then
    {| pointsProcessed := pointsProcessed st;
       pointsSinceLastProcessing :=
         wrap_size_t (pointsSinceLastProcessing st + size_t_modulus - PROCESS_COUNT);
       writer := writer_waitUntilProcessed (writer_processStore (writer st));
       calls := calls st ++ [call_processStore; call_waitUntilProcessed] |}
  else st.

(** [if (writer.needs_flush()) { ... writer.flush(); }] *)
Definition flush_if_needed (st : ingest_state) : ingest_state :=
  if writer_needs_flush (writer st) then
    {| pointsProcessed := pointsProcessed st;
       pointsSinceLastProcessing := pointsSinceLastProcessing st;
       writer := writer_flush (writer st);
       calls := calls st ++ [call_flush] |}
  else st.

Definition ingest_batch (st : ingest_state) (pointBatch : PointBatch) : ingest_state :=
  flush_if_needed (process_if_due (count_and_add st pointBatch)).

(** [while (true) { auto pointBatch = reader->readPointBatch();
    if (pointBatch.empty()) break; ... }] *)
Fixpoint read_batches (batches : list PointBatch) (st : ingest_state) : ingest_state :=
  match batches with
  | [] => st
  | pointBatch :: rest =>
      if batch_empty pointBatch then st
      else read_batches rest (ingest_batch st pointBatch)
  end.

(** The loop over [sources]. *)
Fixpoint read_sources (this : PotreeConverter) (srcs : list path)
         (st : ingest_state) : option ingest_state :=
  match srcs with
  | [] => Some st
  | source :: rest =>
      match createPointReader this source (pointAttributes this) with
      | None => None
      | Some reader => read_sources this rest (read_batches (reader_batches reader) st)
      end
  end.

(** What a reader hands over before its first empty batch. *)
Fixpoint before_first_empty (batches : list PointBatch) : list PointBatch :=
  match batches with
  | [] => []
  | pointBatch :: rest =>
      if batch_empty pointBatch then [] else pointBatch :: before_first_empty rest
  end.

(** The batches that the loop over [sources] adds to the writer, in
    order; [None] when a source has no reader. *)
Fixpoint pushed_batches (this : PotreeConverter) (srcs : list path)
  : option (list PointBatch) :=
  match srcs with
  | [] => Some []
  | source :: rest =>
      match createPointReader this source (pointAttributes this),
            pushed_batches this rest with
      | Some reader, Some more =>
          Some (before_first_empty (reader_batches reader) ++ more)
      | _, _ => None
      end
  end.

(** The batches handed to [writer.add], read off the calls. *)
Definition added_batches (cs : list writer_call) : list PointBatch :=
  flat_map (fun c => match c with call_add b => [b] | _ => [] end) cs.

Definition finish (st : ingest_state) : ingest_state :=
  {| pointsProcessed := pointsProcessed st;
     pointsSinceLastProcessing := pointsSinceLastProcessing st;
     writer := writer_close (writer_flush (writer st));
     calls := calls st ++ [call_flush; call_close] |}.

(** [if (diagonalFraction != 0) { spacing = (float)(...); cout << ...; }] *)
Definition spacing_from_diagonal (this : PotreeConverter) (box : AABB)
  : M PotreeConverter :=
  if (diagonalFraction this =? 0)%Z then ret this
  else
    let this := set_spacing this
                  (float_of_double
                     (double_div (AABB_size_length box)
                                 (double_of_int (diagonalFraction this)))) in
    print ("spacing calculated from diagonal: " ++ show_float (spacing this)) ;;;
    ret this.

Definition page_directory (this : PotreeConverter) : M PotreeConverter :=
  if (0 <? String.length (pageName this))%nat then
    generatePage this (pageName this) ;;;
    ret (set_workDir this (workDir this ++ ["pointclouds"%string; pageName this]))
  else ret this.

Definition writer_arguments (this : PotreeConverter) (box : AABB)
           (transformation : SRSTransformHelper) : PotreeWriter_arguments :=
  {| arg_workDir := workDir this;
     arg_aabb := box;
     arg_spacing := spacing this;
     arg_maxDepth := maxDepth this;
     arg_scale := scale this;
     arg_outputFormat := outputFormat this;
     arg_pointAttributes := pointAttributes this;
     arg_quality := quality this;
     arg_transformation := transformation;
     arg_max_memory_usage_MiB := max_memory_usage_MiB this |}.

(** What a run of [convert] leaves behind, besides the world: the
    converter, the arguments the writer was constructed with, and the
    final state of the reading loop.  The progress display ([_ui_state],
    [_ui]) and the clock are left out: nothing read from them reaches the
    control flow. *)
Record conversion : Type := {
  converter : PotreeConverter;
  writer_constructed_with : PotreeWriter_arguments;
  ingest : ingest_state
}.

Definition convert (this : PotreeConverter) : M conversion :=
  this <- prepare this ;;
  _ <- get_total_points_count this ;;
  box <- calculateAABB this ;;
  print "AABB: " ;;; print (show_AABB box) ;;;
  let box := AABB_makeCubic box in
  print "cubic AABB: " ;;; print (show_AABB box) ;;;
  transformation <- get_transformation_helper (sourceProjection this) ;;
  this <- spacing_from_diagonal this box ;;
  this <- page_directory this ;;
  let arguments := writer_arguments this box transformation in
  match read_sources this (sources this) (start (PotreeWriter_new arguments)) with
  | None => undefined
  | Some st =>
      ret {| converter := this;
             writer_constructed_with := arguments;
             ingest := finish st |}
  end.

(** [PotreeConverter::cleanUp]. *)
Definition cleanUp (this : PotreeConverter) : M unit := cleanUp_in (workDir this).

(** *** Quantities read off the calls made on the writer *)

(** The points handed to [writer.add] in total. *)
Definition points_added (cs : list writer_call) : N :=
  fold_left (fun total c => match c with
                            | call_add b => total + batch_count b
                            | _ => total
                            end)%N cs 0%N.

(** How often [writer.processStore] was called. *)
Definition processings (cs : list writer_call) : N :=
  fold_left (fun k c => match c with
                        | call_processStore => k + 1
                        | _ => k
                        end)%N cs 0%N.

(** The points handed to [writer.add] since the last call of
    [writer.processStore]: what the specification calls the points
    queued since the last processing. *)
Definition queued_since_last_processing (cs : list writer_call) : N :=
  fold_left (fun queued c => match c with
                             | call_add b => queued + batch_count b
                             | call_processStore => 0
                             | _ => queued
                             end)%N cs 0%N.

Definition is_processStore (c : writer_call) : bool :=
  match c with call_processStore => true | _ => false end.

(** Whether the loop body, run on [pointBatch] in state [st], calls
    [writer.processStore]. *)
Definition emits_processing (st : ingest_state) (pointBatch : PointBatch) : bool :=
  existsb is_processStore
          (skipn (List.length (calls st)) (calls (ingest_batch st pointBatch))).

(** What the counters of the reading loop hold, in terms of the calls
    made so far: [pointsSinceLastProcessing] is the number of points added
    less [PROCESS_COUNT] for every processing, which is at least the
    number of points added since the last processing. *)
Definition counter_invariant (st : ingest_state) : Prop :=
  (pointsSinceLastProcessing st + PROCESS_COUNT * processings (calls st) =
     points_added (calls st))%N /\
  pointsProcessed st = points_added (calls st) /\
  (queued_since_last_processing (calls st) <= pointsSinceLastProcessing st)%N.

Definition total_count (batches : list PointBatch) : N :=
  fold_right (fun b total => batch_count b + total)%N 0%N batches.

End Driver.

End Potree.

(** ** A small executable instance of the collaborators

    Integers stand in for floating-point numbers, a batch is its number
    of points, and the writer state is the number of points waiting in
    its store.  The instance serves to run the driver on examples. *)

Module Reference.

Import Filesystem.
Import Potree.

Definition to_lower (c : ascii) : ascii :=
  let n := nat_of_ascii c in
  if ((65 <=? n) && (n <=? 90))%nat then ascii_of_nat (n + 32) else c.

Fixpoint lower (s : string) : string :=
  match s with
  | EmptyString => EmptyString
  | String c rest => String (to_lower c) (lower rest)
  end.

Definition ends_with_ignoring_case (s suffix : string) : bool :=
  let n := String.length s in
  let m := String.length suffix in
  ((m <=? n)%nat && String.eqb (lower (substring (n - m) m s)) (lower suffix))%bool.

Definition box : Type := (Z * Z * Z) * (Z * Z * Z).

Definition box_update (b : box) (p : Z * Z * Z) : box :=
  let '((x0, y0, z0), (x1, y1, z1)) := b in
  let '(x, y, z) := p in
  ((Z.min x0 x, Z.min y0 y, Z.min z0 z), (Z.max x1 x, Z.max y1 y, Z.max z1 z)).

Definition box_makeCubic (b : box) : box :=
  let '((x0, y0, z0), (x1, y1, z1)) := b in
  let extent := Z.max (x1 - x0) (Z.max (y1 - y0) (z1 - z0)) in
  ((x0, y0, z0), (x0 + extent, y0 + extent, z0 + extent))%Z.

Definition box_size_length (b : box) : Z :=
  let '((x0, y0, z0), (x1, y1, z1)) := b in
  Z.sqrt ((x1 - x0) ^ 2 + (y1 - y0) ^ 2 + (z1 - z0) ^ 2).

#[export] Instance platform : Platform := {|
  double := Z;
  float := Z;
  double_of_int := fun z => z;
  double_div := Z.quot;
  float_of_double := fun d => d;
  show_float := fun _ => "<float>"%string;
  iEndsWith := ends_with_ignoring_case;
  PointAttributes_toString := fun _ => "<attributes>"%string;
  AABB := box;
  AABB_default := ((0, 0, 0), (0, 0, 0))%Z;
  AABB_of_corners := fun lo hi => (lo, hi);
  AABB_min := fst;
  AABB_max := snd;
  AABB_update := box_update;
  AABB_makeCubic := box_makeCubic;
  AABB_size_length := box_size_length;
  show_AABB := fun _ => "<aabb>"%string;
  OutputFormat := unit;
  ConversionQuality := unit;
  Proj4 := string;
  Proj4Transform_new := fun projection =>
    if String.prefix "+proj=" projection then inl projection
    else inr "unknown projection"%string
|}.

#[export] Instance collaborators : Collaborators := {|
  PointBatch := N;
  batch_empty := fun b => (b =? 0)%N;
  batch_count := fun b => b;
  reader_getAABB := fun _ => ((0, 0, 0), (30, 40, 120))%Z;
  reader_numPoints := fun _ => 2000000%N;
  reader_batches := fun _ => [400000; 400000; 400000; 400000; 400000]%N;
  PotreeWriter := N;
  PotreeWriter_new := fun _ => 0%N;
  writer_add := fun w b => (w + b)%N;
  writer_processStore := fun _ => 0%N;
  writer_waitUntilProcessed := fun w => w;
  writer_needs_flush := fun w => (4000000 <? w)%N;
  writer_flush := fun _ => 0%N;
  writer_close := fun w => w;
  generatePage := fun _ _ => ret tt
|}.

(** Exact rational arithmetic in place of [float]; the conversion to
    [int] truncates towards zero and is defined when the result is a
    32-bit [int]. *)
Definition truncate (q : QArith_base.Q) : Z :=
  Z.quot (QArith_base.Qnum q) (Z.pos (QArith_base.Qden q)).

Definition to_int (q : QArith_base.Q) : option Z :=
  if ((-2147483648 <=? truncate q) && (truncate q <=? 2147483647))%Z
  then Some (truncate q)
  else None.

#[export] Instance rationals : TerminalUI.FloatArith QArith_base.Q := {|
  TerminalUI.float_lit := QArith_base.inject_Z;
  TerminalUI.fsub := QArith_base.Qminus;
  TerminalUI.fmul := QArith_base.Qmult;
  TerminalUI.float_to_int := to_int
|}.

(** The same with values that are not finite: [None] stands for an
    infinity or a NaN, which every operation hands on and which has no
    conversion to [int]. *)
Definition lift2 (f : QArith_base.Q -> QArith_base.Q -> QArith_base.Q)
           (a b : option QArith_base.Q) : option QArith_base.Q :=
  match a, b with
  | Some x, Some y => Some (f x y)
  | _, _ => None
  end.

#[export] Instance extended : TerminalUI.FloatArith (option QArith_base.Q) := {|
  TerminalUI.float_lit := fun z => Some (QArith_base.inject_Z z);
  TerminalUI.fsub := lift2 QArith_base.Qminus;
  TerminalUI.fmul := lift2 QArith_base.Qmult;
  TerminalUI.float_to_int := fun a =>
    match a with
    | Some q => to_int q
    | None => None
    end
|}.

Definition hello : TerminalUI.TerminalMultilineLabel :=
  {| TerminalUI._content := str "hello world";
     TerminalUI._color := str "[37m";
     TerminalUI._line_width := 4 |}.

Definition empty_world (root : node) : world :=
  {| fs := root; cout := []; cerr := [] |}.

(** An output directory [out] that holds an earlier conversion, next to
    an input directory [in]. *)
Definition populated : node :=
  Directory
    [ ("out"%string,
       Directory [ ("r.json"%string, RegularFile);
                   ("data"%string, Directory [ ("r.bin"%string, RegularFile) ]) ]);
      ("in"%string,
       Directory [ ("cloud.pts"%string, RegularFile);
                   ("notes.md"%string, RegularFile) ]) ].

Definition converter (option : StoreOption) (srcs : list path)
           (fraction : Z) (range : list Z) : PotreeConverter :=
  {| executablePath := "/opt/converter";
     workDir := ["out"%string];
     sources := srcs;
     storeOption := option;
     outputAttributes := ["RGB"%string; "INTENSITY"%string];
     pointAttributes := [];
     format := "xyzrgb";
     colorRange := [];
     intensityRange := range;
     aabbValues := [];
     aabb := ((0, 0, 0), (0, 0, 0))%Z;
     scale := 1%Z;
     sourceProjection := None;
     diagonalFraction := fraction;
     spacing := 7%Z;
     pageName := EmptyString;
     maxDepth := 12;
     outputFormat := tt;
     quality := tt;
     max_memory_usage_MiB := 256 |}.

Definition fresh : world := empty_world populated.

(** Four configurations of the converter. *)
Definition aborting : PotreeConverter :=
  converter ABORT_IF_EXISTS [["in"%string]] 10 [].

Definition appending : PotreeConverter :=
  converter INCREMENTAL [["in"%string; "cloud.pts"%string]; ["nope.las"%string]] 0 [].

Definition overwriting : PotreeConverter :=
  converter OVERWRITE [["in"%string]] 10 [].

Definition with_intensity_range : PotreeConverter :=
  converter OVERWRITE [] 0 [0; 255]%Z.

Definition cloud_pts : path := ["in"%string; "cloud.pts"%string].

(** Batches of 400000 points each, and the reading loop after four of
    them. *)
Definition four_batches : list N := [400000; 400000; 400000; 400000]%N.

Definition after_four_batches : ingest_state :=
  read_batches four_batches (start 0%N).

(** Batches of at most [PROCESS_COUNT] points, 2500000 in total. *)
Definition small_batches : list N := [600000; 1000000; 900000]%N.

(** Exact rational arithmetic in place of [double] for the progress
    counters.  A number is printed as its integral part in decimal,
    without a fraction and without a unit.  A counter is the pair of its
    current and its maximal progress, and the cast to [float] changes
    nothing. *)
Definition round_half_away (q : QArith_base.Q) : QArith_base.Q :=
  QArith_base.inject_Z
    (truncate (QArith_base.Qplus q
                 (if QArith_base.Qle_bool (QArith_base.inject_Z 0) q
                  then QArith_base.Qmake 1 2
                  else QArith_base.Qmake (-1) 2))).

#[export] Instance exact_numbers
  : TerminalUI.ProgressNumbers QArith_base.Q (Z * Z) := {|
  TerminalUI.counter_current := fun counter => QArith_base.inject_Z (fst counter);
  TerminalUI.counter_max := fun counter => QArith_base.inject_Z (snd counter);
  TerminalUI.d_lit := QArith_base.inject_Z;
  TerminalUI.d_lt := fun x y => negb (QArith_base.Qle_bool y x);
  TerminalUI.d_div := QArith_base.Qdiv;
  TerminalUI.d_mul := QArith_base.Qmult;
  TerminalUI.d_round := round_half_away;
  TerminalUI.d_pow := fun b e => QArith_base.Qpower b (Z.of_N e);
  TerminalUI.show_fixed := fun _ q => TerminalUI.format_i (truncate q);
  TerminalUI.format_with_metric_prefix := fun q => TerminalUI.format_i (truncate q)
|}.

Definition to_float (q : QArith_base.Q) : QArith_base.Q := q.

(** The same with values that are not finite: a quotient by zero is
    one. *)
#[export] Instance extended_numbers
  : TerminalUI.ProgressNumbers (option QArith_base.Q) (Z * Z) := {|
  TerminalUI.counter_current := fun counter => Some (QArith_base.inject_Z (fst counter));
  TerminalUI.counter_max := fun counter => Some (QArith_base.inject_Z (snd counter));
  TerminalUI.d_lit := fun z => Some (QArith_base.inject_Z z);
  TerminalUI.d_lt := fun a b =>
    match a, b with
    | Some x, Some y => negb (QArith_base.Qle_bool y x)
    | _, _ => false
    end;
  TerminalUI.d_div := fun a b =>
    match a, b with
    | Some x, Some y =>
        if QArith_base.Qeq_bool y (QArith_base.inject_Z 0) then None
        else Some (QArith_base.Qdiv x y)
    | _, _ => None
    end;
  TerminalUI.d_mul := lift2 QArith_base.Qmult;
  TerminalUI.d_round := option_map round_half_away;
  TerminalUI.d_pow := fun b e => option_map (fun x => QArith_base.Qpower x (Z.of_N e)) b;
  TerminalUI.show_fixed := fun _ a =>
    match a with
    | Some q => TerminalUI.format_i (truncate q)
    | None => str "nan"
    end;
  TerminalUI.format_with_metric_prefix := fun a =>
    match a with
    | Some q => TerminalUI.format_i (truncate q)
    | None => str "nan"
    end
|}.

Definition to_extended_float (a : option QArith_base.Q) : option QArith_base.Q := a.

(** A counter that has nothing to do: its maximal progress is 0. *)
Definition idle_counter : list (std_string * (Z * Z)) := [ (str "io", (0, 0)%Z) ].

Definition two_counters : list (std_string * (Z * Z)) :=
  [ (str "indexing", (1500, 4000)%Z); (str "io", (7, 7)%Z) ].

(** The world in which [prepare] goes on after [verifyWorkDir]. *)
Definition accepted (this : PotreeConverter) (w : world) : world :=
  snd (verifyWorkDir (workDir this) (storeOption this) w).

(** A work directory whose [temp] still holds a file. *)
Definition interrupted : world :=
  empty_world
    (Directory
       [ ("out"%string,
          Directory [ ("temp"%string, Directory [ ("chunk"%string, RegularFile) ]) ]) ]).

(** A source without a reader, and sources with readers: a directory and
    a file. *)
Definition unreadable : PotreeConverter :=
  converter OVERWRITE [["in"%string; "notes.md"%string]] 0 [].

Definition readable : PotreeConverter :=
  converter OVERWRITE [["in"%string]; ["in"%string; "cloud.pts"%string]] 0 [].

End Reference.

(* ================================================================== *)
(** * Part II: properties *)
(* ================================================================== *)

Import TerminalUI.
Import Filesystem.
Import Potree.

(** ** Terminal UI *)

Lemma array_at_in_bounds {A : Type} (a : list A) (i : Z) :
  (0 <= i < Z.of_nat (List.length a))%Z ->
  exists x, array_at a i = Some x /\ nth_error a (Z.to_nat i) = Some x.
Proof.
  intros Hi. unfold array_at.
  destruct (Z.ltb_spec i 0) as [Hneg | _]; [lia |].
  destruct (nth_error a (Z.to_nat i)) as [x |] eqn:Hnth.
  - exists x. split; reflexivity.
  - apply nth_error_None in Hnth. lia.
Qed.

(** C10 (what the code does). The glyph array has 9 elements.  For a
    progress value for which the conversion of [(1.f - progress) * 8] to
    [int] is defined, whatever [int] it yields (also for values below 0
    or above 1), the index is that [int] clamped into [0, 8] and the
    function returns the glyph stored there.  For a progress value for
    which the conversion is not defined -- the clamp comes too late for
    it -- the function has no defined result. *)
Theorem get_progress_glyph_defined_with_cast :
  forall (float : Type) (FA : FloatArith float) (progress : float),
    List.length Glyphs = 9 /\
    (forall i,
        float_to_int (fmul (fsub (float_lit 1) progress) (float_lit 8)) = Some i ->
        exists glyph,
          progress_step progress = Some (Z.max 0 (Z.min 8 i)) /\
          (0 <= Z.max 0 (Z.min 8 i) <= 8)%Z /\
          get_progress_glyph progress = Some glyph /\
          nth_error Glyphs (Z.to_nat (Z.max 0 (Z.min 8 i))) = Some glyph) /\
    (float_to_int (fmul (fsub (float_lit 1) progress) (float_lit 8)) = None ->
     get_progress_glyph progress = None).
Proof.
  intros float FA progress. split; [reflexivity |].
  unfold get_progress_glyph, progress_step. split.
  - intros i ->.
    destruct (array_at_in_bounds Glyphs (Z.max 0 (Z.min 8 i))) as (glyph & Hat & Hnth).
    + change (List.length Glyphs) with 9. lia.
    + exists glyph. split; [reflexivity |]. split; [lia |].
      split; [exact Hat | exact Hnth].
  - intros ->. reflexivity.
Qed.

Lemma wrap_size_t_small (n : N) :
  (n < size_t_modulus)%N -> wrap_size_t n = n.
Proof. intros Hn. unfold wrap_size_t. apply N.mod_small. exact Hn. Qed.

Lemma ceil_div_bounds (size w n : N) :
  ceil_div size w = Some n ->
  (0 < w /\ size <= n * w /\ n * w < size + w)%N.
Proof.
  unfold ceil_div. destruct (N.eqb_spec w 0) as [-> | Hw]; [discriminate |].
  intros Hn.
  pose proof (N.div_mod size w Hw) as Hdm.
  pose proof (N.mod_lt size w Hw) as Hlt.
  set (q := (size / w)%N) in *. set (m := (size mod w)%N) in *.
  clearbody q m.
  destruct (N.eqb_spec m 0) as [Hz | Hnz]; injection Hn as <-.
  - rewrite (N.mul_comm q w). lia.
  - rewrite N.mul_add_distr_r, N.mul_1_l, (N.mul_comm q w). lia.
Qed.

Lemma firstn_skipn_step {A : Type} (s : list A) (a b : nat) :
  firstn b (skipn a s) ++ skipn (a + b) s = skipn a s.
Proof.
  rewrite Nat.add_comm, <- skipn_skipn. apply firstn_skipn.
Qed.

Section ChunkLoop.

Variable s : std_string.
Variable w : N.
Variable n : N.

Let size := N.of_nat (List.length s).

Hypothesis w_pos : (0 < w)%N.
Hypothesis covers : (size <= n * w)%N.
Hypothesis tight : (n * w < size + w)%N.
Hypothesis no_wrap : (size + w < size_t_modulus)%N.

(** The loop invariant: started at counter [c] with [r] iterations left,
    the loop appends chunks that spell the part of [s] from offset
    [c * w] on. *)
Lemma chunk_loop_invariant (r : nat) :
  forall (c : N) (acc : list std_string),
    (c + N.of_nat r = n)%N ->
    exists pieces,
      chunk_loop s w r c acc = Some (acc ++ pieces) /\
      List.concat pieces = skipn (N.to_nat (c * w)) s /\
      Forall (fun piece => (N.of_nat (List.length piece) <= w)%N) pieces /\
      List.length pieces = r.
Proof.
  induction r as [| r IH]; intros c acc Hc.
  - exists []. cbn. rewrite app_nil_r.
    repeat split; [| constructor].
    symmetry. apply skipn_all2. subst size. nia.
  - cbn [chunk_loop].
    assert (Hstart : (c * w < size)%N) by nia.
    assert (Hnext : ((c + 1) * w <= n * w)%N) by nia.
    rewrite (wrap_size_t_small (c * w)) by lia.
    rewrite (wrap_size_t_small ((c + 1) * w)) by lia.
    fold size.
    set (stop := if (size <=? (c + 1) * w)%N then size else ((c + 1) * w)%N).
    assert (Hstop : (c * w <= stop /\ stop <= size /\ stop <= (c + 1) * w)%N).
    { subst stop. destruct (N.leb_spec size ((c + 1) * w)); nia. }
    unfold string_of_range. fold size.
    destruct (N.leb_spec (c * w) stop) as [_ | Hbad]; [| lia].
    destruct (N.leb_spec stop size) as [_ | Hbad]; [| lia].
    cbn [andb].
    set (piece := firstn (N.to_nat stop - N.to_nat (c * w))
                         (skipn (N.to_nat (c * w)) s)).
    destruct (IH (c + 1)%N (acc ++ [piece])) as (rest & Hrun & Hcat & Hlen & Hcount);
      [lia |].
    exists (piece :: rest).
    split; [rewrite <- app_assoc in Hrun; exact Hrun |].
    cbn [List.concat List.length]. repeat split.
    + rewrite Hcat. subst piece stop.
      destruct (N.leb_spec size ((c + 1) * w)) as [Hlast | Hmore].
      * rewrite (skipn_all2 (n := N.to_nat ((c + 1) * w))) by (subst size; lia).
        rewrite app_nil_r. apply firstn_all2.
        rewrite length_skipn. subst size. lia.
      * remember (N.to_nat ((c + 1) * w) - N.to_nat (c * w)) as d eqn:Hd.
        replace (N.to_nat ((c + 1) * w)) with (N.to_nat (c * w) + d) by lia.
        apply firstn_skipn_step.
    + constructor; [| exact Hlen].
      subst piece. rewrite length_firstn. lia.
    + f_equal. exact Hcount.
Qed.

End ChunkLoop.

Lemma fold_left_render_line (is_tty : bool) (color : std_string)
      (lines : list std_string) :
  forall stream,
    fold_left (render_line is_tty color) lines stream =
    stream ++
      List.concat (map (fun line => (if is_tty then color else []) ++ line ++ [newline])
                  lines).
Proof.
  induction lines as [| line lines IH]; intros stream; cbn.
  - now rewrite app_nil_r.
  - rewrite IH. unfold render_line.
    destruct is_tty; now rewrite <- !app_assoc.
Qed.

(** C9. For every content string (shorter than 2^53 bytes) and every
    positive [uint32_t] line width, [render] splits the content into
    consecutive chunks, each at most one line width long, whose
    concatenation in order is the content again; it writes each chunk on
    a line of its own. *)
Theorem render_chunks_roundtrip :
  forall (is_tty : bool) (label : TerminalMultilineLabel) (stream : std_string),
    (0 < _line_width label < 2 ^ 32)%N ->
    (N.of_nat (List.length (_content label)) < 2 ^ 53)%N ->
    exists lines,
      chunk_string (_content label) (_line_width label) = Some lines /\
      List.concat lines = _content label /\
      Forall (fun line => (N.of_nat (List.length line) <= _line_width label)%N) lines /\
      render is_tty label stream =
        Some (stream ++
              List.concat (map (fun line =>
                             (if is_tty then _color label else []) ++ line ++ [newline])
                          lines)).
Proof.
  intros is_tty [content color w] stream Hw Hsize. cbn [_content _line_width _color] in *.
  unfold render, chunk_string. cbn [_content _line_width _color].
  destruct (ceil_div (N.of_nat (List.length content)) w) as [n |] eqn:Hn.
  2:{ unfold ceil_div in Hn. destruct (N.eqb_spec w 0); [lia | discriminate]. }
  apply ceil_div_bounds in Hn. destruct Hn as (Hpos & Hcov & Htight).
  assert (Hwrap : (N.of_nat (List.length content) + w < size_t_modulus)%N).
  { unfold size_t_modulus.
    change (2 ^ 64)%N with 18446744073709551616%N.
    change (2 ^ 53)%N with 9007199254740992%N in Hsize.
    change (2 ^ 32)%N with 4294967296%N in Hw. lia. }
  destruct (chunk_loop_invariant content w n Hpos Hcov Htight Hwrap
              (N.to_nat n) 0%N []) as (lines & Hrun & Hcat & Hlen & _); [lia |].
  exists lines. rewrite Hrun. cbn [app].
  repeat split; [exact Hcat | exact Hlen |].
  now rewrite fold_left_render_line.
Qed.

(** ** The file system *)

Lemma status_app (p q : path) :
  forall root,
    status root (p ++ q) =
    match status root p with
    | Some n => status n q
    | None => None
    end.
Proof.
  induction p as [| name p IH]; intros root; cbn; [reflexivity |].
  destruct root as [| | entries]; try reflexivity.
  destruct (find_entry name entries); [apply IH | reflexivity].
Qed.

Lemma exists_parent (root : node) (p q : path) :
  exists_ root (p ++ q) = true -> exists_ root p = true.
Proof.
  unfold exists_. rewrite status_app.
  destruct (status root p); [reflexivity | discriminate].
Qed.

Lemma find_entry_map_named (name : string) (g : node -> node)
      (entries : list (string * node)) :
  find_entry name
    (map (fun e => if named name e then (fst e, g (snd e)) else e) entries) =
  option_map g (find_entry name entries).
Proof.
  unfold find_entry.
  induction entries as [| e entries IH]; cbn; [reflexivity |].
  destruct (named name e) eqn:He; cbn.
  - unfold named in *. cbn. rewrite He. reflexivity.
  - rewrite He. exact IH.
Qed.

(** Removing the entry [name] of directory [dir] leaves [dir] in place
    with its other entries. *)
Lemma status_remove_entry (dir : path) (name : string) :
  forall root entries,
    status root dir = Some (Directory entries) ->
    status (remove_all (dir ++ [name]) root) dir =
    Some (Directory (filter (fun e => negb (named name e)) entries)).
Proof.
  induction dir as [| a dir IH]; intros root entries Hdir.
  - cbn in Hdir. injection Hdir as ->. reflexivity.
  - cbn in Hdir. destruct root as [| | es]; try discriminate.
    destruct (find_entry a es) as [child |] eqn:Hchild; [| discriminate].
    change ((a :: dir) ++ [name]) with (a :: (dir ++ [name])).
    assert (Hstep :
              remove_all (a :: (dir ++ [name])) (Directory es) =
              Directory (map (fun e => if named a e
                                       then (fst e, remove_all (dir ++ [name]) (snd e))
                                       else e) es))
      by (destruct dir; reflexivity).
    rewrite Hstep. cbn [status].
    rewrite find_entry_map_named, Hchild. cbn [option_map].
    apply IH. exact Hdir.
Qed.

Lemma filter_filter_negb_named (name : string) (names : list string)
      (entries : list (string * node)) :
  filter (fun e => negb (existsb (fun nm => named nm e) names))
         (filter (fun e => negb (named name e)) entries) =
  filter (fun e => negb (existsb (fun nm => named nm e) (name :: names))) entries.
Proof.
  induction entries as [| e entries IH]; [reflexivity |].
  cbn [filter existsb] in *.
  destruct (named name e); cbn [negb orb filter]; rewrite <- IH; reflexivity.
Qed.

(** The loop [for (auto &entry : ...) fs::remove_all(entry)] over the
    entries called [names]. *)
Lemma status_remove_entries (dir : path) (names : list string) :
  forall root entries,
    status root dir = Some (Directory entries) ->
    status (fold_left (fun r name => remove_all (dir ++ [name]) r) names root) dir =
    Some (Directory
            (filter (fun e => negb (existsb (fun nm => named nm e) names)) entries)).
Proof.
  induction names as [| name names IH]; intros root entries Hdir; cbn [fold_left].
  - rewrite Hdir. f_equal. f_equal. symmetry. clear Hdir.
    induction entries as [| e entries IHe]; [reflexivity |].
    cbn [filter existsb negb] in *. now f_equal.
  - rewrite (IH _ _ (status_remove_entry dir name root entries Hdir)).
    now rewrite filter_filter_negb_named.
Qed.

Lemma filter_own_names (entries : list (string * node)) :
  forall names,
    incl (map fst entries) names ->
    filter (fun e => negb (existsb (fun nm => named nm e) names)) entries = [].
Proof.
  induction entries as [| e entries IH]; intros names Hincl; cbn; [reflexivity |].
  assert (Hin : In (fst e) names) by (apply Hincl; left; reflexivity).
  assert (Hex : existsb (fun nm => named nm e) names = true).
  { apply existsb_exists. exists (fst e). split; [exact Hin |].
    unfold named. apply String.eqb_refl. }
  rewrite Hex. cbn. apply IH.
  intros x Hx. apply Hincl. right. exact Hx.
Qed.

Lemma for_each_remove_all (dir : path) (names : list string) :
  forall w,
    for_each (map (fun name => dir ++ [name]) names) fs_remove_all w =
    (Returned tt,
     {| fs := fold_left (fun r name => remove_all (dir ++ [name]) r) names (fs w);
        cout := cout w; cerr := cerr w |}).
Proof.
  induction names as [| name names IH]; intros w; cbn [map for_each fold_left].
  - destruct w; reflexivity.
  - unfold bind at 1.
    change (fs_remove_all (dir ++ [name]) w)
      with (Returned tt, {| fs := remove_all (dir ++ [name]) (fs w);
                            cout := cout w; cerr := cerr w |}).
    cbv beta iota. rewrite IH. reflexivity.
Qed.

(** ** [verifyWorkDir] *)

(** C5. When the output directory exists, [verifyWorkDir] with
    [OVERWRITE] returns normally and has removed every entry of the
    directory: the directory is still there and is empty, so neither the
    old [r.json] nor any old node file is left below it. *)
Theorem overwrite_removes_existing_entries :
  forall (dir : path) (w : world) (entries : list (string * node)),
    status (fs w) dir = Some (Directory entries) ->
    exists w',
      verifyWorkDir dir OVERWRITE w = (Returned tt, w') /\
      status (fs w') dir = Some (Directory []) /\
      (forall name rest, exists_ (fs w') (dir ++ name :: rest) = false) /\
      cout w' = cout w ++ ["Output directory not empty, removing existing files..."%string] /\
      cerr w' = cerr w.
Proof.
  intros dir w entries Hdir.
  pose (root' := fold_left (fun r name => remove_all (dir ++ [name]) r)
                           (map fst entries) (fs w)).
  assert (Hempty : status root' dir = Some (Directory [])).
  { subst root'. rewrite (status_remove_entries dir _ _ _ Hdir).
    rewrite filter_own_names; [reflexivity | apply incl_refl]. }
  exists {| fs := root';
            cout := cout w ++ ["Output directory not empty, removing existing files..."%string];
            cerr := cerr w |}.
  cbn [fs cout cerr]. repeat split; try assumption.
  - unfold verifyWorkDir, fs_exists, fs_directory_iterator, get_fs, print, ret, bind.
    cbn [fs cout cerr].
    unfold exists_, directory_iterator. rewrite Hdir.
    rewrite andb_false_r. cbn [StoreOption_eqb].
    cbn [fs cout cerr]. rewrite Hdir. cbv beta iota.
    rewrite <- (map_map fst (fun name => dir ++ [name]) entries).
    rewrite for_each_remove_all. reflexivity.
  - intros name rest. unfold exists_. rewrite status_app, Hempty. reflexivity.
Qed.

Lemma verifyWorkDir_abort (dir : path) (w : world) :
  exists_ (fs w) (dir ++ ["r.json"%string]) = true ->
  verifyWorkDir dir ABORT_IF_EXISTS w = (Thrown (runtime_error output_not_empty), w).
Proof.
  intros Hroot. pose proof (exists_parent _ _ _ Hroot) as Hdir.
  unfold verifyWorkDir, fs_exists, get_fs, ret, bind, throw.
  rewrite Hdir, Hroot. reflexivity.
Qed.

Section Run.

Context {P : Platform} {C : Collaborators}.

(** C3. When [store_option] is [ABORT_IF_EXISTS] and [r.json] exists in
    the output directory, [verifyWorkDir], hence [prepare], hence
    [convert] throws the runtime error, and the world it leaves is the
    world it found: no file was touched, nothing was printed, and none of
    the later steps of [convert] ran. *)
Theorem abort_if_exists_fails_before_any_work :
  forall (this : PotreeConverter) (w : world),
    storeOption this = ABORT_IF_EXISTS ->
    exists_ (fs w) (workDir this ++ ["r.json"%string]) = true ->
    verifyWorkDir (workDir this) (storeOption this) w =
      (Thrown (runtime_error output_not_empty), w) /\
    prepare this w = (Thrown (runtime_error output_not_empty), w) /\
    convert this w = (Thrown (runtime_error output_not_empty), w).
Proof.
  intros this w Hopt Hroot.
  assert (Hverify : verifyWorkDir (workDir this) (storeOption this) w =
                    (Thrown (runtime_error output_not_empty), w))
    by (rewrite Hopt; apply verifyWorkDir_abort; exact Hroot).
  assert (Hprepare : prepare this w = (Thrown (runtime_error output_not_empty), w))
    by (unfold prepare; unfold bind at 1; rewrite Hverify; reflexivity).
  repeat split; try assumption.
  unfold convert. unfold bind at 1. rewrite Hprepare. reflexivity.
Qed.

End Run.

(** ** [get_transformation_helper] *)

Lemma String_compare_refl (s : string) : String.compare s s = Eq.
Proof.
  pose proof (String.compare_antisym s s) as H.
  destruct (String.compare s s); [reflexivity | discriminate | discriminate].
Qed.

Section Transformation.

Context {P : Platform}.

(** [strcmp] answers 0 exactly on equal C strings. *)
Lemma strcmp_Eq (a b : string) : strcmp a b = Eq <-> c_str a = c_str b.
Proof.
  unfold strcmp. split.
  - apply String.compare_eq_iff.
  - intros ->. apply String_compare_refl.
Qed.

(** A string without a NUL character is its own C string, so for such
    strings [strcmp] decides plain equality. *)
Lemma c_str_without_NUL (s : string) :
  (forall c, In c (list_ascii_of_string s) -> c <> NUL) -> c_str s = s.
Proof.
  induction s as [| c s IH]; intros Hs; cbn [c_str]; [reflexivity |].
  destruct (Ascii.eqb_spec c NUL) as [-> | _].
  - exfalso. apply (Hs NUL); [left |]; reflexivity.
  - f_equal. apply IH. intros c' Hc'. apply Hs. right. exact Hc'.
Qed.

(** C4. [get_transformation_helper] always returns, leaving the files
    alone.  The transform it returns is the identity in exactly three
    cases: no source projection is given; the source projection, compared
    as [strcmp] compares it, equals the WGS84 description; or the
    constructor of the projection-based transform throws, in which case
    the two warning lines go to [std::cerr].  In the remaining case it is
    the projection-based transform the constructor built.  For a
    projection without NUL characters the comparison of [strcmp] is plain
    equality of strings. *)
Theorem identity_transform_exactly_when :
  forall (projection : option string) (w : world),
    exists transformation w',
      get_transformation_helper projection w = (Returned transformation, w') /\
      fs w' = fs w /\
      (transformation = IdentityTransform <->
         projection = None \/
         (exists s, projection = Some s /\ c_str s = WGS84) \/
         (exists s what, projection = Some s /\ Proj4Transform_new s = inr what)) /\
      (forall s what,
          projection = Some s -> c_str s <> WGS84 ->
          Proj4Transform_new s = inr what ->
          cerr w' = cerr w ++ setup_warning what) /\
      (forall s transform,
          projection = Some s -> c_str s <> WGS84 ->
          Proj4Transform_new s = inl transform ->
          transformation = Proj4Transform transform /\ cerr w' = cerr w) /\
      (forall s,
          projection = Some s ->
          (forall c, In c (list_ascii_of_string s) -> c <> NUL) ->
          (c_str s = WGS84 <-> s = WGS84)).
Proof.
  intros projection w.
  cut (exists transformation w',
      get_transformation_helper projection w = (Returned transformation, w') /\
      fs w' = fs w /\
      (transformation = IdentityTransform <->
         projection = None \/
         (exists s, projection = Some s /\ c_str s = WGS84) \/
         (exists s what, projection = Some s /\ Proj4Transform_new s = inr what)) /\
      (forall s what,
          projection = Some s -> c_str s <> WGS84 ->
          Proj4Transform_new s = inr what ->
          cerr w' = cerr w ++ setup_warning what) /\
      (forall s transform,
          projection = Some s -> c_str s <> WGS84 ->
          Proj4Transform_new s = inl transform ->
          transformation = Proj4Transform transform /\ cerr w' = cerr w)).
  { intros (t & w' & H1 & H2 & H3 & H4 & H5). exists t, w'.
    repeat (split; [assumption |]).
    intros s _ Hs. now rewrite (c_str_without_NUL s Hs). }
  revert projection w.
  intros [s |] w; unfold get_transformation_helper.
  2:{ eexists _, _. split; [reflexivity |]. cbn [fs cerr].
      split; [reflexivity |]. split; [| split].
      - split; [intros _; left; reflexivity | reflexivity].
      - intros s what Hs. discriminate Hs.
      - intros s t Hs. discriminate Hs. }
  destruct (strcmp s WGS84) eqn:Hcmp.
  { apply strcmp_Eq in Hcmp. change (c_str WGS84) with WGS84 in Hcmp.
    eexists _, _. split; [reflexivity |]. cbn [fs cerr].
    split; [reflexivity |]. split; [| split].
    - split; [intros _; right; left; exists s; auto | reflexivity].
    - intros s' what [= <-] Hne. contradiction.
    - intros s' t [= <-] Hne. contradiction. }
  all: assert (Hne : c_str s <> WGS84)
    by (intros Heq; change WGS84 with (c_str WGS84) in Heq;
        apply strcmp_Eq in Heq; congruence).
  all: destruct (Proj4Transform_new s) as [transform | what] eqn:Hnew;
    (eexists _, _; split; [reflexivity |]); cbn [fs cerr];
    (split; [reflexivity |]); (split; [| split]).
  all: try (intros s' x [= <-] _ Hx; rewrite Hnew in Hx; try discriminate Hx;
            injection Hx as <-; try split; try reflexivity;
            rewrite <- app_assoc; reflexivity).
  all: split; try discriminate; try reflexivity.
  all: try (intros _; right; right; exists s, what; auto).
  all: intros [Habs | [(s' & [= <-] & Heq) | (s' & what & [= <-] & Hthrow)]];
    congruence.
Qed.

End Transformation.

(** ** [PotreeConverter::prepare] *)

Lemma regular_file_exists (root : node) (p : path) :
  is_regular_file root p = true -> exists_ root p = true.
Proof.
  unfold is_regular_file, exists_.
  destruct (status root p); [reflexivity | discriminate].
Qed.

Lemma missing_is_unopenable (root : node) (p : path) :
  exists_ root p = false -> unopenable root p = true.
Proof.
  unfold exists_, unopenable, is_directory, is_regular_file.
  destruct (status root p); [discriminate | reflexivity].
Qed.

Lemma world_eta (w : world) :
  {| fs := fs w; cout := cout w ++ []; cerr := cerr w |} = w.
Proof. destruct w; cbn. now rewrite app_nil_r. Qed.

Section Prepare.

Context {P : Platform}.

(** One round of the loop over [sources]. *)
Lemma add_source_spec (sourceFiles : list path) (source : path) (w : world) :
  exists files,
    add_source sourceFiles source w =
      (Returned (sourceFiles ++ files),
       printed w (if unopenable (fs w) source then [cant_open source] else [])) /\
    Forall (fun f => is_regular_file (fs w) f = true) files /\
    (is_regular_file (fs w) source = true -> files = [source]).
Proof.
  unfold add_source, fs_directory_iterator, get_fs, bind, ret, print, printed,
    unopenable, directory_iterator, is_directory, is_regular_file.
  destruct (status (fs w) source) as [[| | entries] |] eqn:Hst; cbn [negb andb fs cout cerr].
  - exists [source]. rewrite world_eta. repeat split.
    constructor; [| constructor]. unfold is_regular_file. now rewrite Hst.
  - exists []. rewrite app_nil_r. repeat split; [constructor | discriminate].
  - rewrite Hst. eexists. rewrite world_eta. split; [reflexivity |].
    split; [| discriminate].
    apply Forall_forall. intros f Hf. apply filter_In in Hf.
    destruct Hf as [_ Hf]. apply andb_prop in Hf. apply Hf.
  - exists []. rewrite app_nil_r. repeat split; [constructor | discriminate].
Qed.

Lemma add_sources_spec (srcs : list path) :
  forall (sourceFiles : list path) (w : world),
    exists files,
      add_sources sourceFiles srcs w =
        (Returned (sourceFiles ++ files),
         printed w (map cant_open (filter (unopenable (fs w)) srcs))) /\
      Forall (fun f => is_regular_file (fs w) f = true) files /\
      (forall s, In s srcs -> is_regular_file (fs w) s = true -> In s files).
Proof.
  induction srcs as [| source srcs IH]; intros sourceFiles w.
  - exists []. cbn. unfold ret, printed. rewrite app_nil_r, world_eta.
    repeat split; [constructor | contradiction].
  - destruct (add_source_spec sourceFiles source w) as (first & Hfirst & Hreg & Hself).
    set (w1 := printed w (if unopenable (fs w) source then [cant_open source] else [])) in *.
    destruct (IH (sourceFiles ++ first) w1) as (more & Hmore & Hreg' & Hkept).
    exists (first ++ more). cbn [add_sources]. unfold bind at 1.
    rewrite Hfirst, Hmore. split; [| split].
    + rewrite <- app_assoc. f_equal. subst w1. unfold printed. cbn [fs cout cerr filter].
      destruct (unopenable (fs w) source); cbn [map app];
        now rewrite <- app_assoc.
    + apply Forall_app. split; assumption.
    + intros s [<- | Hs] Hfile; apply in_or_app.
      * left. rewrite (Hself Hfile). left. reflexivity.
      * right. apply Hkept; assumption.
Qed.

(** Every file the loop collected exists, so the [remove_if] pass that
    follows drops nothing and prints nothing. *)
Lemma remove_missing_present (files : list path) :
  forall w,
    Forall (fun f => exists_ (fs w) f = true) files ->
    remove_missing files w = (Returned files, w).
Proof.
  induction files as [| f files IH]; intros w Hall; [reflexivity |].
  inversion Hall as [| ? ? Hf Hrest]; subst.
  cbn [remove_missing]. unfold fs_exists, get_fs, bind, ret. rewrite Hf.
  fold (@bind). rewrite (IH w Hrest). reflexivity.
Qed.

(** C6. Once the output directory is accepted, [prepare] returns.  In
    between it prints one line per source that is neither a directory nor
    a regular file, in the order of the sources, and nothing else before
    the attribute line; every source that does not exist is among those
    reported and is absent from the resulting source list; every source
    that is a regular file stays in the list. *)
Theorem missing_sources_reported_and_dropped :
  forall (this : PotreeConverter) (w w1 : world),
    verifyWorkDir (workDir this) (storeOption this) w = (Returned tt, w1) ->
    let reported := filter (unopenable (fs w1)) (sources this) in
    exists this',
      prepare this w =
        (Returned this',
         printed w1 (map cant_open reported ++ [attributes_line this])) /\
      (forall s, In s (sources this) -> exists_ (fs w1) s = false ->
                 In s reported /\ ~ In s (sources this')) /\
      (forall s, In s (sources this) -> is_regular_file (fs w1) s = true ->
                 In s (sources this')) /\
      Forall (fun f => is_regular_file (fs w1) f = true) (sources this').
Proof.
  intros this w w1 Hverify reported.
  destruct (add_sources_spec (sources this) [] w1) as (files & Hadd & Hreg & Hkept).
  cbn [app] in Hadd. fold reported in Hadd.
  assert (Hpresent : Forall (fun f => exists_ (fs (printed w1 (map cant_open reported))) f = true)
                            files).
  { cbn [printed fs]. eapply Forall_impl; [| exact Hreg].
    intros f Hf. apply regular_file_exists. exact Hf. }
  eexists. split; [| split; [| split]].
  - unfold prepare. unfold bind at 1. rewrite Hverify.
    unfold bind at 1. rewrite Hadd.
    unfold bind at 1. rewrite (remove_missing_present _ _ Hpresent).
    unfold bind, print, ret, printed. cbn [fs cout cerr].
    rewrite <- app_assoc. reflexivity.
  - intros s Hs Hmissing. split.
    + apply filter_In. split; [exact Hs | now apply missing_is_unopenable].
    + cbn [set_pointAttributes set_sources sources]. intros Hin.
      rewrite Forall_forall in Hreg. apply Hreg, regular_file_exists in Hin.
      congruence.
  - intros s Hs Hfile. cbn [set_pointAttributes set_sources sources].
    apply Hkept; assumption.
  - exact Hreg.
Qed.

End Prepare.

(** ** [PotreeConverter::createPointReader] *)

Section Readers.

Context {P : Platform}.

(** C7 (what the code does). For a [.pts] file the reader is an
    [XYZPointReader] constructed with the local vector [intensityRange],
    not with the member: it receives the default range -2048..2047 when
    the converter has no intensity range, and the empty range when the
    converter has one, so a configured intensity range never reaches the
    reader. *)
Theorem pts_reader_gets_local_intensity_range :
  forall (this : PotreeConverter) (file : path) (attributes : list PointAttribute),
    dispatches_to_pts file ->
    exists reader,
      createPointReader this file attributes = Some reader /\
      reader = XYZPointReader file (format this) (colorRange this)
                 (if (List.length (intensityRange this) =? 0)%nat
                  then [double_of_int (-2048); double_of_int 2047]
                  else []) /\
      (intensityRange this <> [] ->
       reader_intensityRange reader = Some [] /\
       reader_intensityRange reader <> Some (intensityRange this)).
Proof.
  intros this file attributes (Hlas & Hlaz & Hptx & Hply & Hxyz & Htxt & Hpts).
  cbv zeta in *. eexists. split; [| split].
  - unfold createPointReader. cbv zeta.
    rewrite Hlas, Hlaz, Hptx, Hply, Hxyz, Htxt, Hpts. cbn [orb]. reflexivity.
  - destruct (intensityRange this); reflexivity.
  - intros Hconfigured. destruct (intensityRange this) as [| lo range];
      [contradiction |].
    cbn. split; [reflexivity | discriminate].
Qed.

End Readers.

(** ** [PotreeConverter::convert]: the root spacing *)

Lemma bind_returned {A B : Type} (m : M A) (k : A -> M B) (w w' : world) (b : B) :
  bind m k w = (Returned b, w') ->
  exists a w1, m w = (Returned a, w1) /\ k a w1 = (Returned b, w').
Proof.
  unfold bind. destruct (m w) as [[a | e |] w1]; intros H; try discriminate.
  exists a, w1. split; [reflexivity | exact H].
Qed.

(** If a sequence returned, so did its first action. *)
Tactic Notation "bind_inversion" hyp(H) "as" ident(a) ident(w) ident(H1) :=
  apply bind_returned in H; destruct H as (a & w & H1 & H).

Ltac skip_step H :=
  let a := fresh "a" in
  let w := fresh "w" in
  let H1 := fresh "Hstep" in
  bind_inversion H as a w H1.

Section Spacing.

Context {P : Platform} {C : Collaborators}.

Lemma prepare_keeps_spacing (this this' : PotreeConverter) (w w' : world) :
  prepare this w = (Returned this', w') ->
  spacing this' = spacing this /\ diagonalFraction this' = diagonalFraction this.
Proof.
  unfold prepare. intros H.
  do 4 skip_step H. injection H as <- _. split; reflexivity.
Qed.

Lemma spacing_from_diagonal_returns (this : PotreeConverter) (bounds : AABB) (w : world) :
  exists this' w',
    spacing_from_diagonal this bounds w = (Returned this', w') /\
    diagonalFraction this' = diagonalFraction this /\
    spacing this' =
      if (diagonalFraction this =? 0)%Z then spacing this
      else float_of_double
             (double_div (AABB_size_length bounds)
                         (double_of_int (diagonalFraction this))).
Proof.
  unfold spacing_from_diagonal.
  destruct (diagonalFraction this =? 0)%Z eqn:Hzero.
  - exists this, w. repeat split.
  - eexists _, _. split; [reflexivity |]. split; reflexivity.
Qed.

Lemma page_directory_keeps_spacing (this this' : PotreeConverter) (w w' : world) :
  page_directory this w = (Returned this', w') -> spacing this' = spacing this.
Proof.
  unfold page_directory. destruct (0 <? String.length (pageName this))%nat.
  - intros H. skip_step H. injection H as <- _. reflexivity.
  - intros H. injection H as <- _. reflexivity.
Qed.

(** C8. In every run of [convert] that gets as far as constructing the
    writer, the root bounding box handed to the writer is a box made
    cubic, and the spacing handed to it is: the configured spacing when
    [diagonalFraction] is zero, and otherwise the length of the diagonal
    of that cubic box divided by [diagonalFraction], narrowed to
    [float]. *)
Theorem root_spacing_from_diagonal_fraction :
  forall (this : PotreeConverter) (w w' : world) (result : conversion),
    convert this w = (Returned result, w') ->
    let arguments := writer_constructed_with result in
    (exists bounds, arg_aabb arguments = AABB_makeCubic bounds) /\
    arg_spacing arguments =
      if (diagonalFraction this =? 0)%Z then spacing this
      else float_of_double
             (double_div (AABB_size_length (arg_aabb arguments))
                         (double_of_int (diagonalFraction this))).
Proof.
  intros this w w' result H. unfold convert in H.
  bind_inversion H as this1 u1 Hprepare.
  apply prepare_keeps_spacing in Hprepare. destruct Hprepare as [Hs1 Hd1].
  skip_step H.
  bind_inversion H as bounds u2 Hbounds.
  do 4 skip_step H.
  bind_inversion H as transformation u3 Htransformation.
  bind_inversion H as this2 u4 Hspacing.
  bind_inversion H as this3 u5 Hpage.
  apply page_directory_keeps_spacing in Hpage.
  destruct (spacing_from_diagonal_returns this1 (AABB_makeCubic bounds) u3)
    as (this2' & u4' & Hrun & _ & Hvalue).
  rewrite Hrun in Hspacing. injection Hspacing as -> ->.
  destruct (read_sources this3 (sources this3) _) as [st |]; [| discriminate].
  injection H as <- _.
  cbn [writer_constructed_with writer_arguments arg_aabb arg_spacing].
  split; [exists bounds; reflexivity |].
  rewrite Hpage, Hvalue, Hs1, Hd1. reflexivity.
Qed.

End Spacing.

(** ** [PotreeConverter::convert]: the reading loop *)

Lemma wrap_size_t_borrow (x c : N) :
  (c <= x)%N -> (x < size_t_modulus)%N ->
  wrap_size_t (x + size_t_modulus - c) = (x - c)%N.
Proof.
  intros Hc Hx. unfold wrap_size_t.
  replace (x + size_t_modulus - c)%N with ((x - c) + 1 * size_t_modulus)%N by lia.
  rewrite N.Div0.mod_add. apply N.mod_small. lia.
Qed.

Section Ingest.

Context {P : Platform} {C : Collaborators}.

Lemma points_added_snoc (cs : list writer_call) (c : writer_call) :
  points_added (cs ++ [c]) =
  match c with
  | call_add b => (points_added cs + batch_count b)%N
  | _ => points_added cs
  end.
Proof. unfold points_added. rewrite fold_left_app. destruct c; reflexivity. Qed.

Lemma processings_snoc (cs : list writer_call) (c : writer_call) :
  processings (cs ++ [c]) =
  match c with
  | call_processStore => (processings cs + 1)%N
  | _ => processings cs
  end.
Proof. unfold processings. rewrite fold_left_app. destruct c; reflexivity. Qed.

Lemma queued_snoc (cs : list writer_call) (c : writer_call) :
  queued_since_last_processing (cs ++ [c]) =
  match c with
  | call_add b => (queued_since_last_processing cs + batch_count b)%N
  | call_processStore => 0%N
  | _ => queued_since_last_processing cs
  end.
Proof.
  unfold queued_since_last_processing. rewrite fold_left_app. destruct c; reflexivity.
Qed.

Lemma counter_invariant_start (w0 : PotreeWriter) : counter_invariant (start w0).
Proof. unfold counter_invariant. cbn. repeat split; lia. Qed.

Lemma count_and_add_invariant (st : ingest_state) (b : PointBatch) :
  counter_invariant st ->
  (points_added (calls st) + batch_count b < size_t_modulus)%N ->
  counter_invariant (count_and_add st b) /\
  pointsSinceLastProcessing (count_and_add st b) =
    (pointsSinceLastProcessing st + batch_count b)%N.
Proof.
  intros (Hpsl & Hpp & Hq) Hroom.
  unfold counter_invariant, count_and_add.
  cbn [pointsSinceLastProcessing pointsProcessed calls].
  rewrite points_added_snoc, processings_snoc, queued_snoc.
  rewrite !wrap_size_t_small by lia.
  repeat split; lia.
Qed.

Lemma process_if_due_invariant (st : ingest_state) :
  counter_invariant st ->
  (points_added (calls st) < size_t_modulus)%N ->
  counter_invariant (process_if_due st).
Proof.
  intros (Hpsl & Hpp & Hq) Hroom. unfold process_if_due.
  destruct (N.leb_spec PROCESS_COUNT (pointsSinceLastProcessing st)) as [Hdue | Hnot];
    [| repeat split; assumption].
  unfold counter_invariant.
  cbn [pointsSinceLastProcessing pointsProcessed calls].
  change [call_processStore; call_waitUntilProcessed]
    with ([call_processStore] ++ [call_waitUntilProcessed]).
  rewrite app_assoc.
  rewrite !points_added_snoc, !processings_snoc, !queued_snoc.
  rewrite wrap_size_t_borrow by lia.
  repeat split; lia.
Qed.

Lemma flush_if_needed_invariant (st : ingest_state) :
  counter_invariant st -> counter_invariant (flush_if_needed st).
Proof.
  intros (Hpsl & Hpp & Hq). unfold flush_if_needed.
  destruct (writer_needs_flush (writer st)); [| repeat split; assumption].
  unfold counter_invariant.
  cbn [pointsSinceLastProcessing pointsProcessed calls].
  rewrite points_added_snoc, processings_snoc, queued_snoc.
  repeat split; assumption.
Qed.

Lemma points_added_process_if_due (st : ingest_state) :
  points_added (calls (process_if_due st)) = points_added (calls st).
Proof.
  unfold process_if_due.
  destruct (PROCESS_COUNT <=? pointsSinceLastProcessing st)%N; [| reflexivity].
  cbn [calls].
  change [call_processStore; call_waitUntilProcessed]
    with ([call_processStore] ++ [call_waitUntilProcessed]).
  now rewrite app_assoc, !points_added_snoc.
Qed.

Lemma points_added_flush_if_needed (st : ingest_state) :
  points_added (calls (flush_if_needed st)) = points_added (calls st).
Proof.
  unfold flush_if_needed. destruct (writer_needs_flush (writer st)); [| reflexivity].
  cbn [calls]. now rewrite points_added_snoc.
Qed.

Lemma ingest_batch_invariant (st : ingest_state) (b : PointBatch) :
  counter_invariant st ->
  (points_added (calls st) + batch_count b < size_t_modulus)%N ->
  counter_invariant (ingest_batch st b) /\
  points_added (calls (ingest_batch st b)) =
    (points_added (calls st) + batch_count b)%N.
Proof.
  intros Hinv Hroom. unfold ingest_batch.
  destruct (count_and_add_invariant st b Hinv Hroom) as [Hadd _].
  assert (Hsum : points_added (calls (count_and_add st b)) =
                 (points_added (calls st) + batch_count b)%N)
    by (unfold count_and_add; cbn [calls]; apply points_added_snoc).
  split.
  - apply flush_if_needed_invariant, process_if_due_invariant; [exact Hadd | lia].
  - now rewrite points_added_flush_if_needed, points_added_process_if_due.
Qed.

Lemma read_batches_invariant (batches : list PointBatch) :
  forall st,
    Forall (fun x => batch_empty x = false) batches ->
    counter_invariant st ->
    (points_added (calls st) + total_count batches < size_t_modulus)%N ->
    counter_invariant (read_batches batches st) /\
    points_added (calls (read_batches batches st)) =
      (points_added (calls st) + total_count batches)%N.
Proof.
  induction batches as [| b batches IH]; intros st Hne Hinv Hroom.
  - change (total_count []) with 0%N. cbn [read_batches].
    split; [exact Hinv | lia].
  - change (total_count (b :: batches))
      with (batch_count b + total_count batches)%N in *.
    inversion Hne as [| ? ? Hb Hrest]; subst. cbn [read_batches]. rewrite Hb.
    destruct (ingest_batch_invariant st b Hinv) as [Hinv' Hsum]; [lia |].
    destruct (IH (ingest_batch st b) Hrest Hinv') as [Hfinal Htotal]; [lia |].
    split; [exact Hfinal | lia].
Qed.

Lemma read_batches_snoc (batches : list PointBatch) (b : PointBatch) :
  forall st,
    Forall (fun x => batch_empty x = false) (batches ++ [b]) ->
    read_batches (batches ++ [b]) st = ingest_batch (read_batches batches st) b.
Proof.
  induction batches as [| a batches IH]; intros st Hne;
    cbn [app read_batches] in *;
    inversion Hne as [| ? ? Ha Hrest]; subst; rewrite Ha; [reflexivity |].
  apply IH. exact Hrest.
Qed.

Lemma total_count_snoc (batches : list PointBatch) (b : PointBatch) :
  total_count (batches ++ [b]) = (total_count batches + batch_count b)%N.
Proof.
  induction batches as [| a batches IH].
  - cbn. lia.
  - change (total_count ((a :: batches) ++ [b]))
      with (batch_count a + total_count (batches ++ [b]))%N.
    change (total_count (a :: batches))
      with (batch_count a + total_count batches)%N.
    rewrite IH. lia.
Qed.

Lemma skipn_own_length {A : Type} (l suffix : list A) :
  skipn (List.length l) (l ++ suffix) = suffix.
Proof. induction l as [| x l IH]; [reflexivity | exact IH]. Qed.

Lemma before_first_empty_nonempty (batches : list PointBatch) :
  Forall (fun x => batch_empty x = false) (before_first_empty batches).
Proof.
  induction batches as [| b batches IH]; cbn; [constructor |].
  destruct (batch_empty b) eqn:Hb; constructor; assumption.
Qed.

Lemma read_batches_before_first_empty (batches : list PointBatch) :
  forall st, read_batches batches st = read_batches (before_first_empty batches) st.
Proof.
  induction batches as [| b batches IH]; intros st; cbn; [reflexivity |].
  destruct (batch_empty b) eqn:Hb; cbn; [reflexivity |]. rewrite Hb. apply IH.
Qed.

Lemma read_batches_app (batches more : list PointBatch) :
  forall st,
    Forall (fun x => batch_empty x = false) batches ->
    read_batches (batches ++ more) st = read_batches more (read_batches batches st).
Proof.
  induction batches as [| b batches IH]; intros st Hne; [reflexivity |].
  inversion Hne as [| ? ? Hb Hrest]; subst.
  cbn [app read_batches]. rewrite Hb. apply IH. exact Hrest.
Qed.

(** The loop over the sources is one run of the reading loop over the
    non-empty batches of all readers, one reader after the other. *)
Lemma read_sources_is_one_sequence (this : PotreeConverter) (srcs : list path) :
  forall st,
    read_sources this srcs st =
      option_map (fun batches => read_batches batches st) (pushed_batches this srcs) /\
    (forall batches, pushed_batches this srcs = Some batches ->
                     Forall (fun x => batch_empty x = false) batches).
Proof.
  induction srcs as [| source srcs IH]; intros st; cbn [read_sources pushed_batches].
  - split; [reflexivity |]. intros batches [= <-]. constructor.
  - destruct (createPointReader this source (pointAttributes this)) as [reader |].
    2:{ split; [reflexivity | discriminate]. }
    destruct (IH (read_batches (reader_batches reader) st)) as [Hrun Hne].
    rewrite Hrun.
    destruct (pushed_batches this srcs) as [more |]; cbn [option_map].
    2:{ split; [reflexivity | discriminate]. }
    split.
    + rewrite read_batches_app by apply before_first_empty_nonempty.
      now rewrite <- read_batches_before_first_empty.
    + intros batches [= <-]. apply Forall_app. split.
      * apply before_first_empty_nonempty.
      * apply Hne. reflexivity.
Qed.

(** The calls one round of the loop makes, and the counter it leaves. *)
Lemma ingest_batch_calls (st : ingest_state) (b : PointBatch) :
  counter_invariant st ->
  (points_added (calls st) + batch_count b < size_t_modulus)%N ->
  let carried := (pointsSinceLastProcessing st + batch_count b)%N in
  let due := (PROCESS_COUNT <=? carried)%N in
  let w1 := writer_add (writer st) b in
  let w2 := if due then writer_waitUntilProcessed (writer_processStore w1) else w1 in
  calls (ingest_batch st b) =
    calls st ++ [call_add b]
      ++ (if due then [call_processStore; call_waitUntilProcessed] else [])
      ++ (if writer_needs_flush w2 then [call_flush] else []) /\
  pointsSinceLastProcessing (ingest_batch st b) =
    (if due then carried - PROCESS_COUNT else carried)%N.
Proof.
  intros Hinv Hroom carried due w1 w2.
  destruct (count_and_add_invariant st b Hinv Hroom) as [(Hpsl & _ & _) Hcarried].
  fold carried in Hcarried.
  assert (Hbound : (carried < size_t_modulus)%N).
  { destruct Hinv as (Hst & _ & _). subst carried. lia. }
  unfold ingest_batch, flush_if_needed, process_if_due.
  rewrite Hcarried. fold due.
  replace (writer (count_and_add st b)) with w1 by reflexivity.
  replace (calls (count_and_add st b)) with (calls st ++ [call_add b]) by reflexivity.
  subst w2. destruct due eqn:Hdue; cbn [writer calls pointsSinceLastProcessing].
  - apply N.leb_le in Hdue.
    destruct (writer_needs_flush _);
      cbn [writer calls pointsSinceLastProcessing];
      rewrite ?wrap_size_t_borrow by assumption;
      rewrite <- ?app_assoc; split; reflexivity.
  - change (writer (count_and_add st b)) with w1.
    destruct (writer_needs_flush w1);
      cbn [writer calls pointsSinceLastProcessing];
      rewrite ?Hcarried;
      change (calls (count_and_add st b)) with (calls st ++ [call_add b]);
      rewrite <- ?app_assoc; split; reflexivity.
Qed.

(** C2 (as the code has it). Reading batch [b] after the batches [pre]:
    the loop adds [b] to the writer; it then calls [processStore] and
    [waitUntilProcessed], in this order and before anything else, exactly
    when the carried counter -- all points added so far less
    [PROCESS_COUNT] = 1000000 for each processing already done -- has
    reached [PROCESS_COUNT]; this is the case whenever [PROCESS_COUNT]
    points were added since the last processing; it then calls [flush]
    exactly when the writer answers [needs_flush].  No other call is made,
    so the next batch is added only after these calls returned. *)
Theorem processing_follows_carried_counter :
  forall (w0 : PotreeWriter) (pre : list PointBatch) (b : PointBatch),
    Forall (fun x => batch_empty x = false) (pre ++ [b]) ->
    (total_count (pre ++ [b]) < size_t_modulus)%N ->
    let st := read_batches pre (start w0) in
    let st' := read_batches (pre ++ [b]) (start w0) in
    let carried :=
      (total_count (pre ++ [b]) - PROCESS_COUNT * processings (calls st))%N in
    let due := (PROCESS_COUNT <=? carried)%N in
    let w1 := writer_add (writer st) b in
    let w2 := if due then writer_waitUntilProcessed (writer_processStore w1) else w1 in
    calls st' =
      calls st ++ [call_add b]
        ++ (if due then [call_processStore; call_waitUntilProcessed] else [])
        ++ (if writer_needs_flush w2 then [call_flush] else []) /\
    emits_processing st b = due /\
    ((PROCESS_COUNT <= queued_since_last_processing (calls st ++ [call_add b]))%N ->
     due = true) /\
    pointsSinceLastProcessing st' =
      (if due then carried - PROCESS_COUNT else carried)%N /\
    (PROCESS_COUNT * processings (calls st) <= total_count pre)%N.
Proof.
  intros w0 pre b Hne Hroom st st' carried due w1 w2.
  rewrite total_count_snoc in Hroom.
  assert (Hpre : Forall (fun x => batch_empty x = false) pre)
    by (apply Forall_app in Hne; apply Hne).
  destruct (read_batches_invariant pre (start w0) Hpre (counter_invariant_start w0))
    as [Hinv Hadded];
    [change (points_added (calls (start w0))) with 0%N; lia |].
  fold st in Hinv, Hadded. change (points_added (calls (start w0))) with 0%N in Hadded.
  assert (Hstep : st' = ingest_batch st b) by (apply read_batches_snoc; exact Hne).
  assert (Hcarried : carried = (pointsSinceLastProcessing st + batch_count b)%N).
  { subst carried. rewrite total_count_snoc. destruct Hinv as (Hpsl & _ & _). lia. }
  destruct (ingest_batch_calls st b Hinv) as [Hcalls Hcounter]; [lia |].
  cbv zeta in Hcalls, Hcounter. rewrite <- Hcarried in Hcalls, Hcounter.
  fold due in Hcalls, Hcounter. fold w1 in Hcalls. fold w2 in Hcalls.
  split; [rewrite Hstep; exact Hcalls |].
  split; [| split; [| split]].
  - unfold emits_processing. rewrite Hcalls, skipn_own_length.
    destruct due, (writer_needs_flush w2); reflexivity.
  - rewrite queued_snoc. intros Hqueued. subst due. apply N.leb_le.
    destruct Hinv as (_ & _ & Hq). lia.
  - rewrite Hstep. exact Hcounter.
  - destruct Hinv as (Hpsl & _ & _). lia.
Qed.

End Ingest.

(** ** More of the terminal UI: names, times and decimal numbers *)

Lemma wrap_size_t_difference (a b : N) :
  (b <= a)%N -> (a < size_t_modulus)%N ->
  wrap_size_t (a + size_t_modulus - b) = (a - b)%N.
Proof.
  intros Hb Ha. unfold wrap_size_t.
  replace (a + size_t_modulus - b)%N with ((a - b) + 1 * size_t_modulus)%N by lia.
  rewrite N.Div0.mod_add. apply N.mod_small. lia.
Qed.

(** The number of fill characters when the subtraction does not wrap. *)
Lemma fills_of_short_name (name : std_string) (max_name_length : N) :
  (N.of_nat (List.length name) <= max_name_length)%N ->
  (max_name_length < size_t_modulus)%N ->
  N.to_nat (wrap_size_t (max_name_length + size_t_modulus - N.of_nat (List.length name))) =
  (N.to_nat max_name_length - List.length name)%nat.
Proof.
  intros Hle Hn. rewrite wrap_size_t_difference by assumption. lia.
Qed.

(** X1. A name that is not longer than [max_name_length] is printed
    followed by as many spaces as it is shorter, and a colon: the result
    starts with the name and is [max_name_length + 1] characters long. *)
Theorem format_progress_name_pads :
  forall (name : std_string) (max_name_length : N),
    (N.of_nat (List.length name) <= max_name_length)%N ->
    (max_name_length < size_t_modulus)%N ->
    format_progress_name name max_name_length =
      name ++ repeat space (N.to_nat max_name_length - List.length name) ++ [colon] /\
    N.of_nat (List.length (format_progress_name name max_name_length)) =
      (max_name_length + 1)%N.
Proof.
  intros name n Hle Hn. unfold format_progress_name.
  rewrite (fills_of_short_name name n Hle Hn).
  split; [now rewrite <- app_assoc |].
  rewrite !length_app, repeat_length. cbn [List.length]. lia.
Qed.

Lemma digit_value_digit (d : N) :
  (d < 10)%N -> digit_value (digit d) = Some (Z.of_N d).
Proof.
  intros Hd. unfold digit_value, digit.
  rewrite N_ascii_embedding by lia.
  destruct (N.leb_spec 48 (48 + d)); [| lia].
  destruct (N.leb_spec (48 + d) 57); [| lia].
  cbn [andb]. f_equal. lia.
Qed.

Lemma size_tenth (n : N) : (10 <= n)%N -> (N.size (n / 10) < N.size n)%N.
Proof.
  intros Hn.
  assert (Hq : (0 < n / 10)%N).
  { apply N.div_str_pos. lia. }
  rewrite (N.size_log2 n) by lia. rewrite (N.size_log2 (n / 10)) by lia.
  apply -> N.succ_lt_mono.
  apply N.log2_lt_pow2; [exact Hq |].
  destruct (N.log2_spec n) as [_ Hhi]; [lia |].
  rewrite N.pow_succ_r' in Hhi.
  apply N.Div0.div_lt_upper_bound. lia.
Qed.

(** The value of a string of decimal digits. *)
Lemma decimal_digits_small (fuel : nat) (n : N) :
  (n < 10)%N -> decimal_digits (S fuel) n = [digit n].
Proof.
  intros Hn. cbn [decimal_digits].
  destruct (N.ltb_spec n 10); [reflexivity | lia].
Qed.

Lemma decimal_digits_large (fuel : nat) (n : N) :
  (10 <= n)%N ->
  decimal_digits (S fuel) n = decimal_digits fuel (n / 10) ++ [digit (n mod 10)].
Proof.
  intros Hn. cbn [decimal_digits].
  destruct (N.ltb_spec n 10); [lia | reflexivity].
Qed.

Lemma size_positive (n : N) : (1 <= n)%N -> (1 <= N.to_nat (N.size n))%nat.
Proof. intros Hn. rewrite N.size_log2 by lia. lia. Qed.

(** Numbers below 100, printed with [%02i], are their two digits. *)
Lemma format_02i_two_digits (v : Z) :
  (0 <= v < 100)%Z ->
  format_02i v = [digit (Z.to_N v / 10); digit (Z.to_N v mod 10)].
Proof.
  intros Hv. unfold format_02i, format_i.
  destruct (Z.ltb_spec v 0); [lia |].
  set (n := Z.to_N v). assert (Hn : (n < 100)%N) by lia. unfold decimal.
  destruct (N.ltb_spec n 10) as [Hsmall | Hlarge].
  - rewrite decimal_digits_small by assumption. cbn [List.length Nat.ltb Nat.leb].
    rewrite N.div_small, N.mod_small by assumption. reflexivity.
  - pose proof (size_positive n ltac:(lia)) as Hsize.
    destruct (N.to_nat (N.size n)) as [| fuel]; [lia |].
    rewrite decimal_digits_large by assumption.
    rewrite decimal_digits_small by (apply N.Div0.div_lt_upper_bound; lia).
    reflexivity.
Qed.

Lemma two_digits_format_02i (v : Z) :
  (0 <= v < 100)%Z ->
  exists a b, format_02i v = [a; b] /\ two_digits a b = Some v.
Proof.
  intros Hv. rewrite format_02i_two_digits by assumption.
  eexists _, _. split; [reflexivity |]. unfold two_digits.
  assert (Hq : (Z.to_N v / 10 < 10)%N) by (apply N.Div0.div_lt_upper_bound; lia).
  assert (Hr : (Z.to_N v mod 10 < 10)%N) by (apply N.mod_lt; lia).
  rewrite !digit_value_digit by assumption. f_equal.
  pose proof (N.div_mod (Z.to_N v) 10 ltac:(lia)). lia.
Qed.

(** The three fields of a time that is not negative. *)
Lemma time_fields (seconds : Z) :
  (0 <= seconds)%Z ->
  let hours := Z.quot seconds 3600 in
  let remaining_minutes := Z.rem (Z.quot seconds 60) 60 in
  let remaining_seconds := Z.rem seconds 60 in
  (0 <= hours)%Z /\ (0 <= remaining_minutes < 60)%Z /\
  (0 <= remaining_seconds < 60)%Z /\
  (3600 * hours + 60 * remaining_minutes + remaining_seconds = seconds)%Z.
Proof.
  intros Hs. cbv zeta.
  rewrite !Z.quot_div_nonneg, !Z.rem_mod_nonneg by
    (try lia; apply Z.div_pos; lia).
  pose proof (Z.div_mod seconds 60 ltac:(lia)) as H60.
  pose proof (Z.mod_pos_bound seconds 60 ltac:(lia)) as Hsec.
  pose proof (Z.div_mod (seconds / 60) 60 ltac:(lia)) as Hmin.
  pose proof (Z.mod_pos_bound (seconds / 60) 60 ltac:(lia)) as Hm.
  assert (Hh : (seconds / 3600 = seconds / 60 / 60)%Z)
    by (rewrite Z.div_div by lia; reflexivity).
  assert (0 <= seconds / 60)%Z by (apply Z.div_pos; lia).
  assert (0 <= seconds / 60 / 60)%Z by (apply Z.div_pos; lia).
  rewrite Hh. repeat split; lia.
Qed.

(** X3. A time from 0 seconds to below 100 hours is printed as the
    eight characters [HH:MM:SS], from which the number of seconds can be
    read back. *)
Theorem format_time_round_trip :
  forall seconds : Z,
    (0 <= seconds < 360000)%Z ->
    List.length (format_time_as_hh_mm_ss seconds) = 8 /\
    parse_hh_mm_ss (format_time_as_hh_mm_ss seconds) = Some seconds.
Proof.
  intros seconds Hs.
  destruct (time_fields seconds ltac:(lia)) as (Hh & Hm & Hsec & Hsum).
  cbv zeta in *. unfold format_time_as_hh_mm_ss.
  assert (Hhours : (Z.quot seconds 3600 < 100)%Z).
  { rewrite Z.quot_div_nonneg by lia. apply Z.div_lt_upper_bound; lia. }
  destruct (Z.ltb_spec (Z.quot seconds 3600) 100); [| lia].
  destruct (two_digits_format_02i (Z.quot seconds 3600)) as (h1 & h2 & -> & Hhv);
    [lia |].
  destruct (two_digits_format_02i (Z.rem (Z.quot seconds 60) 60))
    as (m1 & m2 & -> & Hmv); [lia |].
  destruct (two_digits_format_02i (Z.rem seconds 60)) as (s1 & s2 & -> & Hsv);
    [lia |].
  split; [reflexivity |].
  cbn [app parse_hh_mm_ss]. rewrite Ascii.eqb_refl. cbn [andb].
  rewrite Hhv, Hmv, Hsv. f_equal. exact Hsum.
Qed.

(** ** More of the terminal UI: the progress bar and the table of counters *)

Section ProgressUIProperties.

Context {float double Counter : Type}.
Context {FA : FloatArith float} {PN : ProgressNumbers double Counter}.
Variable double_to_float : double -> float.

Lemma progress_glyph_from_table (progress : float) :
  cast_defined progress = true ->
  exists glyph, get_progress_glyph progress = Some glyph /\ In glyph Glyphs.
Proof.
  unfold cast_defined, get_progress_glyph, progress_step.
  destruct (float_to_int _) as [i |]; [intros _ | discriminate].
  destruct (array_at_in_bounds Glyphs (Z.max 0 (Z.min 8 i))) as (g & Hg & Hnth).
  - change (List.length Glyphs) with 9. lia.
  - exists g. split; [exact Hg |]. eapply nth_error_In. exact Hnth.
Qed.

Lemma progress_glyph_undefined (progress : float) :
  cast_defined progress = false -> get_progress_glyph progress = None.
Proof.
  unfold cast_defined, get_progress_glyph, progress_step.
  destruct (float_to_int _); [discriminate | reflexivity].
Qed.

Lemma progress_bar_loop_glyphs (enabled_steps : float) (remaining : nat) :
  forall (idx : N) (stream : std_string),
    bar_casts_defined enabled_steps remaining idx = true ->
    exists glyphs,
      progress_bar_loop enabled_steps remaining idx stream =
        Some (stream ++ List.concat glyphs) /\
      List.length glyphs = remaining /\
      Forall (fun glyph => In glyph Glyphs) glyphs.
Proof.
  induction remaining as [| remaining IH]; intros idx stream Hdefined.
  - exists []. cbn. rewrite app_nil_r. repeat split. constructor.
  - cbn [bar_casts_defined] in Hdefined. apply andb_prop in Hdefined.
    destruct Hdefined as [Hfirst Hrest]. cbn [progress_bar_loop].
    destruct (progress_glyph_from_table _ Hfirst) as (glyph & -> & Hin).
    destruct (IH (idx + 1)%N (stream ++ glyph) Hrest) as (glyphs & Hrun & Hlen & Hall).
    exists (glyph :: glyphs). rewrite Hrun. cbn [List.concat List.length].
    rewrite <- app_assoc. repeat split; [lia | constructor; assumption].
Qed.

Lemma progress_bar_loop_undefined (enabled_steps : float) (remaining : nat) :
  forall (idx : N) (stream : std_string),
    bar_casts_defined enabled_steps remaining idx = false ->
    progress_bar_loop enabled_steps remaining idx stream = None.
Proof.
  induction remaining as [| remaining IH]; intros idx stream Hundefined;
    [discriminate |].
  cbn [bar_casts_defined] in Hundefined. cbn [progress_bar_loop].
  destruct (cast_defined (fsub enabled_steps (float_lit (Z.of_N idx)))) eqn:Hfirst.
  - destruct (progress_glyph_from_table _ Hfirst) as (glyph & -> & _).
    apply IH. exact Hundefined.
  - now rewrite (progress_glyph_undefined _ Hfirst).
Qed.

(** A bar of at least 3 columns. *)
Lemma render_progress_bar_glyphs (progress : float) (allowed_width : N)
      (stream : std_string) :
  (3 <= allowed_width)%N ->
  bar_defined progress allowed_width = true ->
  exists glyphs,
    render_progress_bar progress allowed_width stream =
      Some (stream ++ str "[" ++ List.concat glyphs ++ str "]") /\
    List.length glyphs = N.to_nat (allowed_width - 2) /\
    Forall (fun glyph => In glyph Glyphs) glyphs.
Proof.
  intros Hlarge Hdefined. unfold render_progress_bar. unfold bar_defined in Hdefined.
  destruct (N.ltb_spec allowed_width 3) as [Hsmall | _]; [lia |].
  cbn [orb] in Hdefined.
  destruct (progress_bar_loop_glyphs
              (fmul (float_lit (Z.of_N (allowed_width - 2))) progress)
              (N.to_nat (allowed_width - 2)) 0%N (stream ++ str "[") Hdefined)
    as (glyphs & -> & Hlen & Hall).
  exists glyphs. split; [now rewrite <- !app_assoc |]. split; assumption.
Qed.

Lemma render_progress_bar_undefined (progress : float) (allowed_width : N)
      (stream : std_string) :
  bar_defined progress allowed_width = false ->
  render_progress_bar progress allowed_width stream = None.
Proof.
  unfold bar_defined, render_progress_bar.
  destruct (allowed_width <? 3)%N; [discriminate |]. cbn [orb]. intros Hundefined.
  now rewrite progress_bar_loop_undefined.
Qed.

(** X4. The progress bar writes nothing when fewer than 3 columns are
    allowed.  With 3 columns or more it writes an opening bracket, one
    glyph of the glyph table per remaining column, and a closing bracket,
    provided the conversion to [int] is defined for every glyph; when it
    is not defined for one of them (a progress that is a NaN or an
    infinity, say), rendering has no defined result. *)
Theorem render_progress_bar_shape :
  forall (progress : float) (allowed_width : N) (stream : std_string),
    ((allowed_width < 3)%N ->
     render_progress_bar progress allowed_width stream = Some stream) /\
    ((3 <= allowed_width)%N ->
     bar_defined progress allowed_width = true ->
     exists glyphs,
       N.of_nat (List.length glyphs) = (allowed_width - 2)%N /\
       Forall (fun glyph => In glyph Glyphs) glyphs /\
       render_progress_bar progress allowed_width stream =
         Some (stream ++ str "[" ++ List.concat glyphs ++ str "]")) /\
    (bar_defined progress allowed_width = false ->
     (3 <= allowed_width)%N /\
     render_progress_bar progress allowed_width stream = None).
Proof.
  intros progress width stream. split; [| split].
  - intros Hsmall. unfold render_progress_bar.
    apply N.ltb_lt in Hsmall. now rewrite Hsmall.
  - intros Hlarge Hdefined.
    destruct (render_progress_bar_glyphs progress width stream Hlarge Hdefined)
      as (glyphs & Hrun & Hlen & Hall).
    exists glyphs.
    split; [unfold std_string in *; lia |]. split; [exact Hall | exact Hrun].
  - intros Hundefined. split.
    + unfold bar_defined in Hundefined.
      destruct (N.ltb_spec width 3) as [Hsmall | Hlarge]; [discriminate | exact Hlarge].
    + now apply render_progress_bar_undefined.
Qed.

(** The suffix table is never left. *)
Lemma order_of_magnitude_at_most_4 (val : double) : (order_of_magnitude val <= 4)%N.
Proof.
  unfold order_of_magnitude. cbn [order_of_magnitude_loop].
  repeat match goal with
         | |- context [if ?b then _ else _] => destruct b
         end; intros H; discriminate H.
Qed.

Lemma pretty_print_large_number_total (large_number : double) :
  exists suffix,
    In suffix suffixes /\
    pretty_print_large_number large_number =
      Some (show_fixed 1 (d_div large_number
                                (d_pow (d_lit 1000) (order_of_magnitude large_number)))
              ++ suffix).
Proof.
  unfold pretty_print_large_number.
  destruct (array_at_in_bounds suffixes (Z.of_N (order_of_magnitude large_number)))
    as (suffix & -> & Hnth).
  - pose proof (order_of_magnitude_at_most_4 large_number).
    change (List.length suffixes) with 5. lia.
  - exists suffix. split; [eapply nth_error_In; exact Hnth | reflexivity].
Qed.

Lemma format_progress_counter_total (counter : Counter) :
  exists detail, format_progress_counter counter = Some detail.
Proof.
  unfold format_progress_counter.
  destruct (pretty_print_large_number_total (counter_current counter)) as (? & _ & ->).
  destruct (pretty_print_large_number_total (counter_max counter)) as (? & _ & ->).
  eexists. reflexivity.
Qed.

Lemma max_element_from_spec {A : Type} (size : A -> nat) (rest : list A) :
  forall largest,
    let m := max_element_from (fun l r => (size l <? size r)%nat) largest rest in
    In m (largest :: rest) /\
    (size largest <= size m)%nat /\
    Forall (fun x => size x <= size m)%nat rest.
Proof.
  induction rest as [| x rest IH]; intros largest; cbn [max_element_from].
  - cbv zeta. repeat split; [left; reflexivity | lia | constructor].
  - cbv zeta.
    destruct (IH (if (size largest <? size x)%nat then x else largest))
      as (Hin & Hle & Hall). cbv zeta in *.
    destruct (Nat.ltb_spec (size largest) (size x)) as [Hlt | Hge].
    + repeat split; [| lia | constructor; assumption].
      destruct Hin as [<- | Hin]; [right; left; reflexivity | right; right; exact Hin].
    + repeat split; [| lia | constructor; [lia | assumption]].
      destruct Hin as [<- | Hin]; [left; reflexivity | right; right; exact Hin].
Qed.

Lemma progress_rows_spec (width : N) (counters : list (std_string * Counter)) :
  (width < size_t_modulus)%N ->
  Forall (fun kv => (N.of_nat (List.length (fst kv)) <= width)%N) counters ->
  exists rows,
    progress_rows double_to_float width counters = Some rows /\
    Forall2 (fun kv row =>
               exists name_label progress detail,
                 row = [ Label name_label ForegroundColorWhite;
                         ProgressBar progress 40;
                         Label detail ForegroundColorWhite ] /\
                 name_label =
                   fst kv ++ repeat space (N.to_nat width - List.length (fst kv))
                          ++ [colon] /\
                 List.length name_label = S (N.to_nat width) /\
                 format_progress_counter (snd kv) = Some detail /\
                 progress =
                   double_to_float (d_div (counter_current (snd kv))
                                          (counter_max (snd kv))))
            counters rows.
Proof.
  intros Hwidth. induction counters as [| kv counters IH]; intros Hall.
  - exists []. split; [reflexivity | constructor].
  - inversion Hall as [| ? ? Hkv Hrest]; subst.
    destruct (IH Hrest) as (rows & Hrows & Hshape).
    destruct (format_progress_counter_total (snd kv)) as (detail & Hdetail).
    cbn [progress_rows]. unfold progress_row. rewrite Hdetail, Hrows.
    eexists. split; [reflexivity |].
    constructor; [| exact Hshape].
    pose proof (fills_of_short_name (fst kv) width Hkv Hwidth) as Hfills.
    eexists _, _, detail. split; [reflexivity |].
    unfold format_progress_name. rewrite Hfills.
    split; [now rewrite <- app_assoc |].
    split; [| split; [exact Hdetail | reflexivity]].
    rewrite !length_app, repeat_length. cbn [List.length].
    unfold std_string in *. lia.
Qed.

Lemma rebuild_with_tty_rows :
  forall counters : list (std_string * Counter),
    Forall (fun kv => (N.of_nat (List.length (fst kv)) < size_t_modulus)%N) counters ->
    exists rows width,
      rebuild_progress_ui_with_tty double_to_float counters = Some rows /\
      Forall (fun kv => List.length (fst kv) <= width)%nat counters /\
      (counters <> [] -> exists kv, In kv counters /\ List.length (fst kv) = width) /\
      Forall2 (fun kv row =>
                 exists name_label progress detail,
                   row = [ Label name_label ForegroundColorWhite;
                           ProgressBar progress 40;
                           Label detail ForegroundColorWhite ] /\
                   name_label =
                     fst kv ++ repeat space (width - List.length (fst kv)) ++ [colon] /\
                   List.length name_label = S width /\
                   format_progress_counter (snd kv) = Some detail /\
                   progress =
                     double_to_float (d_div (counter_current (snd kv))
                                            (counter_max (snd kv))))
              counters rows.
Proof.
  intros counters Hsizes. unfold rebuild_progress_ui_with_tty.
  destruct counters as [| first rest].
  { exists [], 0%nat. cbn. repeat split; try constructor. intros H. now elim H. }
  cbn [max_element].
  destruct (max_element_from_spec (fun kv : std_string * Counter => List.length (fst kv))
                                  rest first) as (Hin & Hfirst & Hrest).
  cbv beta zeta in Hin, Hfirst, Hrest.
  set (longest := max_element_from _ first rest) in *.
  assert (Hwidth : (N.of_nat (List.length (fst longest)) < size_t_modulus)%N).
  { rewrite Forall_forall in Hsizes. apply (Hsizes longest Hin). }
  destruct (progress_rows_spec (N.of_nat (List.length (fst longest))) (first :: rest)
                               Hwidth) as (rows & Hrows & Hshape).
  { unfold std_string in *. constructor; [lia |].
    eapply Forall_impl; [| exact Hrest].
    intros kv Hkv. cbv beta in Hkv. lia. }
  rewrite Nat2N.id in Hshape.
  exists rows, (List.length (fst longest)). split; [exact Hrows |].
  split; [constructor; assumption |].
  split; [intros _; exists longest; split; [exact Hin | reflexivity] |].
  exact Hshape.
Qed.

(** X5. Rebuilding the interface for a terminal always succeeds and
    gives one row per progress counter, in the order of the counters.
    Each row is the name label, a progress bar 40 columns wide and the
    detail label; all name labels are equally long, namely one more than
    the longest name, and each is the counter's name, padded with spaces,
    and a colon. *)
Theorem rebuild_with_tty_aligns_names :
  forall counters : list (std_string * Counter),
    Forall (fun kv => (N.of_nat (List.length (fst kv)) < size_t_modulus)%N) counters ->
    exists rows width,
      rebuild_progress_ui_with_tty double_to_float counters = Some rows /\
      Forall (fun kv => List.length (fst kv) <= width)%nat counters /\
      (counters <> [] -> exists kv, In kv counters /\ List.length (fst kv) = width) /\
      Forall2 (fun kv row =>
                 exists name_label progress detail,
                   row = [ Label name_label ForegroundColorWhite;
                           ProgressBar progress 40;
                           Label detail ForegroundColorWhite ] /\
                   name_label =
                     fst kv ++ repeat space (width - List.length (fst kv)) ++ [colon] /\
                   List.length name_label = S width)
              counters rows.
Proof.
  intros counters Hsizes.
  destruct (rebuild_with_tty_rows counters Hsizes)
    as (rows & width & Hrows & Hwidth & Hlongest & Hshape).
  exists rows, width. repeat (split; [assumption |]).
  eapply Forall2_impl; [| exact Hshape].
  intros kv row (name_label & progress & detail & Hrow & Hname & Hlength & _).
  exists name_label, progress, detail. repeat split; assumption.
Qed.

(** *** Line feeds in a frame *)

Lemma line_feeds_app (a b : std_string) :
  line_feeds (a ++ b) = (line_feeds a + line_feeds b)%nat.
Proof. unfold line_feeds. apply count_occ_app. Qed.

Lemma line_feeds_none (a : std_string) : ~ In newline a -> line_feeds a = 0%nat.
Proof. unfold line_feeds. intros H. now apply count_occ_not_In. Qed.

Lemma no_newline_app (a b : std_string) :
  ~ In newline a -> ~ In newline b -> ~ In newline (a ++ b).
Proof. intros Ha Hb Hin. apply in_app_or in Hin. tauto. Qed.

Lemma no_newline_repeat_space (n : nat) : ~ In newline (repeat space n).
Proof. intros Hin. apply repeat_spec in Hin. discriminate Hin. Qed.

Lemma no_newline_glyphs (glyphs : list std_string) :
  Forall (fun glyph => In glyph Glyphs) glyphs -> ~ In newline (List.concat glyphs).
Proof.
  induction 1 as [| glyph glyphs Hglyph _ IH]; cbn; [tauto |].
  apply no_newline_app; [| exact IH].
  cbn in Hglyph.
  repeat (destruct Hglyph as [<- | Hglyph];
          [cbn; intros Hin;
           repeat (destruct Hin as [Hin | Hin]; [discriminate Hin |]); exact Hin |]).
  contradiction.
Qed.

Lemma digit_not_newline (d : N) : (d < 10)%N -> digit d <> newline.
Proof.
  intros Hd Heq. apply (f_equal N_of_ascii) in Heq. unfold digit in Heq.
  rewrite N_ascii_embedding in Heq by lia.
  change (N_of_ascii newline) with 10%N in Heq. lia.
Qed.

Lemma no_newline_decimal_digits (fuel : nat) :
  forall n, ~ In newline (decimal_digits fuel n).
Proof.
  induction fuel as [| fuel IH]; intros n; cbn [decimal_digits]; [tauto |].
  destruct (N.ltb_spec n 10) as [Hsmall | Hlarge].
  - intros [Hin | []]. now apply (digit_not_newline n).
  - apply no_newline_app; [apply IH |].
    intros [Hin | []]. apply (digit_not_newline (n mod 10)); [| exact Hin].
    apply N.mod_lt. lia.
Qed.

Lemma no_newline_format_i (v : Z) : ~ In newline (format_i v).
Proof.
  unfold format_i, decimal. destruct (v <? 0)%Z.
  - intros [Hin | Hin]; [discriminate Hin |].
    now apply no_newline_decimal_digits in Hin.
  - apply no_newline_decimal_digits.
Qed.

Lemma no_newline_format_02i (v : Z) : ~ In newline (format_02i v).
Proof.
  unfold format_02i. destruct (_ <? 2)%nat.
  - intros [Hin | Hin]; [discriminate Hin |]. now apply no_newline_format_i in Hin.
  - apply no_newline_format_i.
Qed.

Lemma no_newline_format_time (seconds : Z) :
  ~ In newline (format_time_as_hh_mm_ss seconds).
Proof.
  assert (Hcolon : ~ In newline [colon]) by (intros [Hin | []]; discriminate Hin).
  unfold format_time_as_hh_mm_ss. destruct (_ <? 100)%Z;
    repeat apply no_newline_app;
    auto using no_newline_format_i, no_newline_format_02i.
Qed.

Section Frames.

Hypothesis show_fixed_one_line :
  forall (precision : nat) (x : double), ~ In newline (show_fixed precision x).

Hypothesis metric_prefix_one_line :
  forall x : double, ~ In newline (format_with_metric_prefix x).

Lemma no_newline_str (s : string) :
  existsb (Ascii.eqb newline) (str s) = false -> ~ In newline (str s).
Proof.
  intros Hno Hin.
  assert (existsb (Ascii.eqb newline) (str s) = true).
  { apply existsb_exists. exists newline. split; [exact Hin | apply Ascii.eqb_refl]. }
  congruence.
Qed.

Lemma no_newline_pretty_print (x : double) (text : std_string) :
  pretty_print_large_number x = Some text -> ~ In newline text.
Proof.
  destruct (pretty_print_large_number_total x) as (suffix & Hsuffix & ->).
  intros Heq.
  apply (f_equal (fun o => match o with Some x => x | None => [] end)) in Heq.
  cbv beta iota in Heq. subst text.
  apply no_newline_app; [apply show_fixed_one_line |].
  unfold suffixes in Hsuffix. cbn [In] in Hsuffix.
  repeat (destruct Hsuffix as [<- | Hsuffix];
          [now apply no_newline_str |]).
  contradiction.
Qed.

Lemma no_newline_format_progress_counter (counter : Counter) (detail : std_string) :
  format_progress_counter counter = Some detail -> ~ In newline detail.
Proof.
  unfold format_progress_counter.
  destruct (pretty_print_large_number (counter_current counter)) as [cur |] eqn:Hcur;
    [| discriminate].
  destruct (pretty_print_large_number (counter_max counter)) as [max |] eqn:Hmax;
    [| discriminate].
  intros Heq.
  apply (f_equal (fun o => match o with Some x => x | None => [] end)) in Heq.
  cbv beta iota in Heq. subst detail.
  apply no_newline_pretty_print in Hcur, Hmax.
  repeat apply no_newline_app;
    auto using show_fixed_one_line; now apply no_newline_str.
Qed.

(** A row of the table of counters is written on one line. *)
Lemma render_progress_row (name_label detail : std_string) (progress : float)
      (stream : std_string) :
  bar_defined progress 40 = true ->
  ~ In newline name_label -> ~ In newline detail ->
  exists text,
    render_elements true [ Label name_label ForegroundColorWhite;
                           ProgressBar progress 40;
                           Label detail ForegroundColorWhite ] stream =
      Some (stream ++ text) /\
    ~ In newline text.
Proof.
  intros Hdefined Hname Hdetail. cbn [render_elements render_element].
  destruct (render_progress_bar_glyphs
              progress 40
              (render_label true name_label ForegroundColorWhite stream))
    as (glyphs & -> & _ & Hglyphs); [lia | exact Hdefined |].
  unfold render_label.
  exists (ForegroundColorWhite ++ name_label ++ str "[" ++ List.concat glyphs
            ++ str "]" ++ ForegroundColorWhite ++ detail).
  split; [now rewrite <- !app_assoc |].
  assert (Hwhite : ~ In newline ForegroundColorWhite).
  { intros Hin. cbn in Hin.
    repeat (destruct Hin as [Hin | Hin]; [discriminate Hin |]). exact Hin. }
  repeat apply no_newline_app; auto using no_newline_glyphs;
    now apply no_newline_str.
Qed.

Lemma draw_rows (counters : list (std_string * Counter)) (width : nat) :
  forall (rows : list (list TerminalUIElement)) (stream : std_string),
    Forall (fun kv => ~ In newline (fst kv)) counters ->
    Forall (fun kv => bar_defined (shown double_to_float kv) 40 = true) counters ->
    Forall2 (fun kv row =>
               exists name_label progress detail,
                 row = [ Label name_label ForegroundColorWhite;
                         ProgressBar progress 40;
                         Label detail ForegroundColorWhite ] /\
                 name_label =
                   fst kv ++ repeat space (width - List.length (fst kv)) ++ [colon] /\
                 List.length name_label = S width /\
                 format_progress_counter (snd kv) = Some detail /\
                 progress = shown double_to_float kv)
            counters rows ->
    exists body,
      draw_lines true rows stream = Some (stream ++ body) /\
      line_feeds body = List.length counters.
Proof.
  induction counters as [| kv counters IH]; intros rows stream Hnames Hbars Hshape;
    inversion Hshape as [| ? row ? rows' Hrow Hrest]; subst.
  - exists []. cbn. now rewrite app_nil_r.
  - inversion Hnames as [| ? ? Hname Hnames']; subst.
    inversion Hbars as [| ? ? Hbar Hbars']; subst.
    destruct Hrow as (name_label & progress & detail & -> & -> & _ & Hdetail & ->).
    cbn [draw_lines].
    destruct (render_progress_row
                (fst kv ++ repeat space (width - List.length (fst kv)) ++ [colon])
                detail (shown double_to_float kv) (stream ++ ESC :: str "[2K") Hbar)
      as (text & Hrender & Htext).
    { repeat apply no_newline_app;
        auto using no_newline_repeat_space.
      intros [Hin | []]. discriminate Hin. }
    { eapply no_newline_format_progress_counter. exact Hdetail. }
    unfold std_string in *. rewrite Hrender.
    destruct (IH rows' (((stream ++ ESC :: str "[2K") ++ text) ++ [newline])
                 Hnames' Hbars' Hrest) as (body & -> & Hfeeds).
    exists ((ESC :: str "[2K") ++ text ++ [newline] ++ body).
    split; [now rewrite <- !app_assoc |].
    rewrite !line_feeds_app, Hfeeds.
    rewrite (line_feeds_none text Htext).
    reflexivity.
Qed.

(** One bar for which the conversion is not defined leaves the whole
    frame without a defined result. *)
Lemma draw_rows_undefined (counters : list (std_string * Counter)) (width : nat) :
  forall (rows : list (list TerminalUIElement)) (stream : std_string),
    Exists (fun kv => bar_defined (shown double_to_float kv) 40 = false) counters ->
    Forall2 (fun kv row =>
               exists name_label progress detail,
                 row = [ Label name_label ForegroundColorWhite;
                         ProgressBar progress 40;
                         Label detail ForegroundColorWhite ] /\
                 name_label =
                   fst kv ++ repeat space (width - List.length (fst kv)) ++ [colon] /\
                 List.length name_label = S width /\
                 format_progress_counter (snd kv) = Some detail /\
                 progress = shown double_to_float kv)
            counters rows ->
    draw_lines true rows stream = None.
Proof.
  induction counters as [| kv counters IH]; intros rows stream Hbad Hshape;
    inversion Hshape as [| ? row ? rows' Hrow Hrest]; subst.
  - inversion Hbad.
  - destruct Hrow as (name_label & progress & detail & -> & _ & _ & _ & ->).
    cbn [draw_lines render_elements render_element].
    destruct (bar_defined (shown double_to_float kv) 40) eqn:Hbar.
    + destruct (render_progress_bar_glyphs
                  (shown double_to_float kv) 40
                  (render_label true name_label ForegroundColorWhite
                                (stream ++ ESC :: str "[2K")))
        as (glyphs & -> & _ & _); [lia | exact Hbar |].
      apply IH; [| exact Hrest].
      inversion Hbad as [? ? Hhere | ? ? Hlater]; subst; [congruence | exact Hlater].
    + now rewrite render_progress_bar_undefined.
Qed.

(** X6. On a terminal, [redraw] writes nothing when there are no
    progress counters.  Otherwise, provided the conversion to [int] is
    defined for every glyph of every counter's bar, it writes one line
    per counter and then moves the cursor to the first column and up by
    the number of counters: when no counter name and no formatted number
    contains a line feed, the frame contains exactly as many line feeds
    as the cursor is moved up afterwards, so the next frame overwrites
    it.  When the conversion is not defined for a bar -- the quotient of
    a counter whose maximal progress is 0 is a NaN or an infinity --
    drawing the frame has no defined result. *)
Theorem redraw_with_tty_in_place :
  forall (counters : list (std_string * Counter)) (delta_time_seconds : Z)
         (stream : std_string),
    Forall (fun kv => (N.of_nat (List.length (fst kv)) < size_t_modulus)%N) counters ->
    Forall (fun kv => ~ In newline (fst kv)) counters ->
    (Forall (fun kv => bar_defined (shown double_to_float kv) 40 = true) counters ->
     exists rows out,
       redraw double_to_float true counters delta_time_seconds stream =
         Some (rows, out) /\
       List.length rows = List.length counters /\
       (counters = [] -> out = stream) /\
       (counters <> [] ->
        exists body,
          out = stream ++ body ++ (ESC :: str "[1000D") ++ (ESC :: str "[")
                  ++ decimal (N.of_nat (List.length counters)) ++ str "A" /\
          line_feeds body = List.length counters)) /\
    (Exists (fun kv => bar_defined (shown double_to_float kv) 40 = false) counters ->
     redraw double_to_float true counters delta_time_seconds stream = None).
Proof.
  intros counters seconds stream Hsizes Hnames.
  destruct (rebuild_with_tty_rows counters Hsizes)
    as (rows & width & Hrows & _ & _ & Hshape).
  assert (Hlength : List.length rows = List.length counters)
    by (symmetry; eapply Forall2_length; exact Hshape).
  split.
  - intros Hbars.
    destruct (draw_rows counters width rows stream Hnames Hbars Hshape)
      as (body & Hdraw & Hfeeds).
    unfold redraw. rewrite Hrows.
    destruct rows as [| row rows].
    + exists [], stream. split; [reflexivity |]. split; [exact Hlength |].
      split; [reflexivity |].
      intros Hne. destruct counters; [now elim Hne | discriminate Hlength].
    + unfold redraw_with_tty. rewrite Hdraw.
      eexists _, _. split; [reflexivity |]. split; [exact Hlength |].
      split; [intros ->; discriminate Hlength |].
      intros _. exists body. rewrite Hlength. split; [| exact Hfeeds].
      now rewrite <- !app_assoc.
  - intros Hbad.
    pose proof (draw_rows_undefined counters width rows stream Hbad Hshape) as Hdraw.
    unfold redraw. rewrite Hrows.
    destruct rows as [| row rows].
    + destruct counters; [inversion Hbad | discriminate Hlength].
    + unfold redraw_with_tty. now rewrite Hdraw.
Qed.

Lemma no_newline_progress_texts (counters : list (std_string * Counter)) :
  Forall (fun kv => ~ In newline (fst kv)) counters ->
  ~ In newline (List.concat (map progress_text counters)).
Proof.
  induction 1 as [| kv kvs Hkv _ IH]; cbn [map List.concat]; [intros [] |].
  apply no_newline_app; [| exact IH].
  unfold progress_text.
  repeat apply no_newline_app; auto using metric_prefix_one_line;
    now apply no_newline_str.
Qed.

(** X7. Without a terminal, [redraw] writes nothing when there are no
    progress counters, and otherwise appends a single line: the elapsed
    time in brackets and, for each counter in order, its name and its
    two formatted numbers, with one line feed at the very end. *)
Theorem redraw_without_tty_appends_one_line :
  forall (counters : list (std_string * Counter)) (delta_time_seconds : Z)
         (stream : std_string),
    Forall (fun kv => ~ In newline (fst kv)) counters ->
    exists rows out,
      redraw double_to_float false counters delta_time_seconds stream =
        Some (rows, out) /\
      (counters = [] -> rows = [] /\ out = stream) /\
      (counters <> [] ->
       let line := str "[" ++ format_time_as_hh_mm_ss delta_time_seconds ++ str "] "
                     ++ List.concat (map progress_text counters) in
       out = stream ++ line ++ [newline] /\ line_feeds line = 0%nat).
Proof.
  intros counters seconds stream Hnames. unfold redraw.
  destruct counters as [| first rest].
  { exists [], stream. split; [reflexivity |]. split.
    - intros _. split; reflexivity.
    - intros Hne. now elim Hne. }
  cbn [rebuild_progress_ui_without_tty]. unfold redraw_without_tty.
  cbn [draw_lines render_elements render_element]. unfold render_label.
  assert (Hlabels :
            forall kvs text,
              render_elements false
                (map (fun kv => Label (progress_text kv) ForegroundColorWhite) kvs)
                text =
              Some (text ++ List.concat (map progress_text kvs))).
  { induction kvs as [| kv kvs IH]; intros text; cbn.
    - now rewrite app_nil_r.
    - unfold render_label. rewrite IH. now rewrite <- app_assoc. }
  rewrite Hlabels.
  eexists _, _. split; [reflexivity |].
  split; [intros Hbad; discriminate Hbad |].
  intros _. cbv zeta. split; [now rewrite <- !app_assoc |].
  apply line_feeds_none.
  apply no_newline_app; [now apply no_newline_str |].
  apply no_newline_app; [apply no_newline_format_time |].
  apply no_newline_app; [now apply no_newline_str |].
  now apply no_newline_progress_texts.
Qed.

End Frames.

End ProgressUIProperties.

(** ** More of [chunk_string]: the shape of the chunks *)

Section ChunkShape.

Variable s : std_string.
Variable w : N.
Variable n : N.

Let size := N.of_nat (List.length s).

Hypothesis w_pos : (0 < w)%N.
Hypothesis covers : (size <= n * w)%N.
Hypothesis tight : (n * w < size + w)%N.
Hypothesis no_wrap : (size + w < size_t_modulus)%N.

Lemma chunk_loop_shape (r : nat) :
  forall (c : N) (acc : list std_string),
    (c + N.of_nat r = n)%N ->
    exists pieces,
      chunk_loop s w r c acc = Some (acc ++ pieces) /\
      List.length pieces = r /\
      Forall (fun piece => (1 <= List.length piece)%nat) pieces /\
      Forall (fun piece => N.of_nat (List.length piece) = w) (removelast pieces).
Proof.
  induction r as [| r IH]; intros c acc Hc.
  - exists []. cbn. rewrite app_nil_r. repeat split; constructor.
  - cbn [chunk_loop].
    assert (Hstart : (c * w < size)%N) by nia.
    assert (Hnext : ((c + 1) * w <= n * w)%N) by nia.
    rewrite (wrap_size_t_small (c * w)) by lia.
    rewrite (wrap_size_t_small ((c + 1) * w)) by lia.
    fold size.
    set (stop := if (size <=? (c + 1) * w)%N then size else ((c + 1) * w)%N).
    assert (Hstop : (c * w < stop /\ stop <= size /\ stop <= (c + 1) * w)%N).
    { subst stop. destruct (N.leb_spec size ((c + 1) * w)); nia. }
    unfold string_of_range. fold size.
    destruct (N.leb_spec (c * w) stop) as [_ | Hbad]; [| lia].
    destruct (N.leb_spec stop size) as [_ | Hbad]; [| lia].
    cbn [andb].
    set (piece := firstn (N.to_nat stop - N.to_nat (c * w))
                         (skipn (N.to_nat (c * w)) s)).
    assert (Hpiece : N.of_nat (List.length piece) = (stop - c * w)%N).
    { subst piece. rewrite length_firstn, length_skipn. subst size. lia. }
    destruct (IH (c + 1)%N (acc ++ [piece])) as (rest & Hrun & Hcount & Hnonempty & Hfull);
      [lia |].
    exists (piece :: rest).
    split; [rewrite <- app_assoc in Hrun; exact Hrun |].
    split; [cbn; now f_equal |].
    split; [constructor; [lia | exact Hnonempty] |].
    destruct rest as [| next rest]; [constructor |].
    change (removelast (piece :: next :: rest))
      with (piece :: removelast (next :: rest)).
    constructor; [| exact Hfull].
    assert (Hmore : (c + 1 < n)%N) by (cbn in Hcount; lia).
    assert (((c + 1) * w + w <= n * w)%N) by nia.
    subst stop. destruct (N.leb_spec size ((c + 1) * w)); lia.
Qed.

End ChunkShape.

(** X8. For a positive line width, the number of lines is the length of
    the content divided by the width and rounded up; no line is empty,
    and every line except the last is exactly one line width long.  An
    empty content gives no line at all. *)
Theorem chunk_string_full_lines :
  forall (content : std_string) (width : N),
    (0 < width < 2 ^ 32)%N ->
    (N.of_nat (List.length content) < 2 ^ 53)%N ->
    exists lines,
      chunk_string content width = Some lines /\
      N.of_nat (List.length lines) =
        ((N.of_nat (List.length content) + width - 1) / width)%N /\
      Forall (fun line => (1 <= List.length line)%nat) lines /\
      Forall (fun line => N.of_nat (List.length line) = width) (removelast lines) /\
      (content = [] -> lines = []).
Proof.
  intros content w Hw Hsize. unfold chunk_string.
  destruct (ceil_div (N.of_nat (List.length content)) w) as [n |] eqn:Hn.
  2:{ unfold ceil_div in Hn. destruct (N.eqb_spec w 0); [lia | discriminate]. }
  apply ceil_div_bounds in Hn. destruct Hn as (Hpos & Hcov & Htight).
  assert (Hwrap : (N.of_nat (List.length content) + w < size_t_modulus)%N).
  { unfold size_t_modulus.
    change (2 ^ 64)%N with 18446744073709551616%N.
    change (2 ^ 53)%N with 9007199254740992%N in Hsize.
    change (2 ^ 32)%N with 4294967296%N in Hw. lia. }
  destruct (chunk_loop_shape content w n Hpos Hcov Htight Hwrap
              (N.to_nat n) 0%N []) as (lines & Hrun & Hcount & Hnonempty & Hfull);
    [lia |].
  exists lines. cbn [app] in Hrun. split; [exact Hrun |].
  assert (Hn : n = ((N.of_nat (List.length content) + w - 1) / w)%N).
  { apply (N.div_unique _ w n (N.of_nat (List.length content) + w - 1 - w * n));
      rewrite (N.mul_comm w n); lia. }
  split; [unfold std_string in *; lia |].
  split; [exact Hnonempty |]. split; [exact Hfull |].
  intros ->. cbn [List.length] in *.
  assert (n = 0%N) by nia.
  destruct lines; [reflexivity | cbn in Hcount; lia].
Qed.

(** ** More of the file system: what removing and creating leave alone *)

Lemma find_entry_filter_other (name b : string) (entries : list (string * node)) :
  name <> b ->
  find_entry b (filter (fun e => negb (named name e)) entries) = find_entry b entries.
Proof.
  intros Hne. unfold find_entry.
  induction entries as [| e entries IH]; [reflexivity |].
  cbn [filter find].
  destruct (named name e) eqn:Hname; cbn [negb find];
    destruct (named b e) eqn:Hb; try reflexivity; try exact IH.
  unfold named in Hname, Hb. apply String.eqb_eq in Hname, Hb. congruence.
Qed.

Lemma find_entry_map_other (name b : string) (g : string * node -> node)
      (entries : list (string * node)) :
  name <> b ->
  find_entry b (map (fun e => if named name e then (fst e, g e) else e) entries) =
  find_entry b entries.
Proof.
  intros Hne. unfold find_entry.
  induction entries as [| e entries IH]; [reflexivity |].
  cbn [map find].
  destruct (named name e) eqn:Hname.
  - assert (Hb : named b e = false).
    { unfold named in *. apply String.eqb_eq in Hname. apply String.eqb_neq.
      congruence. }
    unfold named at 1. cbn [fst]. fold (named b e). rewrite Hb. exact IH.
  - destruct (named b e); [reflexivity | exact IH].
Qed.

Lemma remove_all_directory (p : path) (entries : list (string * node)) :
  exists entries', remove_all p (Directory entries) = Directory entries'.
Proof.
  destruct p as [| name [| next rest]]; cbn; eexists; reflexivity.
Qed.

Lemma remove_all_below (name next : string) (rest : path)
      (entries : list (string * node)) :
  remove_all (name :: next :: rest) (Directory entries) =
  Directory (map (fun e => if named name e
                           then (fst e, remove_all (next :: rest) (snd e))
                           else e) entries).
Proof. reflexivity. Qed.

(** Removing [p] changes the kind of no path that does not lead through
    [p]. *)
Lemma kind_remove_all_elsewhere (p : path) :
  forall (root : node) (q : path),
    (forall rest, q <> p ++ rest) ->
    kind (remove_all p root) q = kind root q.
Proof.
  induction p as [| name rest IH]; intros root q Hq; [reflexivity |].
  destruct root as [| | entries]; try reflexivity.
  destruct q as [| b q'].
  { destruct (remove_all_directory (name :: rest) entries) as (entries' & ->).
    reflexivity. }
  unfold kind. destruct (String.eqb_spec name b) as [<- | Hother].
  - destruct rest as [| next rest'].
    { exfalso. apply (Hq q'). reflexivity. }
    rewrite (remove_all_below name next rest' entries). cbn [status].
    rewrite find_entry_map_named.
    destruct (find_entry name entries) as [child |]; [| reflexivity].
    cbn [option_map]. apply (IH child q').
    intros tail ->. apply (Hq tail). reflexivity.
  - destruct rest as [| next rest'].
    + cbn [remove_all status]. now rewrite find_entry_filter_other.
    + rewrite (remove_all_below name next rest' entries). cbn [status].
      now rewrite (find_entry_map_other name b
                     (fun e => remove_all (next :: rest') (snd e))).
Qed.

Lemma kind_remove_entries_elsewhere (dir : path) (names : list string) :
  forall (root : node) (q : path),
    ~ strictly_below dir q ->
    kind (fold_left (fun r name => remove_all (dir ++ [name]) r) names root) q =
    kind root q.
Proof.
  induction names as [| name names IH]; intros root q Hq; [reflexivity |].
  cbn [fold_left]. rewrite IH by exact Hq.
  apply kind_remove_all_elsewhere.
  intros rest ->. apply Hq. exists name, rest. now rewrite <- app_assoc.
Qed.

Lemma status_new_directories (p : path) :
  status (new_directories p) p = Some (Directory []).
Proof.
  induction p as [| name rest IH]; [reflexivity |].
  cbn. unfold find_entry, named. cbn. rewrite String.eqb_refl. exact IH.
Qed.

Lemma find_entry_app_found (name : string) (entries more : list (string * node))
      (child : node) :
  find_entry name entries = Some child ->
  find_entry name (entries ++ more) = Some child.
Proof.
  unfold find_entry. induction entries as [| e entries IH]; [discriminate |].
  cbn [app find]. destruct (named name e); [trivial | exact IH].
Qed.

Lemma find_entry_app_missing (name : string) (entries : list (string * node))
      (child : node) :
  find_entry name entries = None ->
  find_entry name (entries ++ [(name, child)]) = Some child.
Proof.
  unfold find_entry. induction entries as [| e entries IH]; cbn [app find].
  - intros _. unfold named. cbn. now rewrite String.eqb_refl.
  - destruct (named name e); [discriminate | exact IH].
Qed.

(** Creating directories changes the kind of nothing that exists. *)
Lemma kind_create_directories (p : path) :
  forall (root root' : node) (q : path),
    create_directories p root = Some root' ->
    exists_ root q = true ->
    kind root' q = kind root q.
Proof.
  induction p as [| name rest IH]; intros root root' q Hcreate Hq.
  - destruct root; cbn in Hcreate; try discriminate.
    injection Hcreate as <-. reflexivity.
  - destruct root as [| | entries]; cbn in Hcreate; try discriminate.
    destruct (find_entry name entries) as [child |] eqn:Hchild.
    + destruct (create_directories rest child) as [child' |] eqn:Hrest;
        [| discriminate].
      injection Hcreate as <-.
      destruct q as [| b q']; [reflexivity |].
      unfold kind, exists_ in *. cbn [status] in *.
      destruct (String.eqb_spec name b) as [<- | Hother].
      * rewrite (find_entry_map_named name (fun _ => child')), Hchild.
        cbn [option_map]. rewrite Hchild in Hq.
        apply (IH child child' q' Hrest Hq).
      * now rewrite (find_entry_map_other name b (fun _ => child')).
    + injection Hcreate as <-.
      destruct q as [| b q']; [reflexivity |].
      unfold kind, exists_ in *. cbn [status] in *.
      destruct (find_entry b entries) as [found |] eqn:Hfound; [| discriminate].
      now rewrite (find_entry_app_found b entries _ found Hfound).
Qed.

(** What did not exist and was created is an empty directory. *)
Lemma status_created (p : path) :
  forall (root root' : node),
    status root p = None ->
    create_directories p root = Some root' ->
    status root' p = Some (Directory []).
Proof.
  induction p as [| name rest IH]; intros root root' Hnone Hcreate;
    [discriminate |].
  destruct root as [| | entries]; cbn in Hcreate; try discriminate.
  cbn [status] in Hnone.
  destruct (find_entry name entries) as [child |] eqn:Hchild.
  - destruct (create_directories rest child) as [child' |] eqn:Hrest;
      [| discriminate].
    injection Hcreate as <-. cbn [status].
    rewrite (find_entry_map_named name (fun _ => child')), Hchild.
    cbn [option_map]. apply (IH child child' Hnone Hrest).
  - injection Hcreate as <-. cbn [status].
    rewrite (find_entry_app_missing name entries _ Hchild).
    apply status_new_directories.
Qed.

(** Creating a path that does not exist fails exactly when the way to it
    is blocked. *)
Lemma create_directories_fails (p : path) :
  forall root,
    status root p = None ->
    (create_directories p root = None <-> blocked root p).
Proof.
  induction p as [| name rest IH]; intros root Hnone; [discriminate |].
  destruct root as [| | entries].
  1, 2: split; [intros _ | reflexivity];
    exists [], name, rest; repeat split.
  cbn [status] in Hnone. cbn [create_directories].
  destruct (find_entry name entries) as [child |] eqn:Hchild.
  - specialize (IH child Hnone).
    destruct (create_directories rest child) as [child' |] eqn:Hrest.
    + split; [discriminate |].
      intros (parent & b & tail & Hp & Hexists & Hdir).
      destruct parent as [| a parent'].
      * discriminate Hdir.
      * injection Hp as <- ->.
        assert (Hblocked : blocked child (parent' ++ b :: tail)).
        { exists parent', b, tail. split; [reflexivity |].
          unfold exists_, is_directory in *. cbn [status] in *.
          rewrite Hchild in Hexists, Hdir. split; assumption. }
        apply IH in Hblocked. discriminate Hblocked.
    + split; [intros _ | reflexivity].
      destruct (proj1 IH eq_refl) as (parent & b & tail & -> & Hexists & Hdir).
      exists (name :: parent), b, tail. split; [reflexivity |].
      unfold exists_, is_directory in *. cbn [status]. rewrite Hchild.
      split; assumption.
  - split; [discriminate |].
    intros (parent & b & tail & Hp & Hexists & Hdir).
    destruct parent as [| a parent']; [discriminate Hdir |].
    injection Hp as <- ->.
    unfold exists_ in Hexists. cbn [status] in Hexists.
    rewrite Hchild in Hexists. discriminate Hexists.
Qed.

(** ** More of [verifyWorkDir] *)

(** The branch of [verifyWorkDir] that removes the entries. *)
Lemma verifyWorkDir_removing (dir : path) (option : StoreOption) (w : world)
      (entries : list (string * node)) :
  status (fs w) dir = Some (Directory entries) ->
  option <> INCREMENTAL ->
  (option = ABORT_IF_EXISTS -> exists_ (fs w) (dir ++ ["r.json"%string]) = false) ->
  verifyWorkDir dir option w =
    (Returned tt,
     {| fs := fold_left (fun r name => remove_all (dir ++ [name]) r)
                        (map fst entries) (fs w);
        cout := cout w ++ [removing_line];
        cerr := cerr w |}).
Proof.
  intros Hdir Hincremental Habort.
  unfold verifyWorkDir, fs_exists, fs_directory_iterator, get_fs, print, ret, bind.
  cbn [fs cout cerr]. unfold exists_ at 1. rewrite Hdir.
  assert (Hguard : exists_ (fs w) (dir ++ ["r.json"%string])
                   && StoreOption_eqb option ABORT_IF_EXISTS = false).
  { destruct option; cbn [StoreOption_eqb]; try apply andb_false_r.
    rewrite Habort; reflexivity. }
  rewrite Hguard.
  assert (Hnot : StoreOption_eqb option INCREMENTAL = false)
    by (destruct option; try reflexivity; contradiction).
  rewrite Hnot. cbn [fs cout cerr]. unfold directory_iterator. rewrite Hdir.
  cbv beta iota.
  rewrite <- (map_map fst (fun name => dir ++ [name]) entries).
  rewrite for_each_remove_all. reflexivity.
Qed.

Lemma status_emptied (dir : path) (root : node) (entries : list (string * node)) :
  status root dir = Some (Directory entries) ->
  status (fold_left (fun r name => remove_all (dir ++ [name]) r)
                    (map fst entries) root) dir = Some (Directory []).
Proof.
  intros Hdir. rewrite (status_remove_entries dir _ _ _ Hdir).
  rewrite filter_own_names; [reflexivity | apply incl_refl].
Qed.

(** X9. [ABORT_IF_EXISTS] protects only a directory that holds
    [r.json]: on an existing directory without [r.json] it does what
    [OVERWRITE] does and removes every entry. *)
Theorem abort_if_exists_without_manifest_removes :
  forall (dir : path) (w : world) (entries : list (string * node)),
    status (fs w) dir = Some (Directory entries) ->
    exists_ (fs w) (dir ++ ["r.json"%string]) = false ->
    verifyWorkDir dir ABORT_IF_EXISTS w = verifyWorkDir dir OVERWRITE w /\
    exists w',
      verifyWorkDir dir ABORT_IF_EXISTS w = (Returned tt, w') /\
      status (fs w') dir = Some (Directory []) /\
      cout w' = cout w ++ [removing_line].
Proof.
  intros dir w entries Hdir Hmanifest.
  rewrite (verifyWorkDir_removing dir ABORT_IF_EXISTS w entries Hdir)
    by (try discriminate; intros _; exact Hmanifest).
  rewrite (verifyWorkDir_removing dir OVERWRITE w entries Hdir)
    by (try discriminate; intros Hbad; discriminate Hbad).
  split; [reflexivity |].
  eexists. split; [reflexivity |]. cbn [fs cout].
  split; [now apply status_emptied | reflexivity].
Qed.

(** X10. Whatever the option and whatever the outcome, [verifyWorkDir]
    leaves everything alone that exists and does not lie strictly below
    the work directory: it is there afterwards and of the same kind. *)
Theorem verifyWorkDir_touches_only_below :
  forall (dir : path) (option : StoreOption) (w w' : world) (o : outcome unit),
    verifyWorkDir dir option w = (o, w') ->
    forall q,
      exists_ (fs w) q = true ->
      ~ strictly_below dir q ->
      kind (fs w') q = kind (fs w) q.
Proof.
  intros dir option w w' o Hrun q Hq Hbelow.
  destruct (status (fs w) dir) as [n |] eqn:Hdir.
  - destruct (exists_ (fs w) (dir ++ ["r.json"%string])
              && StoreOption_eqb option ABORT_IF_EXISTS) eqn:Hguard.
    { unfold verifyWorkDir, fs_exists, get_fs, ret, bind, throw in Hrun.
      unfold exists_ at 1 in Hrun. rewrite Hdir, Hguard in Hrun.
      injection Hrun as _ <-. reflexivity. }
    destruct (StoreOption_eqb option INCREMENTAL) eqn:Hincremental.
    { unfold verifyWorkDir, fs_exists, get_fs, ret, bind, print in Hrun.
      unfold exists_ at 1 in Hrun. rewrite Hdir, Hguard, Hincremental in Hrun.
      injection Hrun as _ <-. reflexivity. }
    destruct n as [| | entries].
    1, 2: unfold verifyWorkDir, fs_exists, fs_directory_iterator, get_fs, ret,
            bind, print, throw in Hrun;
          unfold exists_ at 1 in Hrun;
          rewrite Hdir, Hguard, Hincremental in Hrun;
          cbn [fs cout cerr] in Hrun; unfold directory_iterator in Hrun;
          rewrite Hdir in Hrun; injection Hrun as _ <-; reflexivity.
    rewrite (verifyWorkDir_removing dir option w entries Hdir) in Hrun.
    + injection Hrun as _ <-. cbn [fs].
      now apply kind_remove_entries_elsewhere.
    + intros ->. discriminate Hincremental.
    + intros ->. cbn [StoreOption_eqb] in Hguard.
      now rewrite andb_true_r in Hguard.
  - unfold verifyWorkDir, fs_exists, fs_create_directories, get_fs, put_fs, ret,
      bind, print, throw in Hrun.
    unfold exists_ at 1 in Hrun. rewrite Hdir in Hrun. cbn [fs cout cerr] in Hrun.
    destruct (create_directories dir (fs w)) as [root' |] eqn:Hcreate;
      injection Hrun as _ <-; cbn [fs]; [| reflexivity].
    now apply (kind_create_directories dir (fs w) root').
Qed.

(** X11. When the work directory does not exist, [verifyWorkDir] either
    finds the way to it blocked by something that is not a directory and
    throws a file-system error, having changed no file, or it returns
    and the work directory is an empty directory, while everything that
    existed before is still there and of the same kind. *)
Theorem verifyWorkDir_creates_missing_directory :
  forall (dir : path) (option : StoreOption) (w : world),
    exists_ (fs w) dir = false ->
    (blocked (fs w) dir /\
     verifyWorkDir dir option w = (Thrown filesystem_error, printed w [creating_line]))
    \/
    (~ blocked (fs w) dir /\
     exists w',
       verifyWorkDir dir option w = (Returned tt, w') /\
       status (fs w') dir = Some (Directory []) /\
       cout w' = cout w ++ [creating_line] /\
       forall q, exists_ (fs w) q = true -> kind (fs w') q = kind (fs w) q).
Proof.
  intros dir option w Hmissing.
  assert (Hnone : status (fs w) dir = None).
  { unfold exists_ in Hmissing. destruct (status (fs w) dir); [discriminate | reflexivity]. }
  pose proof (create_directories_fails dir (fs w) Hnone) as Hfails.
  unfold verifyWorkDir, fs_exists, fs_create_directories, get_fs, put_fs, ret,
    bind, print, throw.
  rewrite Hmissing. cbn [fs cout cerr].
  destruct (create_directories dir (fs w)) as [root' |] eqn:Hcreate.
  - right. split; [intros Hblocked; apply Hfails in Hblocked; discriminate |].
    eexists. split; [reflexivity |]. cbn [fs cout].
    split; [now apply (status_created dir (fs w)) |]. split; [reflexivity |].
    intros q Hq. now apply (kind_create_directories dir (fs w) root').
  - left. split; [now apply Hfails | reflexivity].
Qed.

(** X12. With [INCREMENTAL], [verifyWorkDir] never removes anything and
    never refuses an existing output: whatever the outcome, everything
    that existed is still there and of the same kind, and when the work
    directory exists the call returns after printing one line. *)
Theorem incremental_keeps_every_file :
  forall (dir : path) (w w' : world) (o : outcome unit),
    verifyWorkDir dir INCREMENTAL w = (o, w') ->
    (forall q, exists_ (fs w) q = true -> kind (fs w') q = kind (fs w) q) /\
    (exists_ (fs w) dir = true -> o = Returned tt /\ w' = printed w [appending_line]).
Proof.
  intros dir w w' o Hrun.
  unfold verifyWorkDir, fs_exists, fs_create_directories, get_fs, put_fs, ret,
    bind, print, throw in Hrun.
  destruct (exists_ (fs w) dir) eqn:Hdir.
  - rewrite andb_false_r in Hrun. cbn [StoreOption_eqb] in Hrun.
    injection Hrun as <- <-. split; [reflexivity |]. intros _. split; reflexivity.
  - cbn [fs cout cerr] in Hrun. split; [| discriminate].
    destruct (create_directories dir (fs w)) as [root' |] eqn:Hcreate;
      injection Hrun as _ <-; cbn [fs]; [| reflexivity].
    intros q Hq. now apply (kind_create_directories dir (fs w) root').
Qed.

(** X13. When the work directory path names something that is not a
    directory and the option is not [INCREMENTAL], [verifyWorkDir] throws
    a file-system error (never the "not empty" error) and changes no
    file. *)
Theorem verifyWorkDir_on_a_file :
  forall (dir : path) (option : StoreOption) (w : world),
    exists_ (fs w) dir = true ->
    is_directory (fs w) dir = false ->
    option <> INCREMENTAL ->
    verifyWorkDir dir option w =
      (Thrown filesystem_error, printed w [removing_line]).
Proof.
  intros dir option w Hexists Hfile Hoption.
  assert (Hmanifest : exists_ (fs w) (dir ++ ["r.json"%string]) = false).
  { unfold exists_, is_directory in *. rewrite status_app.
    destruct (status (fs w) dir) as [[| | entries] |]; try reflexivity; discriminate. }
  unfold verifyWorkDir, fs_exists, fs_directory_iterator, get_fs, ret, bind, print,
    throw.
  rewrite Hexists, Hmanifest. cbn [andb].
  assert (Hnot : StoreOption_eqb option INCREMENTAL = false)
    by (destruct option; try reflexivity; contradiction).
  rewrite Hnot. cbn [fs cout cerr]. unfold directory_iterator.
  unfold exists_, is_directory in Hexists, Hfile.
  destruct (status (fs w) dir) as [[| | entries] |]; try discriminate; reflexivity.
Qed.

(** ** [cleanUp] *)

Lemma find_entry_filter_self (name : string) (entries : list (string * node)) :
  find_entry name (filter (fun e => negb (named name e)) entries) = None.
Proof.
  unfold find_entry.
  induction entries as [| e entries IH]; [reflexivity |].
  cbn [filter]. destruct (named name e) eqn:Hname; cbn [negb]; [exact IH |].
  cbn [find]. rewrite Hname. exact IH.
Qed.

Lemma status_removed (parent : path) (name : string) (root : node) (n : node) :
  status root (parent ++ [name]) = Some n ->
  status (remove_all (parent ++ [name]) root) (parent ++ [name]) = None.
Proof.
  intros Hn. rewrite status_app in Hn. rewrite status_app.
  destruct (status root parent) as [[| | entries] |] eqn:Hparent; try discriminate.
  rewrite (status_remove_entry parent name root entries Hparent).
  cbn [status]. now rewrite find_entry_filter_self.
Qed.

Section CleanUp.

Context {P : Platform}.

(** X14. [cleanUp] looks at [temp] in the work directory only.  When
    there is no such entry it does nothing; when it is a directory that
    is not empty the call throws a file-system error and changes no file
    (the temporary data stays); otherwise the entry is removed, nothing is
    printed, and every path that does not start with it is as before. *)
Theorem cleanUp_removes_only_an_empty_temp :
  forall (this : PotreeConverter) (w : world),
    let temp := workDir this ++ ["temp"%string] in
    match status (fs w) temp with
    | None => cleanUp this w = (Returned tt, w)
    | Some (Directory (_ :: _)) => cleanUp this w = (Thrown filesystem_error, w)
    | Some _ =>
        exists w',
          cleanUp this w = (Returned tt, w') /\
          exists_ (fs w') temp = false /\
          cout w' = cout w /\ cerr w' = cerr w /\
          forall q, (forall rest, q <> temp ++ rest) -> kind (fs w') q = kind (fs w) q
    end.
Proof.
  intros this w temp.
  assert (Hremoved :
            forall n, status (fs w) temp = Some n ->
                      remove temp (fs w) = Some (true, remove_all temp (fs w)) ->
                      exists w',
                        cleanUp this w = (Returned tt, w') /\
                        exists_ (fs w') temp = false /\
                        cout w' = cout w /\ cerr w' = cerr w /\
                        forall q, (forall rest, q <> temp ++ rest) ->
                                  kind (fs w') q = kind (fs w) q).
  { intros n Hn Hremove.
    unfold cleanUp, cleanUp_in, fs_exists, fs_remove, get_fs, put_fs, ret, bind.
    fold temp. unfold exists_ at 1. rewrite Hn. cbn [fs]. rewrite Hremove.
    cbn [fs cout cerr]. eexists. split; [reflexivity |]. cbn [fs cout cerr].
    split; [| split; [reflexivity | split; [reflexivity |]]].
    - unfold exists_, temp. now rewrite (status_removed _ _ _ n Hn).
    - intros q Hq. now apply kind_remove_all_elsewhere. }
  destruct (status (fs w) temp) as [n |] eqn:Hn.
  - destruct n as [| | [| e entries]].
    + apply (Hremoved _ eq_refl). unfold remove. now rewrite Hn.
    + apply (Hremoved _ eq_refl). unfold remove. now rewrite Hn.
    + apply (Hremoved _ eq_refl). unfold remove. now rewrite Hn.
    + unfold cleanUp, cleanUp_in, fs_exists, fs_remove, get_fs, put_fs, ret, bind,
        throw.
      fold temp. unfold exists_ at 1. rewrite Hn. cbn [fs]. unfold remove.
      now rewrite Hn.
  - unfold cleanUp, cleanUp_in, fs_exists, get_fs, ret, bind.
    fold temp. unfold exists_. now rewrite Hn.
Qed.

End CleanUp.

(** ** Readers, and which sources [convert] can read *)

Lemma bind_run {A B : Type} (m : M A) (k : A -> M B) (w w1 : world) (a : A) :
  m w = (Returned a, w1) -> bind m k w = k a w1.
Proof. intros H. unfold bind. now rewrite H. Qed.

Lemma bind_undefined {A B : Type} (m : M A) (k : A -> M B) (w w1 : world) :
  m w = (Undefined, w1) -> bind m k w = (Undefined, w1).
Proof. intros H. unfold bind. now rewrite H. Qed.

Section Sources.

Context {P : Platform}.

Lemma createPointReader_none (this : PotreeConverter) (file : path)
      (attributes : list PointAttribute) :
  let name := path_string file in
  createPointReader this file attributes = None <->
  iEndsWith name ".las" || iEndsWith name ".laz" || iEndsWith name ".ptx" ||
  iEndsWith name ".ply" || iEndsWith name ".xyz" || iEndsWith name ".txt" ||
  iEndsWith name ".pts" || iEndsWith name ".bin" = false.
Proof.
  cbv zeta. unfold createPointReader. cbv zeta.
  destruct (iEndsWith (path_string file) ".las");
    [cbn [orb]; split; discriminate |].
  destruct (iEndsWith (path_string file) ".laz");
    [cbn [orb]; split; discriminate |].
  destruct (iEndsWith (path_string file) ".ptx");
    [cbn [orb]; split; discriminate |].
  destruct (iEndsWith (path_string file) ".ply");
    [cbn [orb]; split; discriminate |].
  destruct (iEndsWith (path_string file) ".xyz");
    [cbn [orb]; split; discriminate |].
  destruct (iEndsWith (path_string file) ".txt");
    [cbn [orb]; split; discriminate |].
  destruct (iEndsWith (path_string file) ".pts");
    [cbn [orb]; split; discriminate |].
  destruct (iEndsWith (path_string file) ".bin");
    cbn [orb]; split; try discriminate; reflexivity.
Qed.

(** Whether there is a reader depends on the file name alone. *)
Lemma reader_depends_on_name (this this' : PotreeConverter) (file : path)
      (attributes attributes' : list PointAttribute) :
  createPointReader this file attributes = None ->
  createPointReader this' file attributes' = None.
Proof. intros H. apply createPointReader_none. now apply createPointReader_none in H. Qed.

Lemma recognized_has_reader (this : PotreeConverter) (file : path)
      (attributes : list PointAttribute) :
  recognized_in_directory (path_string file) = true ->
  createPointReader this file attributes <> None.
Proof.
  intros Hrecognized Hnone. apply createPointReader_none in Hnone. cbv zeta in Hnone.
  unfold recognized_in_directory in Hrecognized.
  destruct (iEndsWith (path_string file) ".las"); [discriminate |].
  destruct (iEndsWith (path_string file) ".laz"); [discriminate |].
  destruct (iEndsWith (path_string file) ".ptx"); [discriminate |].
  destruct (iEndsWith (path_string file) ".ply"); [discriminate |].
  destruct (iEndsWith (path_string file) ".xyz"); [discriminate |].
  destruct (iEndsWith (path_string file) ".pts");
    [destruct (iEndsWith (path_string file) ".txt"); discriminate |].
  discriminate.
Qed.

(** X15. [createPointReader] returns [NULL] exactly for the names that
    end in none of its eight extensions, whatever the converter and the
    attributes; every name that [prepare] accepts from a directory has a
    reader, while [.txt] and [.bin] have a reader and are not accepted
    from a directory. *)
Theorem readers_and_directory_filter :
  forall (this : PotreeConverter) (file : path) (attributes : list PointAttribute),
    let name := path_string file in
    (createPointReader this file attributes = None <->
     Forall (fun extension => iEndsWith name extension = false)
            [".las"; ".laz"; ".ptx"; ".ply"; ".xyz"; ".txt"; ".pts"; ".bin"]%string) /\
    (recognized_in_directory name = true ->
     createPointReader this file attributes <> None) /\
    (recognized_in_directory name = false ->
     createPointReader this file attributes <> None ->
     iEndsWith name ".txt" = true \/ iEndsWith name ".bin" = true).
Proof.
  intros this file attributes name. split; [| split].
  - rewrite createPointReader_none. cbv zeta. fold name. split.
    + intros H. repeat (apply orb_false_elim in H; destruct H as [H ?]).
      repeat (constructor; [assumption |]). constructor.
    + intros H.
      repeat match goal with
             | H : Forall _ (_ :: _) |- _ =>
                 let Hhead := fresh "Hhead" in
                 let Htail := fresh "Htail" in
                 inversion H as [| ? ? Hhead Htail]; subst; clear H
             end.
      repeat match goal with
             | H : iEndsWith name _ = false |- _ => rewrite H; clear H
             end.
      reflexivity.
  - apply recognized_has_reader.
  - intros Hskipped Hreader.
    destruct (iEndsWith name ".txt") eqn:Htxt; [left; reflexivity |].
    destruct (iEndsWith name ".bin") eqn:Hbin; [right; reflexivity |].
    exfalso. apply Hreader. apply createPointReader_none. cbv zeta. fold name.
    unfold recognized_in_directory in Hskipped. fold name in Hskipped.
    rewrite Htxt, Hbin.
    repeat (apply orb_false_elim in Hskipped; destruct Hskipped as [Hskipped ?]).
    repeat match goal with
           | H : iEndsWith name _ = false |- _ => rewrite H; clear H
           end.
    reflexivity.
Qed.

(** Where the files that the loop over [sources] collects come from. *)
Lemma add_source_origin (sourceFiles : list path) (source : path) (w w' : world)
      (out : list path) :
  add_source sourceFiles source w = (Returned out, w') ->
  fs w' = fs w /\
  forall f, In f out ->
            In f sourceFiles \/
            (f = source /\ is_regular_file (fs w) f = true) \/
            recognized_in_directory (path_string f) = true.
Proof.
  unfold add_source, fs_directory_iterator, get_fs, bind, ret, print, throw.
  destruct (is_directory (fs w) source) eqn:Hdir.
  - destruct (directory_iterator (fs w) source) as [entries |]; [| discriminate].
    intros [= <- <-]. split; [reflexivity |].
    intros f Hf. apply in_app_or in Hf. destruct Hf as [Hf | Hf]; [now left |].
    apply filter_In in Hf. destruct Hf as [_ Hf].
    apply andb_prop in Hf. right. right. apply Hf.
  - destruct (is_regular_file (fs w) source) eqn:Hfile.
    + intros [= <- <-]. split; [reflexivity |].
      intros f Hf. apply in_app_or in Hf. destruct Hf as [Hf | [<- | []]];
        [now left | right; left; split; [reflexivity | exact Hfile]].
    + intros [= <- <-]. split; [reflexivity |]. intros f Hf. now left.
Qed.

Lemma add_sources_origin (srcs : list path) :
  forall (sourceFiles : list path) (w w' : world) (out : list path),
    add_sources sourceFiles srcs w = (Returned out, w') ->
    fs w' = fs w /\
    forall f, In f out ->
              In f sourceFiles \/
              (In f srcs /\ is_regular_file (fs w) f = true) \/
              recognized_in_directory (path_string f) = true.
Proof.
  induction srcs as [| source srcs IH]; intros sourceFiles w w' out Hrun.
  - injection Hrun as <- <-. split; [reflexivity |]. intros f Hf. now left.
  - cbn [add_sources] in Hrun. bind_inversion Hrun as files w1 Hfirst.
    apply add_source_origin in Hfirst. destruct Hfirst as [Hfs1 Hfirst].
    apply IH in Hrun. destruct Hrun as [Hfs Hrest].
    split; [congruence |].
    intros f Hf. apply Hrest in Hf. rewrite Hfs1 in Hf.
    destruct Hf as [Hf | [[Hf Hreg] | Hf]].
    + apply Hfirst in Hf. destruct Hf as [Hf | [[-> Hreg] | Hf]].
      * now left.
      * right. left. split; [now left | exact Hreg].
      * now right; right.
    + right. left. split; [now right | exact Hreg].
    + now right; right.
Qed.

(** What [prepare] returns once the work directory is accepted. *)
Lemma prepare_after_verify (this : PotreeConverter) (w w1 : world) :
  verifyWorkDir (workDir this) (storeOption this) w = (Returned tt, w1) ->
  exists files w',
    prepare this w =
      (Returned (set_pointAttributes (set_sources this files)
                                     (output_point_attributes this)), w') /\
    fs w' = fs w1 /\
    (forall s, In s (sources this) -> is_regular_file (fs w1) s = true -> In s files) /\
    (forall f, In f files ->
               (In f (sources this) /\ is_regular_file (fs w1) f = true) \/
               recognized_in_directory (path_string f) = true).
Proof.
  intros Hverify.
  destruct (add_sources_spec (sources this) [] w1) as (files & Hadd & Hreg & Hkept).
  cbn [app] in Hadd.
  assert (Hpresent :
            Forall (fun f => exists_ (fs (printed w1 (map cant_open
                               (filter (unopenable (fs w1)) (sources this))))) f = true)
                   files).
  { cbn [printed fs]. eapply Forall_impl; [| exact Hreg].
    intros f Hf. apply regular_file_exists. exact Hf. }
  exists files. eexists. split; [| split; [| split]].
  - unfold prepare. rewrite (bind_run _ _ _ _ _ Hverify).
    rewrite (bind_run _ _ _ _ _ Hadd).
    rewrite (bind_run _ _ _ _ _ (remove_missing_present _ _ Hpresent)).
    unfold bind, print, ret. reflexivity.
  - reflexivity.
  - exact Hkept.
  - intros f Hf. destruct (add_sources_origin _ _ _ _ _ Hadd) as [_ Horigin].
    destruct (Horigin f Hf) as [[] | Hrest]. exact Hrest.
Qed.

End Sources.

(** ** [convert] as a whole *)

Section Conversion.

Context {P : Platform} {C : Collaborators}.

Lemma total_points_from_missing (this : PotreeConverter) (s : path) (srcs : list path) :
  In s srcs ->
  createPointReader this s (pointAttributes this) = None ->
  forall total, total_points_from this srcs total = None.
Proof.
  intros Hin Hnone. induction srcs as [| source srcs IH]; [contradiction |].
  intros total. cbn [total_points_from].
  destruct Hin as [-> | Hin]; [now rewrite Hnone |].
  destruct (createPointReader this source (pointAttributes this)); [| reflexivity].
  now apply IH.
Qed.

(** X16. A source that is a regular file whose name [createPointReader]
    does not know is kept by [prepare]; [convert] then calls [numPoints]
    through the null pointer: its behaviour is undefined.  Up to there
    only [verifyWorkDir] has changed files. *)
Theorem convert_undefined_without_reader :
  forall (this : PotreeConverter) (w w1 : world) (s : path),
    verifyWorkDir (workDir this) (storeOption this) w = (Returned tt, w1) ->
    In s (sources this) ->
    is_regular_file (fs w1) s = true ->
    createPointReader this s (pointAttributes this) = None ->
    exists w', convert this w = (Undefined, w') /\ fs w' = fs w1.
Proof.
  intros this w w1 s Hverify Hin Hfile Hnone.
  destruct (prepare_after_verify this w w1 Hverify)
    as (files & w' & Hprepare & Hfs & Hkept & _).
  exists w'. split; [| exact Hfs].
  unfold convert. rewrite (bind_run _ _ _ _ _ Hprepare).
  apply bind_undefined. unfold get_total_points_count.
  rewrite (total_points_from_missing _ s); [reflexivity | |].
  - cbn [sources set_pointAttributes set_sources]. now apply Hkept.
  - exact (reader_depends_on_name this _ s _ _ Hnone).
Qed.

(** X17. When [verifyWorkDir] has accepted the work directory and
    every source that is a regular file has a name that
    [createPointReader] knows, [prepare] returns, and every source it
    leaves in the list has a reader, whatever the attributes and the
    other settings of the converter are when the reader is created: for
    none of them does [createPointReader] return a null pointer in
    [get_total_points_count], in [calculateAABB] or in the reading loop
    of [convert].  [prepare] itself changes no file after
    [verifyWorkDir]. *)
Theorem prepare_leaves_readable_sources :
  forall (this : PotreeConverter) (w w1 : world),
    verifyWorkDir (workDir this) (storeOption this) w = (Returned tt, w1) ->
    (forall s, In s (sources this) -> is_regular_file (fs w1) s = true ->
               createPointReader this s (pointAttributes this) <> None) ->
    exists this' w',
      prepare this w = (Returned this', w') /\
      fs w' = fs w1 /\
      Forall (fun s => forall (later : PotreeConverter) (attributes : list PointAttribute),
                  createPointReader later s attributes <> None)
             (sources this').
Proof.
  intros this w w1 Hverify Hreaders.
  destruct (prepare_after_verify this w w1 Hverify)
    as (files & w' & Hprepare & Hfs & _ & Horigin).
  eexists _, w'. split; [exact Hprepare |]. split; [exact Hfs |].
  cbn [sources set_pointAttributes set_sources].
  apply Forall_forall. intros s Hs later attributes Hnone.
  destruct (Horigin s Hs) as [[Hsource Hfile] | Hrecognized].
  - apply (Hreaders s Hsource Hfile).
    exact (reader_depends_on_name later this s _ _ Hnone).
  - exact (recognized_has_reader later s attributes Hrecognized Hnone).
Qed.

End Conversion.

(** ** What a finished [convert] has done *)

Section Finished.

Context {P : Platform} {C : Collaborators}.

Lemma added_batches_app (cs more : list writer_call) :
  added_batches (cs ++ more) = added_batches cs ++ added_batches more.
Proof. unfold added_batches. apply flat_map_app. Qed.

(** One round of the reading loop hands its batch to the writer and
    never closes the writer. *)
Lemma ingest_batch_added (st : ingest_state) (b : PointBatch) :
  added_batches (calls (ingest_batch st b)) = added_batches (calls st) ++ [b] /\
  (In call_close (calls (ingest_batch st b)) -> In call_close (calls st)).
Proof.
  unfold ingest_batch, flush_if_needed, process_if_due, count_and_add.
  cbn [pointsSinceLastProcessing writer calls].
  destruct (PROCESS_COUNT <=? _)%N; cbn [writer calls];
    destruct (writer_needs_flush _); cbn [calls];
    rewrite ?added_batches_app; cbn [added_batches flat_map app];
    rewrite ?app_nil_r;
    (split; [reflexivity |]);
    intros Hin;
    repeat (apply in_app_or in Hin;
            destruct Hin as [Hin | Hin];
            [| cbn [In] in Hin; intuition discriminate]);
    exact Hin.
Qed.

Lemma read_batches_added (batches : list PointBatch) :
  forall st,
    Forall (fun x => batch_empty x = false) batches ->
    added_batches (calls (read_batches batches st)) =
      added_batches (calls st) ++ batches /\
    (In call_close (calls (read_batches batches st)) -> In call_close (calls st)).
Proof.
  induction batches as [| b batches IH]; intros st Hne; cbn [read_batches].
  - rewrite app_nil_r. split; [reflexivity | tauto].
  - inversion Hne as [| ? ? Hb Hrest]; subst. rewrite Hb.
    destruct (IH (ingest_batch st b) Hrest) as [Hadded Hclose].
    destruct (ingest_batch_added st b) as [Hone Hopen].
    split.
    + rewrite Hadded, Hone, <- app_assoc. reflexivity.
    + intros Hin. apply Hopen, Hclose, Hin.
Qed.

(** X18. When [convert] returns, the batches it handed to [writer.add]
    are exactly the batches that the readers of its sources deliver
    before their first empty batch, source after source and in reading
    order; the writer was closed once, as the last call, right after a
    final flush; and, below 2^64 points, [pointsProcessed] is the number
    of points of these batches. *)
Theorem convert_adds_every_batch_in_order :
  forall (this : PotreeConverter) (w w' : world) (result : conversion),
    convert this w = (Returned result, w') ->
    exists batches cs,
      pushed_batches (converter result) (sources (converter result)) = Some batches /\
      calls (ingest result) = cs ++ [call_flush; call_close] /\
      added_batches cs = batches /\
      ~ In call_close cs /\
      ((total_count batches < size_t_modulus)%N ->
       pointsProcessed (ingest result) = total_count batches).
Proof.
  intros this w w' result H. unfold convert in H.
  do 7 skip_step H.
  bind_inversion H as transformation u3 Htransformation.
  bind_inversion H as this2 u4 Hspacing.
  bind_inversion H as this3 u5 Hpage.
  match type of H with
  | context [read_sources this3 (sources this3) ?s] =>
      destruct (read_sources_is_one_sequence this3 (sources this3) s) as [Hrun Hne];
      rewrite Hrun in H; set (st0 := s) in *
  end.
  destruct (pushed_batches this3 (sources this3)) as [batches |] eqn:Hpushed;
    [| discriminate].
  cbn [option_map] in H. injection H as <- _.
  cbn [converter ingest finish calls pointsProcessed].
  specialize (Hne batches eq_refl).
  destruct (read_batches_added batches st0 Hne) as [Hadded Hclose].
  exists batches, (calls (read_batches batches st0)).
  split; [exact Hpushed |]. split; [reflexivity |].
  split; [exact Hadded |]. split; [intros Hin; apply Hclose in Hin; exact Hin |].
  intros Hroom.
  destruct (read_batches_invariant batches st0 Hne (counter_invariant_start _))
    as [(_ & Hprocessed & _) Htotal]; [exact Hroom |].
  rewrite Hprocessed, Htotal. reflexivity.
Qed.

(** With batches of at most [PROCESS_COUNT] points the carried counter
    stays below [PROCESS_COUNT]. *)
Lemma small_batches_counter (w0 : PotreeWriter) (batches : list PointBatch) :
  Forall (fun x => batch_empty x = false) batches ->
  Forall (fun x => (batch_count x <= PROCESS_COUNT)%N) batches ->
  (total_count batches < size_t_modulus)%N ->
  (pointsSinceLastProcessing (read_batches batches (start w0)) < PROCESS_COUNT)%N.
Proof.
  induction batches as [| b batches IH] using rev_ind; intros Hne Hsmall Hroom.
  - cbn. reflexivity.
  - rewrite total_count_snoc in Hroom.
    rewrite (read_batches_snoc _ _ _ Hne).
    apply Forall_app in Hne. destruct Hne as [Hne _].
    apply Forall_app in Hsmall. destruct Hsmall as [Hsmall Hb].
    inversion Hb as [| ? ? Hcount _]; subst.
    specialize (IH Hne Hsmall ltac:(lia)).
    destruct (read_batches_invariant batches (start w0) Hne (counter_invariant_start w0))
      as [Hinv Hadded];
      [change (points_added (calls (start w0))) with 0%N; lia |].
    change (points_added (calls (start w0))) with 0%N in Hadded.
    destruct (ingest_batch_calls (read_batches batches (start w0)) b Hinv) as [_ Hcounter];
      [lia |].
    cbv zeta in Hcounter. rewrite Hcounter.
    destruct (N.leb_spec PROCESS_COUNT
                (pointsSinceLastProcessing (read_batches batches (start w0)) +
                 batch_count b)); lia.
Qed.

(** X19. When no batch has more than [PROCESS_COUNT] = 1000000 points,
    the reading loop has processed the store once for every full
    1000000 points added, and its counter holds the remainder. *)
Theorem small_batches_process_every_million :
  forall (w0 : PotreeWriter) (batches : list PointBatch),
    Forall (fun x => batch_empty x = false) batches ->
    Forall (fun x => (batch_count x <= PROCESS_COUNT)%N) batches ->
    (total_count batches < size_t_modulus)%N ->
    let st := read_batches batches (start w0) in
    processings (calls st) = (total_count batches / PROCESS_COUNT)%N /\
    pointsSinceLastProcessing st = (total_count batches mod PROCESS_COUNT)%N.
Proof.
  intros w0 batches Hne Hsmall Hroom st.
  pose proof (small_batches_counter w0 batches Hne Hsmall Hroom) as Hbelow.
  destruct (read_batches_invariant batches (start w0) Hne (counter_invariant_start w0))
    as [(Hsum & _ & _) Hadded];
    [change (points_added (calls (start w0))) with 0%N; lia |].
  change (points_added (calls (start w0))) with 0%N in Hadded.
  fold st in Hbelow, Hsum, Hadded. rewrite Hadded, N.add_0_l in Hsum.
  split.
  - apply (N.div_unique _ _ _ (pointsSinceLastProcessing st)); [exact Hbelow | lia].
  - apply (N.mod_unique _ _ (processings (calls st))); [exact Hbelow | lia].
Qed.

Lemma prepare_frame (this this' : PotreeConverter) (w w' : world) :
  prepare this w = (Returned this', w') ->
  exists files,
    this' = set_pointAttributes (set_sources this files) (output_point_attributes this).
Proof.
  unfold prepare. intros H.
  skip_step H. skip_step H. bind_inversion H as files u Hfiles. skip_step H.
  injection H as <- _. exists files. reflexivity.
Qed.

Lemma spacing_from_diagonal_result (this this' : PotreeConverter) (bounds : AABB)
      (w w' : world) :
  spacing_from_diagonal this bounds w = (Returned this', w') ->
  exists value, this' = set_spacing this value.
Proof.
  unfold spacing_from_diagonal. destruct (diagonalFraction this =? 0)%Z.
  - intros [= <- _]. exists (spacing this). destruct this; reflexivity.
  - intros H. skip_step H. injection H as <- _. eexists. reflexivity.
Qed.

Lemma page_directory_result (this this' : PotreeConverter) (w w' : world) :
  page_directory this w = (Returned this', w') ->
  this' = if (0 <? String.length (pageName this))%nat
          then set_workDir this (workDir this ++ ["pointclouds"%string; pageName this])
          else this.
Proof.
  unfold page_directory. destruct (0 <? String.length (pageName this))%nat.
  - intros H. skip_step H. injection H as <- _. reflexivity.
  - intros [= <- _]. reflexivity.
Qed.

(** X20. The writer that [convert] constructs gets the converter's
    settings unchanged -- [maxDepth], [scale], the output format, the
    quality and the memory limit -- together with the point attributes
    [prepare] has put together, the transformation that
    [get_transformation_helper] returned for the source projection, and
    the work directory, which is [workDir/pointclouds/pageName] when a
    page name is set and [workDir] otherwise. *)
Theorem convert_configures_the_writer :
  forall (this : PotreeConverter) (w w' : world) (result : conversion),
    convert this w = (Returned result, w') ->
    let arguments := writer_constructed_with result in
    arg_maxDepth arguments = maxDepth this /\
    arg_scale arguments = scale this /\
    arg_outputFormat arguments = outputFormat this /\
    arg_quality arguments = quality this /\
    arg_max_memory_usage_MiB arguments = max_memory_usage_MiB this /\
    arg_pointAttributes arguments = output_point_attributes this /\
    arg_workDir arguments =
      (if (0 <? String.length (pageName this))%nat
       then workDir this ++ ["pointclouds"%string; pageName this]
       else workDir this) /\
    exists u u',
      get_transformation_helper (sourceProjection this) u =
        (Returned (arg_transformation arguments), u').
Proof.
  intros this w w' result H. unfold convert in H.
  bind_inversion H as this1 u1 Hprepare.
  apply prepare_frame in Hprepare. destruct Hprepare as (files & ->).
  do 6 skip_step H.
  bind_inversion H as transformation u3 Htransformation.
  bind_inversion H as this2 u4 Hspacing.
  apply spacing_from_diagonal_result in Hspacing. destruct Hspacing as (value & ->).
  bind_inversion H as this3 u5 Hpage.
  apply page_directory_result in Hpage.
  cbn [pageName set_spacing set_pointAttributes set_sources workDir] in Hpage.
  destruct (read_sources this3 (sources this3) _) as [st |]; [| discriminate].
  injection H as <- _.
  cbn [writer_constructed_with writer_arguments arg_maxDepth arg_scale
         arg_outputFormat arg_quality arg_max_memory_usage_MiB arg_pointAttributes
         arg_workDir arg_transformation].
  cbn [sourceProjection set_pointAttributes set_sources] in Htransformation.
  assert (Hfields :
            maxDepth this3 = maxDepth this /\ scale this3 = scale this /\
            outputFormat this3 = outputFormat this /\ quality this3 = quality this /\
            max_memory_usage_MiB this3 = max_memory_usage_MiB this /\
            pointAttributes this3 = output_point_attributes this /\
            workDir this3 =
              (if (0 <? String.length (pageName this))%nat
               then workDir this ++ ["pointclouds"%string; pageName this]
               else workDir this)).
  { rewrite Hpage. destruct (0 <? String.length (pageName this))%nat;
      repeat split; reflexivity. }
  destruct Hfields as (-> & -> & -> & -> & -> & -> & ->).
  repeat (split; [reflexivity |]).
  eexists _, u3. exact Htransformation.
Qed.

End Finished.

(** ** Large numbers *)

Section LargeNumbers.

Context {double Counter : Type} {PN : ProgressNumbers double Counter}.

(** X21. [pretty_print_large_number] never reads outside its table of
    five suffixes, whatever the number and however the comparison and the
    rounding of [double] behave: the loop stops at order 4, and the
    result is the number divided by 1000 to that order, printed with one
    decimal and followed by the suffix of that order. *)
Theorem pretty_print_large_number_stays_in_table :
  forall large_number : double,
    (order_of_magnitude large_number <= 4)%N /\
    exists suffix,
      nth_error suffixes (N.to_nat (order_of_magnitude large_number)) = Some suffix /\
      pretty_print_large_number large_number =
        Some (show_fixed 1 (d_div large_number
                                  (d_pow (d_lit 1000) (order_of_magnitude large_number)))
                ++ suffix).
Proof.
  intros large_number.
  pose proof (order_of_magnitude_at_most_4 large_number) as Hle.
  split; [exact Hle |].
  unfold pretty_print_large_number.
  destruct (array_at_in_bounds suffixes (Z.of_N (order_of_magnitude large_number)))
    as (suffix & Hat & Hnth).
  - change (List.length suffixes) with 5. lia.
  - exists suffix. rewrite <- Z_N_nat, N2Z.id in Hnth.
    split; [exact Hnth | rewrite Hat; reflexivity].
Qed.

End LargeNumbers.

(* ================================================================== *)
(** * Part III: the driver and the terminal helpers on examples *)
(* ================================================================== *)

Import Reference.

Example glyph_at_three_quarters :
  get_progress_glyph (QArith_base.Qmake 3 4) = Some (block_glyph 2).
Proof. reflexivity. Qed.

Example glyph_beyond_one :
  get_progress_glyph (QArith_base.Qmake 5 2) = Some (block_glyph 0).
Proof. reflexivity. Qed.

Example glyph_below_zero :
  get_progress_glyph (QArith_base.Qmake (-3) 1) = Some (str " ").
Proof. reflexivity. Qed.

Example hello_in_chunks :
  chunk_string (str "hello world") 4 = Some [str "hell"; str "o wo"; str "rld"].
Proof. reflexivity. Qed.

Example zero_width_is_undefined : chunk_string (str "hello world") 0 = None.
Proof. reflexivity. Qed.

Lemma get_progress_glyph_defined_with_cast_witness :
  get_progress_glyph (None : option QArith_base.Q) = None.
Proof.
  destruct (get_progress_glyph_defined_with_cast (option QArith_base.Q) extended None)
    as (_ & _ & Hundefined).
  apply Hundefined. reflexivity.
Defined.

(** The failing input of C10: the bar of a counter whose maximal
    progress is 0 is given a progress that is not finite, and drawing it
    on a terminal has no defined result. *)
Example idle_counter_progress_is_not_finite :
  map (shown to_extended_float) idle_counter = [None].
Proof. reflexivity. Qed.

Example idle_counter_frame_is_undefined :
  redraw to_extended_float true idle_counter 0 [] = None.
Proof. reflexivity. Qed.

(** A progress far outside [0, 1] whose conversion is defined is
    clamped. *)
Example glyph_far_below_zero :
  get_progress_glyph (QArith_base.Qmake (-1000000) 1) = Some (str " ").
Proof. reflexivity. Qed.

Lemma render_chunks_roundtrip_witness :
  exists lines,
    chunk_string (_content hello) (_line_width hello) = Some lines /\
    List.concat lines = _content hello /\
    Forall (fun line => (N.of_nat (List.length line) <= _line_width hello)%N) lines /\
    render true hello [] =
      Some ([] ++
            List.concat (map (fun line =>
                           (if true then _color hello else []) ++ line ++ [newline])
                        lines)).
Proof.
  apply (render_chunks_roundtrip true hello []).
  - split; reflexivity.
  - reflexivity.
Defined.

Lemma abort_if_exists_fails_before_any_work_witness :
  verifyWorkDir (workDir aborting) (storeOption aborting) fresh =
    (Thrown (runtime_error output_not_empty), fresh) /\
  prepare aborting fresh = (Thrown (runtime_error output_not_empty), fresh) /\
  convert aborting fresh = (Thrown (runtime_error output_not_empty), fresh).
Proof.
  apply (abort_if_exists_fails_before_any_work aborting fresh); reflexivity.
Defined.

Lemma overwrite_removes_existing_entries_witness :
  exists w',
    verifyWorkDir ["out"%string] OVERWRITE fresh = (Returned tt, w') /\
    status (fs w') ["out"%string] = Some (Directory []) /\
    (forall name rest, exists_ (fs w') (["out"%string] ++ name :: rest) = false) /\
    cout w' = cout fresh
                ++ ["Output directory not empty, removing existing files..."%string] /\
    cerr w' = cerr fresh.
Proof.
  eapply (overwrite_removes_existing_entries ["out"%string] fresh). reflexivity.
Defined.

Lemma identity_transform_exactly_when_witness :
  exists transformation w',
    get_transformation_helper (Some "garbage"%string) fresh =
      (Returned transformation, w') /\
    transformation = IdentityTransform /\
    cerr w' = setup_warning "unknown projection".
Proof.
  destruct (identity_transform_exactly_when (Some "garbage"%string) fresh)
    as (t & w' & Hrun & _ & Hiff & Hwarn & _).
  exists t, w'. split; [exact Hrun |]. split.
  - apply Hiff. right. right. exists "garbage"%string, "unknown projection"%string.
    split; reflexivity.
  - apply (Hwarn "garbage"%string "unknown projection"%string);
      [reflexivity | discriminate | reflexivity].
Defined.

Example appending_reports_one_source :
  filter (unopenable (fs fresh)) (sources appending) = [["nope.las"%string]].
Proof. reflexivity. Qed.

Lemma missing_sources_reported_and_dropped_witness :
  exists this',
    prepare appending fresh =
      (Returned this',
       printed (printed fresh ["Appending to existing output directory..."%string])
               (map cant_open
                    (filter (unopenable
                               (fs (printed fresh
                                      ["Appending to existing output directory..."%string])))
                            (sources appending))
                  ++ [attributes_line appending])) /\
    (forall s, In s (sources appending) ->
               exists_ (fs (printed fresh
                              ["Appending to existing output directory..."%string])) s
                 = false ->
               In s (filter (unopenable
                               (fs (printed fresh
                                      ["Appending to existing output directory..."%string])))
                            (sources appending)) /\
               ~ In s (sources this')) /\
    (forall s, In s (sources appending) ->
               is_regular_file
                 (fs (printed fresh
                        ["Appending to existing output directory..."%string])) s = true ->
               In s (sources this')) /\
    Forall (fun f => is_regular_file
                       (fs (printed fresh
                              ["Appending to existing output directory..."%string])) f
                     = true)
           (sources this').
Proof.
  apply (missing_sources_reported_and_dropped
           appending fresh
           (printed fresh ["Appending to existing output directory..."%string])).
  reflexivity.
Defined.

(** With the reference [iEndsWith], ending in [.pts] rules out the
    extensions that are tested before it. *)
Lemma pts_suffix_dispatches_to_pts (file : path) :
  iEndsWith (path_string file) ".pts" = true -> dispatches_to_pts file.
Proof.
  unfold dispatches_to_pts. cbv zeta.
  cbn [iEndsWith platform]. unfold ends_with_ignoring_case.
  change (String.length ".pts") with 4. change (String.length ".las") with 4.
  change (String.length ".laz") with 4. change (String.length ".ptx") with 4.
  change (String.length ".ply") with 4. change (String.length ".xyz") with 4.
  change (String.length ".txt") with 4.
  destruct (4 <=? String.length (path_string file))%nat; [| discriminate].
  cbn [andb]. intros Hpts. apply String.eqb_eq in Hpts. rewrite Hpts.
  repeat split.
Qed.

Example pts_extension_dispatch :
  dispatches_to_pts ["in"%string; "cloud.PTS"%string].
Proof. repeat split. Qed.

Lemma pts_reader_gets_local_intensity_range_witness :
  exists reader,
    createPointReader with_intensity_range cloud_pts [] = Some reader /\
    reader = XYZPointReader cloud_pts (format with_intensity_range)
               (colorRange with_intensity_range)
               (if (List.length (intensityRange with_intensity_range) =? 0)%nat
                then [double_of_int (-2048); double_of_int 2047]
                else []) /\
    (intensityRange with_intensity_range <> [] ->
     reader_intensityRange reader = Some [] /\
     reader_intensityRange reader <> Some (intensityRange with_intensity_range)).
Proof.
  apply (pts_reader_gets_local_intensity_range with_intensity_range cloud_pts []).
  repeat split.
Defined.

(** The failing input of C7 evaluated: the converter is configured with
    the intensity range 0..255, and the reader of [cloud.pts] is
    constructed with the empty range. *)
Example configured_intensity_range_is_dropped :
  createPointReader with_intensity_range cloud_pts [] =
  Some (XYZPointReader cloud_pts "xyzrgb" [] []).
Proof. reflexivity. Qed.

(** The sibling branch hands the member on. *)
Example xyz_reader_gets_configured_intensity_range :
  createPointReader with_intensity_range ["in"%string; "cloud.xyz"%string] [] =
  Some (XYZPointReader ["in"%string; "cloud.xyz"%string] "xyzrgb" [] [0; 255]%Z).
Proof. reflexivity. Qed.

Example overwriting_spacing :
  option_map (fun result => arg_spacing (writer_constructed_with result))
             (value_of (convert overwriting fresh)) = Some 20%Z.
Proof. reflexivity. Qed.

Lemma root_spacing_from_diagonal_fraction_witness :
  exists result w',
    convert overwriting fresh = (Returned result, w') /\
    (exists bounds,
        arg_aabb (writer_constructed_with result) = AABB_makeCubic bounds) /\
    arg_spacing (writer_constructed_with result) =
      if (diagonalFraction overwriting =? 0)%Z then spacing overwriting
      else float_of_double
             (double_div (AABB_size_length (arg_aabb (writer_constructed_with result)))
                         (double_of_int (diagonalFraction overwriting))).
Proof.
  pose proof overwriting_spacing as Hvalue.
  destruct (convert overwriting fresh) as [[result | e |] w'] eqn:Hrun;
    try discriminate Hvalue.
  exists result, w'. split; [reflexivity |].
  exact (root_spacing_from_diagonal_fraction overwriting fresh w' result Hrun).
Defined.

(** C2 as stated fails: of five batches of 400000 points the third is
    followed by processing (1200000 points are queued), and so is the
    fifth, although only 800000 points, fewer than [PROCESS_COUNT], were
    queued since that processing. *)
Lemma processing_with_fewer_points_queued :
  calls after_four_batches =
    [call_add 400000%N; call_add 400000%N; call_add 400000%N;
     call_processStore; call_waitUntilProcessed; call_add 400000%N] /\
  emits_processing after_four_batches 400000%N = true /\
  queued_since_last_processing (calls after_four_batches ++ [call_add 400000%N]) =
    800000%N /\
  (800000 < PROCESS_COUNT)%N.
Proof. repeat split. Qed.

Lemma processing_follows_carried_counter_witness :
  calls (read_batches (four_batches ++ [400000%N]) (start 0%N)) =
    calls after_four_batches
      ++ [call_add 400000%N; call_processStore; call_waitUntilProcessed] /\
  emits_processing after_four_batches 400000%N = true /\
  pointsSinceLastProcessing (read_batches (four_batches ++ [400000%N]) (start 0%N)) =
    0%N.
Proof.
  destruct (@processing_follows_carried_counter platform collaborators
              0%N four_batches 400000%N)
    as (Hcalls & Hemits & _ & Hcounter & _).
  - repeat constructor.
  - reflexivity.
  - split; [exact Hcalls | split; [exact Hemits | exact Hcounter]].
Defined.

(** ** The further properties on examples *)

Lemma format_progress_name_pads_witness :
  format_progress_name (str "io") 8 =
    str "io" ++ repeat space (N.to_nat 8 - List.length (str "io")) ++ [colon] /\
  N.of_nat (List.length (format_progress_name (str "io") 8)) = (8 + 1)%N.
Proof.
  apply (format_progress_name_pads (str "io") 8).
  - vm_compute. discriminate.
  - reflexivity.
Defined.

Example io_padded : format_progress_name (str "io") 8 = str "io      :".
Proof. reflexivity. Qed.

Lemma format_time_round_trip_witness :
  List.length (format_time_as_hh_mm_ss 3725) = 8 /\
  parse_hh_mm_ss (format_time_as_hh_mm_ss 3725) = Some 3725%Z.
Proof. apply (format_time_round_trip 3725). lia. Defined.

Example an_hour_two_minutes_five : format_time_as_hh_mm_ss 3725 = str "01:02:05".
Proof. reflexivity. Qed.

Example a_hundred_hours : format_time_as_hh_mm_ss 360000 = str "100:00:00".
Proof. reflexivity. Qed.

Lemma rebuild_with_tty_aligns_names_witness :
  exists rows width,
    rebuild_progress_ui_with_tty to_float two_counters = Some rows /\
    Forall (fun kv => List.length (fst kv) <= width)%nat two_counters /\
    (two_counters <> [] ->
     exists kv, In kv two_counters /\ List.length (fst kv) = width) /\
    Forall2 (fun kv row =>
               exists name_label progress detail,
                 row = [ Label name_label ForegroundColorWhite;
                         ProgressBar progress 40;
                         Label detail ForegroundColorWhite ] /\
                 name_label =
                   fst kv ++ repeat space (width - List.length (fst kv)) ++ [colon] /\
                 List.length name_label = S width)
            two_counters rows.
Proof.
  apply (rebuild_with_tty_aligns_names to_float two_counters).
  repeat constructor.
Defined.

Example two_rows :
  option_map (map (fun row => List.concat (map (fun element =>
                                 match element with
                                 | Label content _ => content
                                 | _ => []
                                 end) row)))
             (rebuild_progress_ui_with_tty to_float two_counters) =
  Some [ str "indexing: 37% [1K/4K]"; str "io      : 100% [7/7]" ].
Proof. reflexivity. Qed.

Lemma exact_numbers_one_line :
  forall (precision : nat) (x : QArith_base.Q), ~ In newline (show_fixed precision x).
Proof. intros precision x. apply no_newline_format_i. Qed.

Lemma redraw_with_tty_in_place_witness :
  exists rows out,
    redraw to_float true two_counters 75 [] = Some (rows, out) /\
    List.length rows = List.length two_counters /\
    (two_counters = [] -> out = []) /\
    (two_counters <> [] ->
     exists body,
       out = [] ++ body ++ (ESC :: str "[1000D") ++ (ESC :: str "[")
               ++ decimal (N.of_nat (List.length two_counters)) ++ str "A" /\
       line_feeds body = List.length two_counters).
Proof.
  destruct (redraw_with_tty_in_place to_float exact_numbers_one_line two_counters 75 [])
    as [Hdefined _].
  - repeat constructor.
  - repeat constructor; vm_compute; intuition discriminate.
  - apply Hdefined. repeat constructor.
Defined.

Lemma redraw_without_tty_appends_one_line_witness :
  exists rows out,
    redraw to_float false two_counters 75 [] = Some (rows, out) /\
    (two_counters = [] -> rows = [] /\ out = []) /\
    (two_counters <> [] ->
     let line := str "[" ++ format_time_as_hh_mm_ss 75 ++ str "] "
                   ++ List.concat (map progress_text two_counters) in
     out = [] ++ line ++ [newline] /\ line_feeds line = 0%nat).
Proof.
  apply (redraw_without_tty_appends_one_line
           (PN := exact_numbers) to_float (exact_numbers_one_line 0) two_counters 75 []).
  repeat constructor; vm_compute; intuition discriminate.
Defined.

Example one_line_without_terminal :
  option_map snd (redraw to_float false two_counters 75 []) =
  Some (str "[00:01:15] indexing: 1500 / 4000 io: 7 / 7 " ++ [newline]).
Proof. reflexivity. Qed.

Lemma chunk_string_full_lines_witness :
  exists lines,
    chunk_string (str "hello world") 4 = Some lines /\
    N.of_nat (List.length lines) =
      ((N.of_nat (List.length (str "hello world")) + 4 - 1) / 4)%N /\
    Forall (fun line => (1 <= List.length line)%nat) lines /\
    Forall (fun line => N.of_nat (List.length line) = 4%N) (removelast lines) /\
    (str "hello world" = [] -> lines = []).
Proof.
  apply (chunk_string_full_lines (str "hello world") 4).
  - split; reflexivity.
  - reflexivity.
Defined.

Lemma abort_if_exists_without_manifest_removes_witness :
  verifyWorkDir ["in"%string] ABORT_IF_EXISTS fresh =
    verifyWorkDir ["in"%string] OVERWRITE fresh /\
  exists w',
    verifyWorkDir ["in"%string] ABORT_IF_EXISTS fresh = (Returned tt, w') /\
    status (fs w') ["in"%string] = Some (Directory []) /\
    cout w' = cout fresh ++ [removing_line].
Proof.
  apply (abort_if_exists_without_manifest_removes
           ["in"%string] fresh
           [ ("cloud.pts"%string, RegularFile); ("notes.md"%string, RegularFile) ]);
    reflexivity.
Defined.

Lemma verifyWorkDir_touches_only_below_witness :
  kind (fs (snd (verifyWorkDir ["out"%string] OVERWRITE fresh)))
       ["in"%string; "cloud.pts"%string] =
  kind (fs fresh) ["in"%string; "cloud.pts"%string].
Proof.
  apply (verifyWorkDir_touches_only_below
           ["out"%string] OVERWRITE fresh
           (snd (verifyWorkDir ["out"%string] OVERWRITE fresh))
           (fst (verifyWorkDir ["out"%string] OVERWRITE fresh))).
  - reflexivity.
  - reflexivity.
  - intros (name & rest & Hbelow). vm_compute in Hbelow. discriminate Hbelow.
Defined.

Lemma verifyWorkDir_creates_missing_directory_witness :
  (blocked (fs fresh) ["new"%string; "deep"%string] /\
   verifyWorkDir ["new"%string; "deep"%string] OVERWRITE fresh =
     (Thrown filesystem_error, printed fresh [creating_line]))
  \/
  (~ blocked (fs fresh) ["new"%string; "deep"%string] /\
   exists w',
     verifyWorkDir ["new"%string; "deep"%string] OVERWRITE fresh = (Returned tt, w') /\
     status (fs w') ["new"%string; "deep"%string] = Some (Directory []) /\
     cout w' = cout fresh ++ [creating_line] /\
     forall q, exists_ (fs fresh) q = true -> kind (fs w') q = kind (fs fresh) q).
Proof.
  apply (verifyWorkDir_creates_missing_directory
           ["new"%string; "deep"%string] OVERWRITE fresh).
  reflexivity.
Defined.

(** A directory cannot be created below a file. *)
Example blocked_by_a_file :
  verifyWorkDir ["in"%string; "cloud.pts"%string; "out"%string] OVERWRITE fresh =
    (Thrown filesystem_error, printed fresh [creating_line]).
Proof. reflexivity. Qed.

Lemma incremental_keeps_every_file_witness :
  (forall q, exists_ (fs fresh) q = true ->
             kind (fs (snd (verifyWorkDir ["out"%string] INCREMENTAL fresh))) q =
             kind (fs fresh) q) /\
  (exists_ (fs fresh) ["out"%string] = true ->
   fst (verifyWorkDir ["out"%string] INCREMENTAL fresh) = Returned tt /\
   snd (verifyWorkDir ["out"%string] INCREMENTAL fresh) =
     printed fresh [appending_line]).
Proof.
  apply (incremental_keeps_every_file ["out"%string] fresh). reflexivity.
Defined.

Lemma verifyWorkDir_on_a_file_witness :
  verifyWorkDir ["in"%string; "cloud.pts"%string] ABORT_IF_EXISTS fresh =
    (Thrown filesystem_error, printed fresh [removing_line]).
Proof.
  apply (verifyWorkDir_on_a_file ["in"%string; "cloud.pts"%string] ABORT_IF_EXISTS fresh);
    [reflexivity | reflexivity | discriminate].
Defined.

(** [cleanUp] on a work directory whose [temp] still holds a file, and
    on one whose [temp] is empty. *)
Lemma cleanUp_removes_only_an_empty_temp_witness :
  cleanUp overwriting interrupted = (Thrown filesystem_error, interrupted).
Proof. exact (cleanUp_removes_only_an_empty_temp overwriting interrupted). Defined.

Example cleanUp_removes_an_empty_temp :
  cleanUp overwriting
          (empty_world
             (Directory [ ("out"%string,
                           Directory [ ("temp"%string, Directory []);
                                       ("r.json"%string, RegularFile) ]) ])) =
  (Returned tt,
   empty_world
     (Directory [ ("out"%string, Directory [ ("r.json"%string, RegularFile) ]) ])).
Proof. reflexivity. Qed.

Lemma readers_and_directory_filter_witness :
  (createPointReader overwriting cloud_pts [] = None <->
   Forall (fun extension => iEndsWith (path_string cloud_pts) extension = false)
          [".las"; ".laz"; ".ptx"; ".ply"; ".xyz"; ".txt"; ".pts"; ".bin"]%string) /\
  (recognized_in_directory (path_string cloud_pts) = true ->
   createPointReader overwriting cloud_pts [] <> None) /\
  (recognized_in_directory (path_string cloud_pts) = false ->
   createPointReader overwriting cloud_pts [] <> None ->
   iEndsWith (path_string cloud_pts) ".txt" = true \/
   iEndsWith (path_string cloud_pts) ".bin" = true).
Proof. exact (readers_and_directory_filter overwriting cloud_pts []). Defined.

(** A [.txt] file is read when it is named as a source, and skipped when
    it lies in a source directory. *)
Example txt_has_a_reader_but_is_not_collected :
  createPointReader overwriting ["in"%string; "points.txt"%string] [] <> None /\
  recognized_in_directory "in/points.txt" = false.
Proof. split; [discriminate | reflexivity]. Qed.

Lemma render_progress_bar_shape_witness :
  exists glyphs,
    N.of_nat (List.length glyphs) = (5 - 2)%N /\
    Forall (fun glyph => In glyph Glyphs) glyphs /\
    render_progress_bar (QArith_base.Qmake 3 8) 5 [] =
      Some ([] ++ str "[" ++ List.concat glyphs ++ str "]").
Proof.
  destruct (render_progress_bar_shape (QArith_base.Qmake 3 8) 5 []) as (_ & Hwide & _).
  apply Hwide; [lia | reflexivity].
Defined.

Example bar_of_a_progress_that_is_not_finite :
  render_progress_bar (None : option QArith_base.Q) 5 [] = None.
Proof. reflexivity. Qed.

Lemma convert_undefined_without_reader_witness :
  exists w',
    convert unreadable fresh = (Undefined, w') /\ fs w' = fs (accepted unreadable fresh).
Proof.
  apply (convert_undefined_without_reader
           unreadable fresh (accepted unreadable fresh)
           ["in"%string; "notes.md"%string]).
  - reflexivity.
  - left. reflexivity.
  - reflexivity.
  - reflexivity.
Defined.

Lemma prepare_leaves_readable_sources_witness :
  exists this' w',
    prepare readable fresh = (Returned this', w') /\
    fs w' = fs (accepted readable fresh) /\
    Forall (fun s => forall (later : PotreeConverter) (attributes : list PointAttribute),
                createPointReader later s attributes <> None)
           (sources this').
Proof.
  apply (prepare_leaves_readable_sources readable fresh (accepted readable fresh)).
  - reflexivity.
  - intros s [<- | [<- | []]] Hfile Hnone.
    + vm_compute in Hfile. discriminate Hfile.
    + vm_compute in Hnone. discriminate Hnone.
Defined.

Example readable_sources_after_prepare :
  option_map sources (value_of (prepare readable fresh)) =
  Some [ ["in"%string; "cloud.pts"%string]; ["in"%string; "cloud.pts"%string] ].
Proof. reflexivity. Qed.

Lemma convert_adds_every_batch_in_order_witness :
  exists result w',
    convert overwriting fresh = (Returned result, w') /\
    exists batches cs,
      pushed_batches (Potree.converter result) (sources (Potree.converter result)) = Some batches /\
      calls (ingest result) = cs ++ [call_flush; call_close] /\
      added_batches cs = batches /\
      ~ In call_close cs /\
      ((total_count batches < size_t_modulus)%N ->
       pointsProcessed (ingest result) = total_count batches).
Proof.
  pose proof overwriting_spacing as Hvalue.
  destruct (convert overwriting fresh) as [[result | e |] w'] eqn:Hrun;
    try discriminate Hvalue.
  exists result, w'. split; [reflexivity |].
  exact (convert_adds_every_batch_in_order overwriting fresh w' result Hrun).
Defined.

Example overwriting_calls :
  option_map (fun result => calls (ingest result))
             (value_of (convert overwriting fresh)) =
  Some [ call_add 400000%N; call_add 400000%N; call_add 400000%N;
         call_processStore; call_waitUntilProcessed;
         call_add 400000%N; call_add 400000%N;
         call_processStore; call_waitUntilProcessed;
         call_flush; call_close ].
Proof. reflexivity. Qed.

Lemma small_batches_process_every_million_witness :
  processings (calls (read_batches small_batches (start 0%N))) =
    (total_count small_batches / PROCESS_COUNT)%N /\
  pointsSinceLastProcessing (read_batches small_batches (start 0%N)) =
    (total_count small_batches mod PROCESS_COUNT)%N.
Proof.
  apply (@small_batches_process_every_million platform collaborators 0%N small_batches).
  - repeat constructor.
  - repeat constructor; vm_compute; discriminate.
  - reflexivity.
Defined.

Example small_batches_counts :
  processings (calls (read_batches small_batches (start 0%N))) = 2%N /\
  pointsSinceLastProcessing (read_batches small_batches (start 0%N)) = 500000%N.
Proof. split; reflexivity. Qed.

Lemma convert_configures_the_writer_witness :
  exists result w',
    convert overwriting fresh = (Returned result, w') /\
    arg_maxDepth (writer_constructed_with result) = maxDepth overwriting /\
    arg_scale (writer_constructed_with result) = scale overwriting /\
    arg_outputFormat (writer_constructed_with result) = outputFormat overwriting /\
    arg_quality (writer_constructed_with result) = quality overwriting /\
    arg_max_memory_usage_MiB (writer_constructed_with result) =
      max_memory_usage_MiB overwriting /\
    arg_pointAttributes (writer_constructed_with result) =
      output_point_attributes overwriting /\
    arg_workDir (writer_constructed_with result) =
      (if (0 <? String.length (pageName overwriting))%nat
       then workDir overwriting ++ ["pointclouds"%string; pageName overwriting]
       else workDir overwriting) /\
    exists u u',
      get_transformation_helper (sourceProjection overwriting) u =
        (Returned (arg_transformation (writer_constructed_with result)), u').
Proof.
  pose proof overwriting_spacing as Hvalue.
  destruct (convert overwriting fresh) as [[result | e |] w'] eqn:Hrun;
    try discriminate Hvalue.
  exists result, w'. split; [reflexivity |].
  exact (convert_configures_the_writer overwriting fresh w' result Hrun).
Defined.
